(** * Identity reconciliation service: [identify] over a contact table

    A shallow embedding of [src/main.py].  The SQLAlchemy session is a small
    state-and-exception monad over the rows of the [contacts] table together
    with a log of the statements sent to the database, so that both the
    final table and the points at which work is committed can be talked
    about.

    Conventions of the embedding:
    - the table is the list of its rows in rowid order; [.first()] returns
      the first selected row, and [.all()] on one test returns the selected
      rows in that order;
    - the query for the matching contacts has no ORDER BY, and the order of
      its rows decides which record is [matching_contacts[0]] and which of
      two primaries created at the same instant survives a merge.  Both
      columns it tests are indexed, and SQLite answers an OR of indexed
      equality tests one test at a time: first the rows with the email of
      the request, then the rows that only have its phone number, each
      group in rowid order ([or_rows]);
    - [id] is the INTEGER PRIMARY KEY: a new row gets one more than the
      largest id present (1 in an empty table);
    - [datetime.datetime.utcnow()] is the argument [now] of [identify];
    - Python truthiness of an optional string is [truthy]: [None] and the
      empty string are false;
    - [list({...})] of a set comprehension is [nodup]: the order Python
      gives the elements is unspecified, so statements about [emails] and
      [phoneNumbers] are made up to order;
    - Python bounds the depth of the call stack (1000 frames unless
      [sys.setrecursionlimit] was called), and a call that would exceed the
      bound raises RecursionError.  The number of nested calls of
      [find_primary_contact] that fit under the bound when [identify] runs
      is the variable [recursion_depth] of the section [Interpreter]: it
      depends on the frames the web framework already uses and is left
      arbitrary, so that what is proved holds whatever the bound is. *)

From Stdlib Require Import ZArith String List Bool Lia Arith Permutation.
Import ListNotations.
Open Scope Z_scope.

(** ** Data model *)

Inductive LinkPrecedence : Type := primary | secondary.

Record Contact : Type := mkContact {
  id : Z;
  phoneNumber : option string;
  email : option string;
  linkedId : option Z;
  linkPrecedence : LinkPrecedence;
  createdAt : Z;
  updatedAt : Z;
  deletedAt : option Z
}.

Record IdentifyRequest : Type := mkRequest {
  request_email : option string;
  request_phoneNumber : option string
}.

Record ContactResponse : Type := mkResponse {
  primaryContactId : Z;
  emails : list string;
  phoneNumbers : list string;
  secondaryContactIds : list Z
}.

Definition is_primary (c : Contact) : bool :=
  match linkPrecedence c with primary => true | secondary => false end.

Definition is_secondary (c : Contact) : bool :=
  match linkPrecedence c with primary => false | secondary => true end.

(** [if s:] on an [Optional[str]]. *)
Definition truthy (s : option string) : bool :=
  match s with
  | Some s => negb (String.eqb s EmptyString)
  | None => false
  end.

(** SQL [column = value]: a NULL column equals nothing. *)
Definition col_eq_str (col : option string) (v : option string) : bool :=
  match col, v with
  | Some a, Some b => String.eqb a b
  | _, _ => false
  end.

(** SQL [id = value]; [value] is NULL when it comes from a NULL [linkedId]. *)
Definition id_eq (v : option Z) (c : Contact) : bool :=
  match v with
  | Some i => id c =? i
  | None => false
  end.

Definition linked_to (i : Z) (c : Contact) : bool :=
  match linkedId c with
  | Some j => j =? i
  | None => false
  end.

(** ** The session monad *)

Inductive Error : Type :=
| HTTPException (status_code : Z)
| AttributeError
| RecursionError.

(** The spec's name for the 400 answer. *)
Definition InvalidRequest : Error := HTTPException 400.

Inductive Event : Type :=
| Select
| Commit (snapshot : list Contact).

Record Session : Type := mkSession {
  rows : list Contact;
  log : list Event
}.

Inductive Result (A : Type) : Type :=
| Ok (a : A)
| Raise (e : Error).
Arguments Ok {A} a.
Arguments Raise {A} e.

Definition M (A : Type) : Type := Session -> Result A * Session.

Definition ret {A} (a : A) : M A := fun s => (Ok a, s).

Definition bind {A B} (m : M A) (k : A -> M B) : M B :=
  fun s =>
    match m s with
    | (Ok a, s') => k a s'
    | (Raise e, s') => (Raise e, s')
    end.

Definition raise {A} (e : Error) : M A := fun s => (Raise e, s).

Declare Scope session_scope.
Delimit Scope session_scope with session.
Notation "x <- m ;; k" := (bind m (fun x => k))
  (at level 100, m at next level, right associativity) : session_scope.
Notation "m ;;; k" := (bind m (fun _ => k))
  (at level 100, right associativity) : session_scope.
Open Scope session_scope.

Definition emit (e : Event) (s : Session) : Session :=
  {| rows := rows s; log := log s ++ [e] |}.

(** [db.query(Contact).filter(p).all()] *)
Definition query_all (p : Contact -> bool) : M (list Contact) :=
  fun s => (Ok (filter p (rows s)), emit Select s).

(** The rows an OR of indexed equality tests selects, in the order SQLite
    returns them: test by test, and for each test, in rowid order, the rows
    it selects that no earlier test ([seen]) selected. *)
Fixpoint or_rows (seen : Contact -> bool) (conditions : list (Contact -> bool))
  (table : list Contact) : list Contact :=
  match conditions with
  | [] => []
  | condition :: later =>
      filter (fun r => condition r && negb (seen r)) table
      ++ or_rows (fun r => seen r || condition r) later table
  end.

(** [query.filter(or_(...)).all()], the OR being over [conditions] *)
Definition query_or (conditions : list (Contact -> bool)) : M (list Contact) :=
  fun s => (Ok (or_rows (fun _ => false) conditions (rows s)), emit Select s).

(** [db.query(Contact).filter(p).first()] *)
Definition query_first (p : Contact -> bool) : M (option Contact) :=
  fun s => (Ok (find p (rows s)), emit Select s).

(** [db.commit()] *)
Definition commit : M unit :=
  fun s => (Ok tt, emit (Commit (rows s)) s).

Definition next_id (table : list Contact) : Z :=
  1 + fold_right (fun c m => Z.max (id c) m) 0 table.
Arguments next_id : simpl never.

(** [db.add(c)]: the row is given its id and appended. *)
Definition add (c : Contact) : M Contact :=
  fun s =>
    let c' := mkContact (next_id (rows s)) (phoneNumber c) (email c)
                (linkedId c) (linkPrecedence c) (createdAt c) (updatedAt c)
                (deletedAt c) in
    (Ok c', {| rows := rows s ++ [c']; log := log s |}).

(** Attribute assignments on the loaded objects whose ids are [targets];
    [id] being the primary key, an id names one object. *)
Definition mutate (targets : list Z) (f : Contact -> Contact) : M unit :=
  fun s =>
    (Ok tt,
     {| rows := map (fun c => if existsb (Z.eqb (id c)) targets then f c else c)
                    (rows s);
        log := log s |}).

(** ** Helper functions of the source *)

(** The source recurses with no bound of its own; [fuel] is the number of
    nested calls that the interpreter's recursion limit still allows, and
    the call that would exceed it raises RecursionError. *)
Fixpoint find_primary_contact (fuel : nat) (contact_id : option Z)
  : M (option Contact) :=
  match fuel with
  | O => raise RecursionError
  | S fuel' =>
      contact <- query_first (id_eq contact_id) ;;
      match contact with
      | None => ret None
      | Some contact =>
          if is_primary contact then ret (Some contact)
          else find_primary_contact fuel' (linkedId contact)
      end
  end.

Definition get_all_linked_contacts (primary_id : Z) : M (list Contact) :=
  primary_contact <- query_first (id_eq (Some primary_id)) ;;
  match primary_contact with
  | None => ret []
  | Some primary_contact =>
      if negb (is_primary primary_contact) then ret []
      else
        secondary_contacts <-
          query_all (fun c => linked_to primary_id c && is_secondary c) ;;
        ret (primary_contact :: secondary_contacts)
  end.

(** ** [identify] *)

(** [primary_contacts.sort(key=lambda x: x.createdAt)]: a stable sort. *)
Fixpoint insert_by_createdAt (x : Contact) (l : list Contact) : list Contact :=
  match l with
  | [] => [x]
  | y :: l' =>
      if createdAt x <=? createdAt y then x :: y :: l'
      else y :: insert_by_createdAt x l'
  end.

Definition sort_by_createdAt (l : list Contact) : list Contact :=
  fold_right insert_by_createdAt [] l.

(** The three assignments of the demotion loop. *)
Definition demote (now : Z) (oldest_id : Z) (c : Contact) : Contact :=
  mkContact (id c) (phoneNumber c) (email c) (Some oldest_id) secondary
            (createdAt c) now (deletedAt c).

(** The clauses handed to [or_]. *)
Definition conditions (request : IdentifyRequest) : list (Contact -> bool) :=
  (if truthy (request_email request)
   then [fun c => col_eq_str (email c) (request_email request)] else [])
  ++
  (if truthy (request_phoneNumber request)
   then [fun c => col_eq_str (phoneNumber c) (request_phoneNumber request)]
   else []).

Definition matches (request : IdentifyRequest) (c : Contact) : bool :=
  existsb (fun cond => cond c) (conditions request).

(** [[x] if x else []] *)
Definition if_truthy (s : option string) : list string :=
  match s with
  | Some v => if truthy s then [v] else []
  | None => []
  end.

(** [{c.email for c in contacts if c.email}] *)
Definition existing_emails (contacts : list Contact) : list string :=
  nodup string_dec (flat_map (fun c => if_truthy (email c)) contacts).

Definition existing_phones (contacts : list Contact) : list string :=
  nodup string_dec (flat_map (fun c => if_truthy (phoneNumber c)) contacts).

(** [x and x not in xs] *)
Definition truthy_and_not_in (s : option string) (xs : list string) : bool :=
  match s with
  | Some v => truthy s && negb (existsb (String.eqb v) xs)
  | None => false
  end.

Definition respond (primary_contact : Contact) (all_linked_contacts : list Contact)
  : ContactResponse :=
  {| primaryContactId := id primary_contact;
     emails := existing_emails all_linked_contacts;
     phoneNumbers := existing_phones all_linked_contacts;
     secondaryContactIds :=
       map id (filter is_secondary all_linked_contacts) |}.

(** The source's [identify] is one function; its commented blocks are
    named here so that each can be reasoned about on its own. *)

(** "Case 1: No matching contacts found, create a new primary contact" *)
Definition create_new_primary (now : Z) (request : IdentifyRequest)
  : M ContactResponse :=
  new_contact <-
    add (mkContact 0 (request_phoneNumber request) (request_email request)
                   None primary now now None) ;;
  commit ;;;
  ret {| primaryContactId := id new_contact;
         emails := if_truthy (email new_contact);
         phoneNumbers := if_truthy (phoneNumber new_contact);
         secondaryContactIds := [] |}.

(** "Case 2: Multiple primary contacts found, need to consolidate".  The
    list [primary_contacts] is sorted in place and its objects are mutated,
    so the list the later code reads is the value returned here. *)
Definition consolidate (now : Z) (primary_contacts : list Contact)
  : M (list Contact) :=
  if (1 <? length primary_contacts)%nat then
    match sort_by_createdAt primary_contacts with
    | [] => ret []
    | oldest_primary :: other_primaries =>
        mutate (map id other_primaries) (demote now (id oldest_primary)) ;;;
        commit ;;;
        ret (oldest_primary
               :: map (demote now (id oldest_primary)) other_primaries)
    end
  else ret primary_contacts.

Section Interpreter.

(** The number of nested calls of [find_primary_contact] that the
    interpreter's recursion limit leaves room for. *)
Variable recursion_depth : nat.

(** "Get the primary contact" to "Prepare response". *)
Definition link_and_respond (now : Z) (request : IdentifyRequest)
  (first_match : Contact) (primary_contacts : list Contact)
  : M ContactResponse :=
  primary_contact <-
    match primary_contacts with
    | p :: _ => ret (Some p)
    | [] => find_primary_contact recursion_depth (linkedId first_match)
    end ;;
  match primary_contact with
  | None => raise AttributeError
  | Some primary_contact =>
      all_linked_contacts <- get_all_linked_contacts (id primary_contact) ;;
      all_linked_contacts <-
        (if truthy_and_not_in (request_email request)
                              (existing_emails all_linked_contacts)
            || truthy_and_not_in (request_phoneNumber request)
                                 (existing_phones all_linked_contacts)
         then
           new_secondary <-
             add (mkContact 0 (request_phoneNumber request)
                    (request_email request) (Some (id primary_contact))
                    secondary now now None) ;;
           commit ;;;
           ret (all_linked_contacts ++ [new_secondary])
         else ret all_linked_contacts) ;;
      ret (respond primary_contact all_linked_contacts)
  end.

Definition identify (now : Z) (request : IdentifyRequest) : M ContactResponse :=
  if negb (truthy (request_email request))
     && negb (truthy (request_phoneNumber request))
  then raise (HTTPException 400)
  else
    matching_contacts <- query_or (conditions request) ;;
    match matching_contacts with
    | [] => create_new_primary now request
    | first_match :: _ =>
        primary_contacts <-
          consolidate now (filter is_primary matching_contacts) ;;
        link_and_respond now request first_match primary_contacts
    end.

(** A request served on a table, with an empty log. *)
Definition open (table : list Contact) : Session :=
  {| rows := table; log := [] |}.

Definition commits (l : list Event) : list (list Contact) :=
  flat_map (fun e => match e with Commit t => [t] | Select => [] end) l.

Definition run_identify (now : Z) (request : IdentifyRequest)
  (table : list Contact) : Result ContactResponse * Session :=
  identify now request (open table).

Definition both (e p : string) : IdentifyRequest :=
  mkRequest (Some e) (Some p).

(** ** Table-level reading of the steps

    The same steps as functions of the table alone; the lemmas of the next
    part show that [identify] computes exactly these. *)

Definition ids (table : list Contact) : list Z := map id table.

Definition lookup (table : list Contact) (i : Z) : option Contact :=
  find (id_eq (Some i)) table.

Fixpoint resolve (fuel : nat) (table : list Contact) (contact_id : option Z)
  : Result (option Contact) :=
  match fuel with
  | O => Raise RecursionError
  | S fuel' =>
      match find (id_eq contact_id) table with
      | None => Ok None
      | Some contact =>
          if is_primary contact then Ok (Some contact)
          else resolve fuel' table (linkedId contact)
      end
  end.

Definition linked (table : list Contact) (primary_id : Z) : list Contact :=
  match lookup table primary_id with
  | None => []
  | Some pc =>
      if negb (is_primary pc) then []
      else pc :: filter (fun c => linked_to primary_id c && is_secondary c) table
  end.

Definition valid (request : IdentifyRequest) : bool :=
  truthy (request_email request) || truthy (request_phoneNumber request).

(** The rows of [matching_contacts], in the order of the query. *)
Definition matching (request : IdentifyRequest) (table : list Contact)
  : list Contact :=
  or_rows (fun _ => false) (conditions request) table.

Definition merging (pcs : list Contact) : bool := (1 <? length pcs)%nat.

Definition demote_if (now : Z) (oldest_id : Z) (targets : list Z)
  (c : Contact) : Contact :=
  if existsb (Z.eqb (id c)) targets then demote now oldest_id c else c.

Definition demote_in (now : Z) (oldest_id : Z) (targets : list Z)
  (table : list Contact) : list Contact :=
  map (demote_if now oldest_id targets) table.

(** The table after the consolidation step. *)
Definition merge_rows (now : Z) (pcs table : list Contact) : list Contact :=
  if merging pcs then
    match sort_by_createdAt pcs with
    | [] => table
    | oldest :: others => demote_in now (id oldest) (map id others) table
    end
  else table.

(** The list [primary_contacts] after the consolidation step. *)
Definition merge_primaries (now : Z) (pcs : list Contact) : list Contact :=
  if merging pcs then
    match sort_by_createdAt pcs with
    | [] => []
    | oldest :: others => oldest :: map (demote now (id oldest)) others
    end
  else pcs.

Definition working_primary (now : Z) (table : list Contact)
  (first_match : Contact) (pcs : list Contact) : Result (option Contact) :=
  match merge_primaries now pcs with
  | p :: _ => Ok (Some p)
  | [] => resolve recursion_depth table (linkedId first_match)
  end.

Definition novel (request : IdentifyRequest) (all : list Contact) : bool :=
  truthy_and_not_in (request_email request) (existing_emails all)
  || truthy_and_not_in (request_phoneNumber request) (existing_phones all).

Definition new_row (table : list Contact) (request : IdentifyRequest)
  (link : option Z) (precedence : LinkPrecedence) (now : Z) : Contact :=
  mkContact (next_id table) (request_phoneNumber request)
            (request_email request) link precedence now now None.

(** What a caller and the database see of a run: the answer, the final
    table, and the tables committed on the way. *)
Definition Outcome : Type :=
  (Result ContactResponse * list Contact * list (list Contact))%type.

Definition observe (x : Result ContactResponse * Session) : Outcome :=
  (fst x, rows (snd x), commits (log (snd x))).

Definition outcome (now : Z) (request : IdentifyRequest)
  (table : list Contact) : Outcome :=
  observe (run_identify now request table).

Definition matched_outcome (now : Z) (request : IdentifyRequest)
  (table : list Contact) (first_match : Contact) (pcs : list Contact)
  : Outcome :=
  let t1 := merge_rows now pcs table in
  let c1 := if merging pcs then [t1] else [] in
  match working_primary now table first_match pcs with
  | Raise e => (Raise e, t1, c1)
  | Ok None => (Raise AttributeError, t1, c1)
  | Ok (Some p) =>
      let all := linked t1 (id p) in
      if novel request all then
        let n := new_row t1 request (Some (id p)) secondary now in
        (Ok (respond p (all ++ [n])), t1 ++ [n], c1 ++ [t1 ++ [n]])
      else (Ok (respond p all), t1, c1)
  end.

(** [None] or the empty string. *)
Definition blank (s : option string) : bool :=
  match s with
  | None => true
  | Some v => String.eqb v EmptyString
  end.

(** *** What the schema guarantees of a table *)

Fixpoint distinct (l : list Z) : bool :=
  match l with
  | [] => true
  | x :: l' => negb (existsb (Z.eqb x) l') && distinct l'
  end.

(** [id] is the primary key. *)
Definition unique_ids (table : list Contact) : bool := distinct (ids table).

(** No row has [i] as its [linkedId]. *)
Definition unlinked (i : Z) (table : list Contact) : bool :=
  forallb (fun c => negb (linked_to i c)) table.

Definition is_none {A : Type} (o : option A) : bool :=
  match o with None => true | Some _ => false end.

(** Every [linkedId] is the id of a row of the table. *)
Definition links_resolve (table : list Contact) : bool :=
  forallb (fun c => match linkedId c with
                    | None => true
                    | Some j => existsb (Z.eqb j) (ids table)
                    end) table.

(** The two-level shape of the data model: a primary has no [linkedId], a
    secondary has one and it is the id of a primary. *)
Definition well_linked (table : list Contact) : bool :=
  forallb (fun c =>
             match linkPrecedence c with
             | primary => is_none (linkedId c)
             | secondary =>
                 match linkedId c with
                 | Some j => match lookup table j with
                             | Some p => is_primary p
                             | None => false
                             end
                 | None => false
                 end
             end) table.

(** No [linkedId] points to a row that itself has a [linkedId]. *)
Definition one_hop (table : list Contact) : bool :=
  forallb (fun c =>
             match linkedId c with
             | None => true
             | Some j => match lookup table j with
                         | Some p => is_none (linkedId p)
                         | None => true
                         end
             end) table.

(** Row [a] has a non-empty email or phone number that row [b] has too. *)
Definition shares (a b : Contact) : bool :=
  (truthy (email a) && col_eq_str (email a) (email b))
  || (truthy (phoneNumber a) && col_eq_str (phoneNumber a) (phoneNumber b)).

(** No two primaries carry the same non-empty email or the same non-empty
    phone number. *)
Definition primaries_apart (table : list Contact) : bool :=
  forallb (fun a =>
             forallb (fun b =>
                        negb (is_primary a && is_primary b
                              && negb (id a =? id b) && shares a b))
                     table)
          table.

(** What "the ultimate primary" of a record means, in the spec's words:
    [ultimate_primary table i n p] says that following [linkedId] from the
    record with id [i], through [n] secondaries, arrives at the primary
    [p]. *)
Inductive ultimate_primary (table : list Contact)
  : Z -> nat -> Contact -> Prop :=
| reached (i : Z) (p : Contact) :
    lookup table i = Some p ->
    is_primary p = true ->
    ultimate_primary table i O p
| hop (i j : Z) (c : Contact) (n : nat) (p : Contact) :
    lookup table i = Some c ->
    is_primary c = false ->
    linkedId c = Some j ->
    ultimate_primary table j n p ->
    ultimate_primary table i (S n) p.

(** *** Tables used as examples *)

Definition row (i : Z) (e p : string) (link : option Z)
  (precedence : LinkPrecedence) (t : Z) : Contact :=
  mkContact i (Some p) (Some e) link precedence t t None.

(** Two primaries that carry the same email. *)
Definition shared_email_table : list Contact :=
  [row 1 "a" "1" None primary 10; row 2 "a" "2" None primary 20].

(** Two separate identities, as two calls on an empty table leave them. *)
Definition two_identities : list Contact :=
  [row 1 "a" "1" None primary 10; row 2 "b" "2" None primary 20].

(** Two identities, each with one secondary. *)
Definition two_families : list Contact :=
  [row 1 "a" "1" None primary 10; row 2 "b" "2" None primary 20;
   row 3 "c" "1" (Some 1) secondary 30; row 4 "b" "9" (Some 2) secondary 40].

(** A secondary of a secondary: row 3 hangs off row 2, which was demoted. *)
Definition deep_chain : list Contact :=
  [row 1 "a" "1" None primary 10; row 2 "b" "2" (Some 1) secondary 20;
   row 3 "c" "3" (Some 2) secondary 30].

(** The table a call leaves. *)
Definition serve (table : list Contact) (call : Z * IdentifyRequest)
  : list Contact :=
  rows (snd (run_identify (fst call) (snd call) table)).

(** The table after the three calls [Identify(a, 1)], [Identify(b, 2)],
    [Identify(b, 3)] on an empty one. *)
Definition three_calls : list Contact :=
  [row 1 "a" "1" None primary 10; row 2 "b" "2" None primary 20;
   row 3 "b" "3" (Some 2) secondary 30].

(** *** Notions used for the helpers and for whole runs *)

(** Following [linkedId] from [contact_id] through [n] secondaries ends
    where there is nothing to read: at a NULL [linkedId] or at an id that
    no row has. *)
Inductive dead_end (table : list Contact) : option Z -> nat -> Prop :=
| dead_null : dead_end table None O
| dead_missing (i : Z) :
    lookup table i = None -> dead_end table (Some i) O
| dead_hop (i : Z) (c : Contact) (n : nat) :
    lookup table i = Some c ->
    is_primary c = false ->
    dead_end table (linkedId c) n ->
    dead_end table (Some i) (S n).

(** Following [linkedId] from [contact_id] meets at least [n] secondaries
    one after the other. *)
Inductive secondaries_ahead (table : list Contact) : option Z -> nat -> Prop :=
| ahead_none (contact_id : option Z) : secondaries_ahead table contact_id O
| ahead_hop (i : Z) (c : Contact) (n : nat) :
    lookup table i = Some c ->
    is_primary c = false ->
    secondaries_ahead table (linkedId c) n ->
    secondaries_ahead table (Some i) (S n).

(** The columns no statement of the source assigns after the insert. *)
Definition identity_of (c : Contact)
  : Z * option string * option string * Z * option Z :=
  (id c, email c, phoneNumber c, createdAt c, deletedAt c).

(** The columns other than the three timestamps. *)
Definition shown (c : Contact)
  : Z * option string * option string * option Z * LinkPrecedence :=
  (id c, email c, phoneNumber c, linkedId c, linkPrecedence c).

(** Every secondary leads, by its [linkedId]s, to a primary. *)
Definition chains_end (table : list Contact) : Prop :=
  forall c, In c table -> is_primary c = false ->
  exists i n p, linkedId c = Some i /\ ultimate_primary table i n p.

(** What every row written by the source looks like: a primary has no
    [linkedId] and a secondary has one, one of email and phoneNumber is a
    non-empty string, and [deletedAt] is NULL. *)
Definition row_shape (c : Contact) : Prop :=
  (is_primary c = true <-> linkedId c = None)
  /\ truthy (email c) || truthy (phoneNumber c) = true
  /\ deletedAt c = None.

(** The ids are 1, 2, ..., in table order. *)
Definition consecutive_ids (table : list Contact) : Prop :=
  ids table = map Z.of_nat (seq 1 (length table)).

(** The table built from the empty one by a sequence of calls. *)
Definition built (calls : list (Z * IdentifyRequest)) : list Contact :=
  fold_left serve calls [].

(** Two secondaries linked to each other. *)
Definition looping_table : list Contact :=
  [row 1 "x" "1" (Some 2) secondary 10; row 2 "y" "2" (Some 1) secondary 20].

(** A secondary whose [linkedId] names no row. *)
Definition orphan_table : list Contact :=
  [row 1 "x" "9" (Some 7) secondary 10].

(** Three primaries, the first two created at the same instant. *)
Definition tied_primaries : list Contact :=
  [row 1 "a" "1" None primary 10; row 2 "a" "2" None primary 10;
   row 3 "a" "3" None primary 5].

(** Two identities, each with one secondary, as the calls [Identify(a, 1)],
    [Identify(b, 2)], [Identify(a, 9)], [Identify(e, 2)] leave them: the
    row with the phone number 9 comes before the row with the email e. *)
Definition crossed_families : list Contact :=
  [row 1 "a" "1" None primary 10; row 2 "b" "2" None primary 20;
   row 3 "a" "9" (Some 1) secondary 30; row 4 "e" "2" (Some 2) secondary 40].

(** The same after the further call [Identify(b, 9)]. *)
Definition five_calls : list Contact :=
  crossed_families ++ [row 5 "b" "9" (Some 2) secondary 50].

(** Two primaries created at the same instant. *)
Definition tied_pair : list Contact :=
  [row 1 "a" "1" None primary 10; row 2 "b" "2" None primary 10].

(** [n] secondaries under the ids [i], [i + 1], ..., each linked to the
    id before its own. *)
Fixpoint chain_rows (n : nat) (i : Z) : list Contact :=
  match n with
  | O => []
  | S n' => row i "s" "0" (Some (i - 1)) secondary i :: chain_rows n' (i + 1)
  end.

(** A primary, then [n] secondaries each linked to the row before it, then
    one more such secondary that alone has the email z. *)
Definition long_chain (n : nat) : list Contact :=
  row 1 "p" "0" None primary 1
  :: chain_rows n 2
  ++ [row (Z.of_nat n + 2) "z" "0" (Some (Z.of_nat n + 1)) secondary
          (Z.of_nat n + 2)].

(** The recursion limit of CPython as installed,
    [sys.getrecursionlimit()]; the nested calls it leaves to
    [find_primary_contact] are fewer. *)
Definition default_recursion_limit : nat := 1000.

(** The answer to [Identify(a, 2)] after the three calls. *)
Definition merged_answer : ContactResponse :=
  mkResponse 1 ["a"%string; "b"%string] ["1"%string; "2"%string] [2].

(** ** The monadic code computes the table-level steps *)

Lemma commits_app (l l' : list Event) :
  commits (l ++ l') = commits l ++ commits l'.
Proof. unfold commits. apply flat_map_app. Qed.

Lemma commits_selects (n : nat) : commits (repeat Select n) = [].
Proof. induction n; simpl; auto. Qed.

(** ** The rows of the matching query

    The order of [or_rows] is that of the query; as a set of rows it is the
    filter by [matches]. *)

Lemma filter_of_map (f : Contact -> bool) (g : Contact -> Contact)
  (l : list Contact) :
  filter f (map g l) = map g (filter (fun c => f (g c)) l).
Proof.
  induction l as [|x l IH]; simpl; auto.
  destruct (f (g x)); simpl; now rewrite IH.
Qed.

Lemma NoDup_map_filter (f : Contact -> bool) (table : list Contact) :
  NoDup (map id table) -> NoDup (map id (filter f table)).
Proof.
  induction table as [|x table IH]; simpl; auto.
  intros H. inversion H as [|? ? Hn Hd]; subst.
  destruct (f x); simpl; auto. constructor; auto.
  intros Hin. apply Hn. apply in_map_iff in Hin as [c [Hc Hin]].
  apply filter_In in Hin as [Hin _]. rewrite <- Hc. now apply in_map.
Qed.

Lemma filter_split_perm (P T : Contact -> bool) (l : list Contact) :
  Permutation (filter (fun c => P c && T c) l
               ++ filter (fun c => P c && negb (T c)) l)
              (filter P l).
Proof.
  induction l as [|x l IH]; [constructor|]. cbn [filter].
  destruct (P x), (T x); cbn [andb negb app]; auto.
  apply Permutation_sym, Permutation_cons_app, Permutation_sym, IH.
Qed.

Lemma or_rows_perm (conds : list (Contact -> bool)) (table : list Contact) :
  forall seen,
  Permutation (or_rows seen conds table)
    (filter (fun r => negb (seen r) && existsb (fun c => c r) conds) table).
Proof.
  induction conds as [|c conds IH]; intros seen; cbn [or_rows existsb].
  - replace (filter (fun r => negb (seen r) && false) table) with (@nil Contact);
      [constructor|].
    symmetry. induction table as [|x t IHt]; [reflexivity|].
    cbn [filter]. now rewrite andb_false_r.
  - eapply Permutation_trans;
      [|apply (filter_split_perm
                 (fun r => negb (seen r) && (c r || existsb (fun c => c r) conds))
                 c)].
    apply Permutation_app.
    + erewrite filter_ext; [apply Permutation_refl|].
      intros r. cbv beta.
      destruct (c r), (seen r), (existsb (fun c0 => c0 r) conds); reflexivity.
    + eapply Permutation_trans; [apply IH|].
      erewrite filter_ext; [apply Permutation_refl|].
      intros r. cbv beta.
      destruct (c r), (seen r), (existsb (fun c0 => c0 r) conds); reflexivity.
Qed.

Lemma matching_perm (request : IdentifyRequest) (table : list Contact) :
  Permutation (matching request table) (filter (matches request) table).
Proof. apply (or_rows_perm (conditions request) table (fun _ => false)). Qed.

Lemma matching_In (request : IdentifyRequest) (table : list Contact)
  (c : Contact) :
  In c (matching request table) <-> In c table /\ matches request c = true.
Proof.
  rewrite <- filter_In. split; apply Permutation_in;
    [|apply Permutation_sym]; apply matching_perm.
Qed.

Lemma matching_NoDup (request : IdentifyRequest) (table : list Contact) :
  NoDup (map id table) -> NoDup (map id (matching request table)).
Proof.
  intros H. eapply Permutation_NoDup.
  - apply Permutation_sym, Permutation_map, matching_perm.
  - now apply NoDup_map_filter.
Qed.

Lemma or_rows_map (g : Contact -> Contact) (conds : list (Contact -> bool))
  (table : list Contact) :
  (forall c r, In c conds -> c (g r) = c r) ->
  forall seen, (forall r, seen (g r) = seen r) ->
  or_rows seen conds (map g table) = map g (or_rows seen conds table).
Proof.
  induction conds as [|c conds IH]; intros Hc seen Hs; [reflexivity|].
  cbn [or_rows]. rewrite map_app, filter_of_map. f_equal.
  - f_equal. apply filter_ext. intros r.
    now rewrite Hs, (Hc c r (or_introl eq_refl)).
  - apply IH.
    + intros c' r Hin. apply Hc. now right.
    + intros r. now rewrite Hs, (Hc c r (or_introl eq_refl)).
Qed.

(** A row that fails a test changes nothing in what passes it. *)
Lemma or_rows_filter_snoc (P : Contact -> bool) (n : Contact)
  (conds : list (Contact -> bool)) (table : list Contact) :
  P n = false ->
  forall seen,
  filter P (or_rows seen conds (table ++ [n]))
  = filter P (or_rows seen conds table).
Proof.
  intros Hn. induction conds as [|c conds IH]; intros seen; [reflexivity|].
  cbn [or_rows]. rewrite !filter_app, IH. f_equal.
  cbn [filter]. destruct (c n && negb (seen n)); cbn [filter];
    rewrite ?Hn; apply app_nil_r.
Qed.

Lemma or_rows_single (n : Contact) (conds : list (Contact -> bool)) :
  forall seen,
  or_rows seen conds [n]
  = if negb (seen n) && existsb (fun c => c n) conds then [n] else [].
Proof.
  induction conds as [|c conds IH]; intros seen; cbn [or_rows existsb].
  - now rewrite andb_false_r.
  - rewrite IH. cbn [filter].
    destruct (c n), (seen n); cbn [andb negb orb app]; reflexivity.
Qed.

(** Rows that no test selects can be dropped from the front. *)
Lemma or_rows_unmatched (conds : list (Contact -> bool))
  (a b : list Contact) :
  (forall r, In r a -> existsb (fun c => c r) conds = false) ->
  forall seen, or_rows seen conds (a ++ b) = or_rows seen conds b.
Proof.
  induction conds as [|c conds IH]; intros Ha seen; [reflexivity|].
  cbn [or_rows]. rewrite filter_app, IH.
  - replace (filter (fun r => c r && negb (seen r)) a) with (@nil Contact);
      [reflexivity|].
    symmetry. clear IH. induction a as [|x a IHa]; [reflexivity|].
    cbn [filter]. pose proof (Ha x (or_introl eq_refl)) as Hx.
    cbn [existsb] in Hx. apply orb_false_iff in Hx as [-> _]. cbn [andb].
    apply IHa. intros r Hr. apply Ha. now right.
  - intros r Hr. specialize (Ha r Hr). cbn [existsb] in Ha.
    now apply orb_false_iff in Ha.
Qed.

(** With one more row at the end of the table, the first row of the query
    is the one it was, or the new row. *)
Lemma or_rows_head_snoc (n : Contact) (conds : list (Contact -> bool))
  (table : list Contact) :
  forall seen m0 rest,
  or_rows seen conds (table ++ [n]) = m0 :: rest ->
  m0 = n \/ exists rest', or_rows seen conds table = m0 :: rest'.
Proof.
  induction conds as [|c conds IH]; intros seen m0 rest; cbn [or_rows];
    [discriminate|].
  rewrite filter_app.
  destruct (filter (fun r => c r && negb (seen r)) table) as [|x xs].
  - cbn [app filter]. destruct (c n && negb (seen n)).
    + intros H. left. now injection H.
    + cbn [app]. apply IH.
  - cbn [app]. intros H. injection H as -> _. right. eexists. reflexivity.
Qed.

Lemma find_primary_contact_run (fuel : nat) :
  forall (contact_id : option Z) (s : Session),
  exists n,
    find_primary_contact fuel contact_id s
    = (resolve fuel (rows s) contact_id,
       mkSession (rows s) (log s ++ repeat Select n)).
Proof.
  induction fuel as [|fuel IH]; intros contact_id s.
  - exists O. simpl. unfold raise. rewrite app_nil_r. now destruct s.
  - simpl. unfold bind, query_first.
    destruct (find (id_eq contact_id) (rows s)) as [c|] eqn:Hf.
    + destruct (is_primary c).
      * exists 1%nat. reflexivity.
      * destruct (IH (linkedId c) (emit Select s)) as [n Hn].
        exists (S n). rewrite Hn. simpl. now rewrite <- app_assoc.
    + exists 1%nat. reflexivity.
Qed.

Lemma get_all_linked_contacts_run (primary_id : Z) (s : Session) :
  exists n,
    get_all_linked_contacts primary_id s
    = (Ok (linked (rows s) primary_id),
       mkSession (rows s) (log s ++ repeat Select n)).
Proof.
  unfold get_all_linked_contacts, linked, lookup, bind, query_first.
  destruct (find (id_eq (Some primary_id)) (rows s)) as [c|].
  - destruct (negb (is_primary c)).
    + exists 1%nat. reflexivity.
    + exists 2%nat. unfold query_all, ret, emit. cbn [rows log repeat].
      now rewrite <- app_assoc.
  - exists 1%nat. reflexivity.
Qed.

Lemma sort_by_createdAt_length (l : list Contact) :
  length (sort_by_createdAt l) = length l.
Proof.
  induction l as [|x l IH]; simpl; auto.
  rewrite <- IH. generalize (sort_by_createdAt l) as k.
  induction k as [|y k IHk]; simpl; auto.
  destruct (createdAt x <=? createdAt y); simpl; auto.
Qed.

Lemma sort_by_createdAt_nil (l : list Contact) :
  sort_by_createdAt l = [] -> l = [].
Proof.
  intros H. apply length_zero_iff_nil.
  now rewrite <- sort_by_createdAt_length, H.
Qed.

Lemma consolidate_run (now : Z) (pcs : list Contact) (s : Session) :
  consolidate now pcs s
  = (Ok (merge_primaries now pcs),
     mkSession (merge_rows now pcs (rows s))
               (log s ++ if merging pcs
                         then [Commit (merge_rows now pcs (rows s))] else [])).
Proof.
  unfold consolidate, merge_primaries, merge_rows.
  destruct (merging pcs) eqn:Hg; unfold merging in Hg; rewrite Hg.
  - destruct (sort_by_createdAt pcs) as [|o others] eqn:Hs.
    + apply sort_by_createdAt_nil in Hs. subst pcs. discriminate.
    + reflexivity.
  - unfold ret. rewrite app_nil_r. now destruct s.
Qed.

Lemma link_and_respond_run (now : Z) (request : IdentifyRequest)
  (m0 : Contact) (pl : list Contact) (s : Session) :
  observe (link_and_respond now request m0 pl s)
  = match
      match pl with
      | p :: _ => Ok (Some p)
      | [] => resolve recursion_depth (rows s) (linkedId m0)
      end
    with
    | Raise e => (Raise e, rows s, commits (log s))
    | Ok None => (Raise AttributeError, rows s, commits (log s))
    | Ok (Some p) =>
        let all := linked (rows s) (id p) in
        if novel request all then
          let n := new_row (rows s) request (Some (id p)) secondary now in
          (Ok (respond p (all ++ [n])), rows s ++ [n],
           commits (log s) ++ [rows s ++ [n]])
        else (Ok (respond p all), rows s, commits (log s))
    end.
Proof.
  unfold link_and_respond.
  assert (Htail : forall p s1, rows s1 = rows s ->
            commits (log s1) = commits (log s) ->
            observe
              ((all_linked_contacts <- get_all_linked_contacts (id p) ;;
                all_linked_contacts <-
                  (if truthy_and_not_in (request_email request)
                                        (existing_emails all_linked_contacts)
                      || truthy_and_not_in (request_phoneNumber request)
                                     (existing_phones all_linked_contacts)
                   then
                     new_secondary <-
                       add (mkContact 0 (request_phoneNumber request)
                              (request_email request) (Some (id p))
                              secondary now now None) ;;
                     commit ;;;
                     ret (all_linked_contacts ++ [new_secondary])
                   else ret all_linked_contacts) ;;
                ret (respond p all_linked_contacts)) s1)
            = let all := linked (rows s) (id p) in
              if novel request all then
                let n := new_row (rows s) request (Some (id p)) secondary now in
                (Ok (respond p (all ++ [n])), rows s ++ [n],
                 commits (log s) ++ [rows s ++ [n]])
              else (Ok (respond p all), rows s, commits (log s))).
  { intros p s1 Hr Hc. unfold bind at 1.
    destruct (get_all_linked_contacts_run (id p) s1) as [n ->].
    rewrite Hr. cbv zeta. unfold novel.
    destruct (truthy_and_not_in (request_email request)
                (existing_emails (linked (rows s) (id p)))
              || truthy_and_not_in (request_phoneNumber request)
                   (existing_phones (linked (rows s) (id p)))).
    - unfold bind, add, commit, ret, emit, observe, new_row. cbn.
      rewrite !commits_app, commits_selects, Hc. cbn.
      now rewrite app_nil_r.
    - unfold bind, ret, observe. cbn.
      now rewrite commits_app, commits_selects, Hc, app_nil_r. }
  destruct pl as [|p pl'].
  - unfold bind at 1.
    destruct (find_primary_contact_run recursion_depth (linkedId m0) s)
      as [n ->].
    destruct (resolve recursion_depth (rows s) (linkedId m0))
      as [[p|]|e].
    + apply Htail; cbn; auto.
      now rewrite commits_app, commits_selects, app_nil_r.
    + unfold raise, observe. cbn.
      now rewrite commits_app, commits_selects, app_nil_r.
    + unfold observe. cbn.
      now rewrite commits_app, commits_selects, app_nil_r.
  - unfold bind at 1. unfold ret at 1. apply Htail; auto.
Qed.

Theorem outcome_matched (now : Z) (request : IdentifyRequest)
  (table : list Contact) (m0 : Contact) (rest : list Contact) :
  valid request = true ->
  matching request table = m0 :: rest ->
  outcome now request table
  = matched_outcome now request table m0 (filter is_primary (m0 :: rest)).
Proof.
  intros Hv Hm.
  unfold outcome, run_identify, identify, valid in *.
  replace (negb (truthy (request_email request))
           && negb (truthy (request_phoneNumber request))) with false
    by (rewrite <- negb_orb, Hv; reflexivity).
  unfold bind at 1. unfold query_or at 1. cbn [rows open].
  fold (matching request table). rewrite Hm.
  set (pcs := filter is_primary (m0 :: rest)).
  unfold bind at 1. rewrite consolidate_run.
  rewrite link_and_respond_run. cbn [rows log emit open].
  unfold matched_outcome, working_primary.
  assert (Hc : commits (([] ++ [Select]) ++
                 (if merging pcs then [Commit (merge_rows now pcs table)]
                  else []))
               = if merging pcs then [merge_rows now pcs table] else []).
  { destruct (merging pcs); reflexivity. }
  rewrite Hc.
  destruct (merge_primaries now pcs) as [|p pl] eqn:Hp; [|reflexivity].
  assert (Ht : merge_rows now pcs table = table).
  { unfold merge_rows, merge_primaries in *.
    destruct (merging pcs); [|reflexivity].
    destruct (sort_by_createdAt pcs); [reflexivity|discriminate]. }
  now rewrite Ht.
Qed.

(** ** Requests without a usable field *)

Lemma blank_not_truthy (s : option string) : blank s = true -> truthy s = false.
Proof. destruct s as [v|]; simpl; [intros ->|]; reflexivity. Qed.

(** C6: a request with neither email nor phoneNumber is answered with the
    400 error (InvalidRequest) and leaves the session exactly as it was:
    the table is the same and nothing, not even a SELECT, has been added to
    the statement log. *)
Theorem identify_absent_fields_invalid_request (now : Z) (s : Session) :
  identify now (mkRequest None None) s = (Raise InvalidRequest, s)
  /\ rows (snd (identify now (mkRequest None None) s)) = rows s
  /\ log (snd (identify now (mkRequest None None) s)) = log s.
Proof. repeat split. Qed.

(** A row is matched through a field of the request that is a non-empty
    string. *)
Lemma matches_on_field (request : IdentifyRequest) (c : Contact) :
  matches request c = true ->
  (truthy (request_email request) = true
   /\ email c = request_email request)
  \/ (truthy (request_phoneNumber request) = true
      /\ phoneNumber c = request_phoneNumber request).
Proof.
  assert (Hcol : forall col v, col_eq_str col v = true -> col = v).
  { intros [x|] [y|]; simpl; try discriminate.
    intros H. apply String.eqb_eq in H. now subst. }
  unfold matches, conditions.
  destruct (truthy (request_email request)) eqn:He,
           (truthy (request_phoneNumber request)) eqn:Hp; cbn;
    rewrite ?orb_false_r; intros H; try discriminate.
  - apply orb_prop in H. destruct H as [H|H]; [left|right]; auto.
  - left. auto.
  - right. auto.
Qed.

(** C9: empty strings count as absent.  A request whose two fields are each
    [None] or the empty string gets the same 400 error, with the session
    untouched, as the request with both fields absent; an empty-string field
    adds no clause to the match query; and whenever a row matches a request
    it does so on a field of the request that is a non-empty string. *)
Theorem empty_string_treated_as_absent :
  (forall now e p s,
     blank e = true -> blank p = true ->
     identify now (mkRequest e p) s = identify now (mkRequest None None) s
     /\ identify now (mkRequest e p) s = (Raise InvalidRequest, s))
  /\ (forall p, conditions (mkRequest (Some EmptyString) p)
               = conditions (mkRequest None p))
  /\ (forall e, length (conditions (mkRequest e (Some EmptyString)))
               = length (conditions (mkRequest e None)))
  /\ (forall e p table,
        matching (mkRequest (Some EmptyString) p) table
        = matching (mkRequest None p) table
        /\ matching (mkRequest e (Some EmptyString)) table
          = matching (mkRequest e None) table)
  /\ (forall request c,
        matches request c = true ->
        (truthy (request_email request) = true
         /\ email c = request_email request)
        \/ (truthy (request_phoneNumber request) = true
            /\ phoneNumber c = request_phoneNumber request)).
Proof.
  split; [|split; [|split; [|split]]].
  - intros now e p s He Hp. unfold identify.
    cbn [request_email request_phoneNumber].
    rewrite (blank_not_truthy _ He), (blank_not_truthy _ Hp). split; reflexivity.
  - intros p. reflexivity.
  - intros e. unfold conditions. cbn. now rewrite !app_nil_r.
  - intros e p table. split.
    + reflexivity.
    + unfold matching, conditions. cbn. reflexivity.
  - apply matches_on_field.
Qed.

(** ** A request that matches nothing *)

Lemma next_id_above (table : list Contact) (c : Contact) :
  In c table -> id c < next_id table.
Proof.
  unfold next_id. induction table as [|x table IH]; cbn [fold_right In];
    [easy|].
  intros [->|H]; [|specialize (IH H)]; lia.
Qed.

Lemma next_id_fresh (table : list Contact) : ~ In (next_id table) (ids table).
Proof.
  unfold ids. rewrite in_map_iff. intros [c [Hc Hin]].
  apply next_id_above in Hin. lia.
Qed.

(** C5: when no row matches a valid request (in particular on an empty
    table), [identify] appends exactly one row, a primary with no
    [linkedId] carrying the request's email and phoneNumber under a fresh
    id, commits it, and answers with that row alone: its id, its email and
    phone number where they are non-empty, and no secondary ids. *)
Theorem identify_no_match_creates_primary (now : Z) (request : IdentifyRequest)
  (table : list Contact) :
  valid request = true ->
  matching request table = [] ->
  let new_contact := new_row table request None primary now in
  run_identify now request table
  = (Ok {| primaryContactId := next_id table;
           emails := if_truthy (request_email request);
           phoneNumbers := if_truthy (request_phoneNumber request);
           secondaryContactIds := [] |},
     {| rows := table ++ [new_contact];
        log := [Select; Commit (table ++ [new_contact])] |})
  /\ ~ In (id new_contact) (ids table)
  /\ linkPrecedence new_contact = primary
  /\ linkedId new_contact = None
  /\ email new_contact = request_email request
  /\ phoneNumber new_contact = request_phoneNumber request
  /\ (forall e p,
        request = both e p -> e <> EmptyString -> p <> EmptyString ->
        if_truthy (request_email request) = [e]
        /\ if_truthy (request_phoneNumber request) = [p]).
Proof.
  intros Hv Hm new_contact.
  split; [|split; [|split; [|split; [|split; [|split]]]]];
    try reflexivity.
  - unfold run_identify, identify, valid in *.
    replace (negb (truthy (request_email request))
             && negb (truthy (request_phoneNumber request))) with false
      by (rewrite <- negb_orb, Hv; reflexivity).
    unfold bind at 1. unfold query_or at 1. cbn [rows open].
    fold (matching request table). rewrite Hm. reflexivity.
  - apply next_id_fresh.
  - intros e p -> He Hp. cbn.
    destruct (String.eqb_spec e EmptyString); [contradiction|].
    destruct (String.eqb_spec p EmptyString); [contradiction|].
    split; reflexivity.
Qed.

(** ** The outcome in each case *)

Lemma outcome_invalid (now : Z) (request : IdentifyRequest)
  (table : list Contact) :
  valid request = false ->
  outcome now request table = (Raise InvalidRequest, table, []).
Proof.
  intros Hv. unfold outcome, run_identify, identify, valid in *.
  rewrite <- negb_orb, Hv. reflexivity.
Qed.

Lemma outcome_no_match (now : Z) (request : IdentifyRequest)
  (table : list Contact) :
  valid request = true ->
  matching request table = [] ->
  outcome now request table
  = (Ok {| primaryContactId := next_id table;
           emails := if_truthy (request_email request);
           phoneNumbers := if_truthy (request_phoneNumber request);
           secondaryContactIds := [] |},
     table ++ [new_row table request None primary now],
     [table ++ [new_row table request None primary now]]).
Proof.
  intros Hv Hm. unfold outcome, run_identify, identify, valid in *.
  replace (negb (truthy (request_email request))
           && negb (truthy (request_phoneNumber request))) with false
    by (rewrite <- negb_orb, Hv; reflexivity).
  unfold bind at 1. unfold query_or at 1. cbn [rows open].
  fold (matching request table). rewrite Hm. reflexivity.
Qed.

Lemma matching_invalid (request : IdentifyRequest) (table : list Contact) :
  valid request = false -> matching request table = [].
Proof.
  unfold valid. intros Hv. apply orb_false_elim in Hv as [He Hp].
  unfold matching, matches, conditions. rewrite He, Hp. cbn.
  induction table; auto.
Qed.

Lemma merge_rows_not_merging (now : Z) (pcs table : list Contact) :
  merging pcs = false -> merge_rows now pcs table = table.
Proof. unfold merge_rows. now intros ->. Qed.

Lemma merge_rows_length (now : Z) (pcs table : list Contact) :
  length (merge_rows now pcs table) = length table.
Proof.
  unfold merge_rows, demote_in. destruct (merging pcs); auto.
  destruct (sort_by_createdAt pcs); auto. apply length_map.
Qed.

(** The rows a run leaves are the table after the consolidation step,
    followed by at most one new row; the only commits are one for the
    consolidation, when it happens, and one for the new row, when there is
    one. *)
Lemma outcome_shape (now : Z) (request : IdentifyRequest)
  (table : list Contact) :
  let pcs := filter is_primary (matching request table) in
  let t1 := merge_rows now pcs table in
  exists created : list Contact,
    (length created <= 1)%nat
    /\ snd (fst (outcome now request table)) = t1 ++ created
    /\ snd (outcome now request table)
       = (if merging pcs then [t1] else [])
         ++ match created with [] => [] | _ :: _ => [t1 ++ created] end
    /\ Forall (fun n => id n = next_id t1
                        /\ email n = request_email request
                        /\ phoneNumber n = request_phoneNumber request
                        /\ createdAt n = now /\ updatedAt n = now) created.
Proof.
  intros pcs t1.
  destruct (valid request) eqn:Hv.
  - destruct (matching request table) as [|m0 rest] eqn:Hm.
    + rewrite (outcome_no_match _ _ _ Hv Hm).
      exists [new_row table request None primary now].
      subst pcs t1. cbn. repeat (split || constructor); auto.
    + rewrite (outcome_matched _ _ _ _ _ Hv Hm).
      fold pcs. unfold matched_outcome. fold t1.
      destruct (working_primary now table m0 pcs) as [[p|]|e].
      * cbv zeta. destruct (novel request (linked t1 (id p))).
        -- exists [new_row t1 request (Some (id p)) secondary now]. cbn.
           repeat (split || constructor); auto.
        -- exists []. cbn. rewrite !app_nil_r. repeat (split || constructor); auto.
      * exists []. cbn. rewrite !app_nil_r. repeat (split || constructor); auto.
      * exists []. cbn. rewrite !app_nil_r. repeat (split || constructor); auto.
  - rewrite (outcome_invalid _ _ _ Hv). exists []. subst pcs t1.
    rewrite (matching_invalid _ table Hv). cbn. rewrite app_nil_r.
    repeat (split || constructor); auto.
Qed.

(** ** The novelty check *)

Lemma existsb_eqb_In (v : string) (xs : list string) :
  existsb (String.eqb v) xs = true <-> In v xs.
Proof.
  rewrite existsb_exists. split.
  - intros [x [Hx He]]. apply String.eqb_eq in He. now subst.
  - intros H. exists v. split; auto. apply String.eqb_refl.
Qed.

Lemma truthy_and_not_in_spec (s : option string) (xs : list string) :
  truthy_and_not_in s xs = true
  <-> exists v, s = Some v /\ v <> EmptyString /\ ~ In v xs.
Proof.
  unfold truthy_and_not_in, truthy. destruct s as [v|].
  - rewrite andb_true_iff, !negb_true_iff. split.
    + intros [Hne Hn]. exists v. repeat split.
      * intros ->. discriminate.
      * rewrite <- existsb_eqb_In. now rewrite Hn.
    + intros [w [[= <-] [Hne Hn]]]. split.
      * now apply String.eqb_neq.
      * rewrite <- existsb_eqb_In in Hn. now destruct (existsb _ xs).
  - split; [discriminate|]. intros [v [[=] _]].
Qed.

Lemma novel_spec (request : IdentifyRequest) (graph : list Contact) :
  novel request graph = true
  <-> (exists v, request_email request = Some v /\ v <> EmptyString
                 /\ ~ In v (existing_emails graph))
      \/ (exists v, request_phoneNumber request = Some v /\ v <> EmptyString
                    /\ ~ In v (existing_phones graph)).
Proof.
  unfold novel. rewrite orb_true_iff, !truthy_and_not_in_spec. reflexivity.
Qed.

(** C4, as the code has it: when a valid request matches at least one row
    and the working primary [p] is found (the oldest matched primary, or
    else the primary that the first row of the query leads to), a row is
    created exactly when the
    request's email is a non-empty string missing from the emails of [p]'s
    graph, or its phoneNumber is a non-empty string missing from the
    graph's phone numbers, the graph being read after the consolidation
    step.  The row created is one secondary with the request's email and
    phoneNumber and [linkedId = id p], appended to the table; otherwise the
    table is left as the consolidation step left it, which is the table
    itself when at most one matched row is primary. *)
Theorem novelty_check_decides_creation (now : Z) (request : IdentifyRequest)
  (table : list Contact) (m0 : Contact) (rest : list Contact) (p : Contact) :
  valid request = true ->
  matching request table = m0 :: rest ->
  working_primary now table m0 (filter is_primary (m0 :: rest))
  = Ok (Some p) ->
  let pcs := filter is_primary (m0 :: rest) in
  let t1 := merge_rows now pcs table in
  let graph := linked t1 (id p) in
  let n := new_row t1 request (Some (id p)) secondary now in
  (novel request graph = true
   <-> (exists v, request_email request = Some v /\ v <> EmptyString
                  /\ ~ In v (existing_emails graph))
       \/ (exists v, request_phoneNumber request = Some v
                     /\ v <> EmptyString
                     /\ ~ In v (existing_phones graph)))
  /\ (novel request graph = true ->
      fst (outcome now request table) = (Ok (respond p (graph ++ [n])), t1 ++ [n])
      /\ linkPrecedence n = secondary
      /\ linkedId n = Some (id p)
      /\ email n = request_email request
      /\ phoneNumber n = request_phoneNumber request
      /\ ~ In (id n) (ids t1))
  /\ (novel request graph = false ->
      fst (outcome now request table) = (Ok (respond p graph), t1))
  /\ (merging pcs = false -> t1 = table)
  /\ length t1 = length table.
Proof.
  intros Hv Hm Hp pcs t1 graph n.
  split; [apply novel_spec|].
  rewrite (outcome_matched _ _ _ _ _ Hv Hm). unfold matched_outcome.
  fold pcs. fold pcs in Hp. rewrite Hp. cbv zeta. fold t1 graph n.
  split; [|split; [|split]].
  - intros ->. repeat split. apply next_id_fresh.
  - intros ->. reflexivity.
  - apply merge_rows_not_merging.
  - apply merge_rows_length.
Qed.

(** ** Following links to the primary *)

Lemma lookup_some (table : list Contact) (i : Z) (c : Contact) :
  lookup table i = Some c -> In c table /\ id c = i.
Proof.
  unfold lookup. intros H. apply find_some in H as [Hin He].
  split; auto. now apply Z.eqb_eq in He.
Qed.

Lemma lookup_in_ids (table : list Contact) (i : Z) (c : Contact) :
  lookup table i = Some c -> In i (ids table).
Proof.
  intros H. apply lookup_some in H as [Hin <-]. now apply in_map.
Qed.

Lemma resolve_more_fuel (table : list Contact) (n : nat) :
  forall (m : nat) (cid : option Z) (r : option Contact),
  resolve n table cid = Ok r -> (n <= m)%nat -> resolve m table cid = Ok r.
Proof.
  induction n as [|n IH]; intros m cid r H Hle; [discriminate|].
  destruct m as [|m]; [lia|]. simpl in *.
  destruct (find (id_eq cid) table) as [c|]; auto.
  destruct (is_primary c); auto. apply IH; auto. lia.
Qed.

Lemma find_id_eq_None (table : list Contact) : find (id_eq None) table = None.
Proof. induction table; auto. Qed.

Lemma resolve_null (fuel : nat) (table : list Contact) :
  resolve (S fuel) table None = Ok None.
Proof. simpl. now rewrite find_id_eq_None. Qed.

Lemma ultimate_primary_resolve (table : list Contact) (i : Z) (n : nat)
  (p : Contact) :
  ultimate_primary table i n p -> resolve (S n) table (Some i) = Ok (Some p).
Proof.
  induction 1 as [i p Hl Hp | i j c n p Hl Hc Hj _ IH].
  - simpl. unfold lookup in Hl. now rewrite Hl, Hp.
  - cbn [resolve]. unfold lookup in Hl. rewrite Hl, Hc, Hj. exact IH.
Qed.

(** A chain of [n] secondaries before the primary takes [n + 1] nested
    calls. *)
Lemma ultimate_primary_found (table : list Contact) (i : Z) (n : nat)
  (p : Contact) (fuel : nat) :
  ultimate_primary table i n p -> (n < fuel)%nat ->
  resolve fuel table (Some i) = Ok (Some p).
Proof.
  intros H Hlt. apply (resolve_more_fuel _ (S n)); [|lia].
  now apply ultimate_primary_resolve.
Qed.

Lemma resolve_ultimate (table : list Contact) (fuel : nat) :
  forall (cid : option Z) (p : Contact),
  resolve fuel table cid = Ok (Some p) ->
  exists i n, cid = Some i /\ (n < fuel)%nat /\ ultimate_primary table i n p.
Proof.
  induction fuel as [|fuel IH]; intros cid p H; [discriminate|].
  destruct cid as [i|]; [|rewrite resolve_null in H; discriminate].
  simpl in H. destruct (find (id_eq (Some i)) table) as [c|] eqn:Hf;
    [|discriminate].
  destruct (is_primary c) eqn:Hp.
  - injection H as <-. exists i, O. repeat split; [lia|]. now constructor.
  - destruct (IH _ p H) as [j [n [Hj [Hlt Hn]]]].
    exists i, (S n). repeat split; [lia|]. econstructor; eauto.
Qed.

Lemma ultimate_primary_hops_unique (table : list Contact) (i : Z) (n : nat)
  (p : Contact) :
  ultimate_primary table i n p ->
  forall m q, ultimate_primary table i m q -> m = n.
Proof.
  induction 1 as [i p Hl Hp | i j c n p Hl Hc Hj _ IH]; intros m q Hq.
  - inversion Hq; subst; auto. congruence.
  - inversion Hq; subst; [congruence|].
    f_equal. apply (IH _ q). congruence.
Qed.

(** The ids met on the way are pairwise different and all in the table, so
    the walk is no longer than the table. *)
Lemma ultimate_primary_path (table : list Contact) (i : Z) (n : nat)
  (p : Contact) :
  ultimate_primary table i n p ->
  exists path : list Z,
    length path = S n
    /\ NoDup path
    /\ incl path (ids table)
    /\ (forall k, In k path ->
         exists m q, (m <= n)%nat /\ ultimate_primary table k m q).
Proof.
  induction 1 as [i p Hl Hp | i j c n p Hl Hc Hj Hu IH].
  - exists [i]. repeat split.
    + constructor; [easy|constructor].
    + intros k [<-|[]]. eapply lookup_in_ids; eauto.
    + intros k [<-|[]]. exists O, p. split; auto. now constructor.
  - destruct IH as [path [Hlen [Hnd [Hincl Hall]]]].
    exists (i :: path). repeat split.
    + simpl. now rewrite Hlen.
    + constructor; auto. intros Hin.
      destruct (Hall _ Hin) as [m [q [Hm Hq]]].
      assert (Hi : ultimate_primary table i (S n) p) by (econstructor; eauto).
      pose proof (ultimate_primary_hops_unique _ _ _ _ Hi _ _ Hq). lia.
    + intros k [<-|Hin]; [eapply lookup_in_ids; eauto | now apply Hincl].
    + intros k [<-|Hin].
      * exists (S n), p. split; auto. econstructor; eauto.
      * destruct (Hall _ Hin) as [m [q [Hm Hq]]]. exists m, q. split; auto.
Qed.

Lemma ultimate_primary_short (table : list Contact) (i : Z) (n : nat)
  (p : Contact) :
  ultimate_primary table i n p -> (S n <= length table)%nat.
Proof.
  intros H. destruct (ultimate_primary_path _ _ _ _ H)
    as [path [Hlen [Hnd [Hincl _]]]].
  rewrite <- Hlen. unfold ids in Hincl.
  rewrite <- (length_map id table). now apply NoDup_incl_length.
Qed.

Lemma dead_end_resolve (table : list Contact) (cid : option Z) (n : nat) :
  dead_end table cid n -> resolve (S n) table cid = Ok None.
Proof.
  induction 1 as [|i Hl|i c n Hl Hc _ IH].
  - apply resolve_null.
  - simpl. unfold lookup in Hl. now rewrite Hl.
  - cbn [resolve]. unfold lookup in Hl. now rewrite Hl, Hc.
Qed.

Lemma dead_end_found (table : list Contact) (cid : option Z) (n : nat)
  (fuel : nat) :
  dead_end table cid n -> (n < fuel)%nat -> resolve fuel table cid = Ok None.
Proof.
  intros H Hlt. apply (resolve_more_fuel _ (S n)); [|lia].
  now apply dead_end_resolve.
Qed.

Lemma resolve_dead_end (table : list Contact) (fuel : nat) :
  forall cid : option Z,
  resolve fuel table cid = Ok None ->
  exists n, (n < fuel)%nat /\ dead_end table cid n.
Proof.
  induction fuel as [|fuel IH]; intros cid H; [discriminate|].
  destruct cid as [i|]; [|exists O; split; [lia|constructor]].
  simpl in H. destruct (find (id_eq (Some i)) table) as [c|] eqn:Hf.
  - destruct (is_primary c) eqn:Hp; [discriminate|].
    destruct (IH _ H) as [n [Hlt Hn]]. exists (S n). split; [lia|].
    econstructor; eauto.
  - exists O. split; [lia|]. now constructor.
Qed.

Lemma secondaries_ahead_resolve (table : list Contact) (cid : option Z)
  (fuel : nat) :
  secondaries_ahead table cid fuel ->
  resolve fuel table cid = Raise RecursionError.
Proof.
  induction 1 as [cid|i c n Hl Hc _ IH]; [reflexivity|].
  cbn [resolve]. unfold lookup in Hl. now rewrite Hl, Hc.
Qed.

Lemma resolve_raise (table : list Contact) (fuel : nat) :
  forall (cid : option Z) (e : Error),
  resolve fuel table cid = Raise e ->
  e = RecursionError /\ secondaries_ahead table cid fuel.
Proof.
  induction fuel as [|fuel IH]; intros cid e H.
  - injection H as <-. split; [reflexivity|constructor].
  - destruct cid as [i|]; [|rewrite resolve_null in H; discriminate].
    simpl in H. destruct (find (id_eq (Some i)) table) as [c|] eqn:Hf;
      [|discriminate].
    destruct (is_primary c) eqn:Hp; [discriminate|].
    destruct (IH _ e H) as [-> Hn]. split; [reflexivity|].
    econstructor; eauto.
Qed.

Lemma secondaries_ahead_le (table : list Contact) (cid : option Z) (n : nat) :
  secondaries_ahead table cid n ->
  forall m, (m <= n)%nat -> secondaries_ahead table cid m.
Proof.
  induction 1 as [cid|i c n Hl Hc _ IH]; intros m Hm.
  - replace m with O by lia. constructor.
  - destruct m as [|m]; [constructor|].
    econstructor; eauto. apply IH. lia.
Qed.

Lemma ultimate_primary_ahead (table : list Contact) (i : Z) (n : nat)
  (p : Contact) :
  ultimate_primary table i n p -> secondaries_ahead table (Some i) n.
Proof.
  induction 1 as [i p Hl Hp | i j c n p Hl Hc Hj _ IH]; [constructor|].
  econstructor; eauto. now rewrite Hj.
Qed.

(** On a loop of links there are secondaries ahead without end. *)
Lemma loop_secondaries_ahead (table : list Contact) (inside : Z -> Prop) :
  (forall k, inside k ->
     exists c j, lookup table k = Some c /\ is_primary c = false
                 /\ linkedId c = Some j /\ inside j) ->
  forall (n : nat) (i : Z), inside i -> secondaries_ahead table (Some i) n.
Proof.
  intros Hclosed. induction n as [|n IH]; intros i Hi; [constructor|].
  destruct (Hclosed i Hi) as [c [j [Hl [Hc [Hj Hin]]]]].
  econstructor; eauto. rewrite Hj. now apply IH.
Qed.

Lemma outcome_all_secondary (now : Z) (request : IdentifyRequest)
  (table : list Contact) (m0 : Contact) (rest : list Contact) :
  valid request = true ->
  matching request table = m0 :: rest ->
  filter is_primary (m0 :: rest) = [] ->
  outcome now request table
  = match resolve recursion_depth table (linkedId m0) with
    | Raise e => (Raise e, table, [])
    | Ok None => (Raise AttributeError, table, [])
    | Ok (Some p) =>
        let graph := linked table (id p) in
        if novel request graph then
          let n := new_row table request (Some (id p)) secondary now in
          (Ok (respond p (graph ++ [n])), table ++ [n], [table ++ [n]])
        else (Ok (respond p graph), table, [])
    end.
Proof.
  intros Hv Hm Hs. rewrite (outcome_matched _ _ _ _ _ Hv Hm).
  unfold matched_outcome, working_primary. rewrite Hs.
  change (merge_primaries now []) with (@nil Contact).
  change (merge_rows now [] table) with table.
  change (merging []) with false. cbv iota. reflexivity.
Qed.

(** C8, as the code has it: when every matched row is secondary,
    [identify] follows [linkedId] from the first row the query returned
    (a row with the email of the request if there is one).  If the links
    lead, through any number [n] of further secondaries, to a primary [p],
    and the [n + 1] nested calls of [find_primary_contact] fit under the
    recursion limit, [identify] succeeds with [p] as working primary and
    answers [primaryContactId = id p]; and an answer is given in no other
    case.  (A chain that ends at a NULL or missing id, and a chain longer
    than the recursion limit allows, raise instead.) *)
Theorem identify_resolves_ultimate_primary (now : Z)
  (request : IdentifyRequest) (table : list Contact)
  (m0 : Contact) (rest : list Contact) :
  valid request = true ->
  matching request table = m0 :: rest ->
  filter is_primary (m0 :: rest) = [] ->
  (forall i n p,
     linkedId m0 = Some i ->
     ultimate_primary table i n p ->
     (n < recursion_depth)%nat ->
     working_primary now table m0 (filter is_primary (m0 :: rest))
     = Ok (Some p)
     /\ exists response,
          fst (run_identify now request table) = Ok response
          /\ primaryContactId response = id p)
  /\ (forall response,
        fst (run_identify now request table) = Ok response ->
        exists i n p,
          linkedId m0 = Some i
          /\ ultimate_primary table i n p
          /\ (n < recursion_depth)%nat
          /\ primaryContactId response = id p).
Proof.
  intros Hv Hm Hs.
  pose proof (outcome_all_secondary now request table m0 rest Hv Hm Hs) as Ho.
  unfold outcome, observe in Ho. split.
  - intros i n p Hi Hu Hlt.
    pose proof (ultimate_primary_found _ _ _ _ _ Hu Hlt) as Hr.
    split.
    + rewrite Hs. unfold working_primary. cbn. now rewrite Hi.
    + rewrite Hi, Hr in Ho. cbv zeta in Ho.
      destruct (novel request _) in Ho; injection Ho as Hf _ _; rewrite Hf;
        eexists; split; reflexivity.
  - intros response Hr. rewrite Hr in Ho.
    destruct (resolve recursion_depth table (linkedId m0)) as [[p|]|e] eqn:Hp;
      try discriminate.
    destruct (resolve_ultimate _ _ _ _ Hp) as [i [n [Hi [Hlt Hu]]]].
    exists i, n, p. repeat split; auto. cbv zeta in Ho.
    destruct (novel request _) in Ho; injection Ho as -> _ _; reflexivity.
Qed.

(** C10: when at most one matched row is primary, the table after the call
    is the table before it followed by at most one new row, so no existing
    row is changed.  When no matched row is primary and the first matched
    row, which is the first row the query returned (a row with the email
    of the request if there is one), resolves to the primary [p], the
    answer is built from [p]'s graph in the unchanged table and the row
    just created, if any: the other matched rows do not enter it. *)
Theorem no_merge_no_mutation (now : Z) (request : IdentifyRequest)
  (table : list Contact) :
  (length (filter is_primary (matching request table)) <= 1)%nat ->
  (exists created : list Contact,
     (length created <= 1)%nat
     /\ rows (snd (run_identify now request table)) = table ++ created)
  /\ (forall m0 rest p,
        valid request = true ->
        matching request table = m0 :: rest ->
        filter is_primary (m0 :: rest) = [] ->
        resolve recursion_depth table (linkedId m0) = Ok (Some p) ->
        let graph := linked table (id p) in
        let created :=
          if novel request graph
          then [new_row table request (Some (id p)) secondary now] else [] in
        fst (run_identify now request table)
        = Ok (respond p (graph ++ created))
        /\ rows (snd (run_identify now request table)) = table ++ created).
Proof.
  intros Hle.
  assert (Hg : merging (filter is_primary (matching request table)) = false).
  { unfold merging. apply Nat.ltb_ge. exact Hle. }
  split.
  - destruct (outcome_shape now request table) as [created [Hl [Hr _]]].
    exists created. split; auto.
    rewrite (merge_rows_not_merging _ _ _ Hg) in Hr. exact Hr.
  - intros m0 rest p Hv Hm Hs Hp graph created.
    pose proof (outcome_matched now request table m0 rest Hv Hm) as Ho.
    unfold matched_outcome, working_primary in Ho.
    rewrite Hs in Ho.
    change (merge_primaries now []) with (@nil Contact) in Ho.
    change (merge_rows now [] table) with table in Ho.
    change (merging []) with false in Ho.
    cbv iota in Ho. rewrite Hp in Ho. cbv zeta in Ho. fold graph in Ho.
    unfold outcome, observe in Ho. subst created.
    destruct (novel request graph); injection Ho as Hr Ht _;
      rewrite Hr, Ht; rewrite ?app_nil_r; split; reflexivity.
Qed.

(** ** Tables with unique ids *)

Lemma existsb_Zeqb_In (x : Z) (l : list Z) :
  existsb (Z.eqb x) l = true <-> In x l.
Proof.
  rewrite existsb_exists. split.
  - intros [y [Hy He]]. apply Z.eqb_eq in He. now subst.
  - intros H. exists x. split; auto. apply Z.eqb_refl.
Qed.

Lemma distinct_NoDup (l : list Z) : distinct l = true <-> NoDup l.
Proof.
  induction l as [|x l IH]; simpl.
  - split; auto. constructor.
  - rewrite andb_true_iff, negb_true_iff, IH. split.
    + intros [Hn Hd]. constructor; auto.
      rewrite <- existsb_Zeqb_In. now rewrite Hn.
    + intros H. inversion H as [|? ? Hn Hd]; subst. split; auto.
      rewrite <- existsb_Zeqb_In in Hn. now destruct (existsb _ l).
Qed.

Lemma unique_ids_eq (table : list Contact) (a b : Contact) :
  unique_ids table = true ->
  In a table -> In b table -> id a = id b -> a = b.
Proof.
  unfold unique_ids. rewrite distinct_NoDup.
  induction table as [|x table IH]; simpl; [easy|].
  intros Hnd Ha Hb He. inversion Hnd as [|? ? Hn Hd]; subst.
  destruct Ha as [->|Ha], Hb as [->|Hb]; auto.
  - exfalso. apply Hn. rewrite He. now apply in_map.
  - exfalso. apply Hn. rewrite <- He. now apply in_map.
Qed.

Lemma lookup_unique (table : list Contact) (c : Contact) :
  unique_ids table = true -> In c table -> lookup table (id c) = Some c.
Proof.
  intros Hu Hin. unfold lookup.
  destruct (find (id_eq (Some (id c))) table) as [d|] eqn:Hf.
  - apply find_some in Hf as [Hd He]. simpl in He. apply Z.eqb_eq in He.
    f_equal. eapply unique_ids_eq; eauto.
  - eapply find_none in Hf; eauto. simpl in Hf.
    now rewrite Z.eqb_refl in Hf.
Qed.

Lemma filter_id_absent (table : list Contact) (i : Z) :
  ~ In i (ids table) -> filter (fun x => id x =? i) table = [].
Proof.
  induction table as [|y table IH]; simpl; auto.
  intros Hn. destruct (id y =? i) eqn:He.
  - exfalso. apply Hn. left. now apply Z.eqb_eq.
  - apply IH. intros H. apply Hn. now right.
Qed.

Lemma filter_id_unique (table : list Contact) (c : Contact) :
  unique_ids table = true -> In c table ->
  filter (fun x => id x =? id c) table = [c].
Proof.
  unfold unique_ids. rewrite distinct_NoDup.
  induction table as [|x table IH]; simpl; [easy|].
  intros Hnd Hin. inversion Hnd as [|? ? Hn Hd]; subst.
  destruct Hin as [->|Hin].
  - rewrite Z.eqb_refl. f_equal. now apply filter_id_absent.
  - destruct (id x =? id c) eqn:He.
    + exfalso. apply Hn. apply Z.eqb_eq in He. rewrite He. now apply in_map.
    + now apply IH.
Qed.

(** ** The demotion step, row by row *)

Section Demotion.

Variables (now oldest_id : Z) (targets : list Z).

Let g := demote_if now oldest_id targets.

Lemma demote_if_id (c : Contact) : id (g c) = id c.
Proof. unfold g, demote_if. now destruct (existsb _ targets). Qed.

Lemma demote_if_email (c : Contact) : email (g c) = email c.
Proof. unfold g, demote_if. now destruct (existsb _ targets). Qed.

Lemma demote_if_phoneNumber (c : Contact) : phoneNumber (g c) = phoneNumber c.
Proof. unfold g, demote_if. now destruct (existsb _ targets). Qed.

Lemma demote_if_matches (request : IdentifyRequest) (c : Contact) :
  matches request (g c) = matches request c.
Proof.
  unfold matches, conditions.
  destruct (truthy (request_email request)),
           (truthy (request_phoneNumber request)); cbn;
    now rewrite ?demote_if_email, ?demote_if_phoneNumber.
Qed.

Lemma demote_in_ids (table : list Contact) :
  ids (demote_in now oldest_id targets table) = ids table.
Proof.
  unfold ids, demote_in. rewrite map_map. apply map_ext. apply demote_if_id.
Qed.

Lemma find_map_same (p : Contact -> bool) (table : list Contact) :
  (forall c, p (g c) = p c) ->
  find p (map g table) = option_map g (find p table).
Proof.
  intros Hp. induction table as [|x table IH]; simpl; auto.
  rewrite Hp. now destruct (p x).
Qed.

Lemma filter_map_same (p : Contact -> bool) (table : list Contact) :
  (forall c, p (g c) = p c) ->
  filter p (map g table) = map g (filter p table).
Proof.
  intros Hp. induction table as [|x table IH]; simpl; auto.
  rewrite Hp. destruct (p x); simpl; now rewrite IH.
Qed.

Lemma demote_in_lookup (table : list Contact) (i : Z) :
  lookup (demote_in now oldest_id targets table) i
  = option_map g (lookup table i).
Proof.
  unfold lookup, demote_in. apply find_map_same.
  intros c. simpl. now rewrite demote_if_id.
Qed.

Lemma demote_in_matching (request : IdentifyRequest) (table : list Contact) :
  matching request (demote_in now oldest_id targets table)
  = map g (matching request table).
Proof.
  unfold matching, demote_in. apply or_rows_map; [|reflexivity].
  intros c r Hin. unfold conditions in Hin.
  apply in_app_or in Hin as [Hin|Hin];
    [destruct (truthy (request_email request))
    |destruct (truthy (request_phoneNumber request))];
    cbn [In] in Hin; try contradiction; destruct Hin as [<-|[]];
    now rewrite ?demote_if_email, ?demote_if_phoneNumber.
Qed.

Lemma demote_in_next_id (table : list Contact) :
  next_id (demote_in now oldest_id targets table) = next_id table.
Proof.
  unfold next_id, demote_in. f_equal.
  induction table as [|x table IH]; simpl; auto.
  now rewrite IH, demote_if_id.
Qed.

End Demotion.

(** ** Merging two primaries *)

Lemma if_truthy_nonempty (v : string) :
  v <> EmptyString -> if_truthy (Some v) = [v].
Proof.
  intros H. unfold if_truthy, truthy.
  now destruct (String.eqb_spec v EmptyString).
Qed.

Lemma truthy_and_not_in_present (v : string) (xs : list string) :
  In v xs -> truthy_and_not_in (Some v) xs = false.
Proof.
  intros H. destruct (truthy_and_not_in (Some v) xs) eqn:E; auto.
  apply truthy_and_not_in_spec in E as [w [[= <-] [_ Hn]]]. contradiction.
Qed.

Lemma sort_two (a b : Contact) :
  createdAt a < createdAt b ->
  sort_by_createdAt [a; b] = [a; b] /\ sort_by_createdAt [b; a] = [a; b].
Proof.
  intros H. unfold sort_by_createdAt. simpl.
  destruct (Z.leb_spec (createdAt a) (createdAt b)); [|lia].
  destruct (Z.leb_spec (createdAt b) (createdAt a)); [lia|]. auto.
Qed.

(** C2: let a table with unique ids hold two primaries [A], created first,
    with email [eA] and phone [pA], and [B] with [eB] and [pB], let them be
    the rows that [Identify(eA, pB)] matches, and let no row be linked to
    [A].  Then the call sorts the two by [createdAt], keeps [A] primary and
    unchanged, rewrites [B] into a secondary with [linkedId = id A] and
    [updatedAt = now], commits that, creates nothing, and answers
    [primaryContactId = id A], [secondaryContactIds = [id B]], and as sets
    [emails = {eA, eB}] and [phoneNumbers = {pA, pB}]. *)
Theorem merge_keeps_oldest_primary (now : Z) (table : list Contact)
  (A B : Contact) (eA pA eB pB : string) :
  unique_ids table = true ->
  Permutation (matching (both eA pB) table) [A; B] ->
  is_primary A = true -> is_primary B = true ->
  createdAt A < createdAt B ->
  email A = Some eA -> phoneNumber A = Some pA ->
  email B = Some eB -> phoneNumber B = Some pB ->
  eA <> EmptyString -> pA <> EmptyString ->
  eB <> EmptyString -> pB <> EmptyString ->
  unlinked (id A) table = true ->
  let B' := demote now (id A) B in
  let t1 := demote_in now (id A) [id B] table in
  sort_by_createdAt (filter is_primary (matching (both eA pB) table)) = [A; B]
  /\ (exists response,
        outcome now (both eA pB) table = (Ok response, t1, [t1])
        /\ primaryContactId response = id A
        /\ secondaryContactIds response = [id B]
        /\ (forall x, In x (emails response) <-> x = eA \/ x = eB)
        /\ NoDup (emails response)
        /\ (forall x, In x (phoneNumbers response) <-> x = pA \/ x = pB)
        /\ NoDup (phoneNumbers response))
  /\ In A t1 /\ In B' t1 /\ ~ In B t1
  /\ linkPrecedence B' = secondary
  /\ linkedId B' = Some (id A)
  /\ updatedAt B' = now
  /\ (forall c, In c table -> c <> B -> In c t1).
Proof.
  intros Hu Hperm HpA HpB Hlt HeA HphA HeB HphB NeA NpA NeB NpB Hun B' t1.
  set (request := both eA pB) in *.
  assert (Hv : valid request = true).
  { unfold valid, request, both, truthy. cbn.
    destruct (String.eqb_spec eA EmptyString); [contradiction|reflexivity]. }
  assert (HinA : In A table /\ In B table).
  { split; eapply (proj1 (matching_In request table _));
      eapply Permutation_in; [apply Permutation_sym, Hperm|now left
                             |apply Permutation_sym, Hperm|now right; left]. }
  destruct HinA as [HinA HinB].
  assert (Hne : id A <> id B).
  { intros He. pose proof (unique_ids_eq _ _ _ Hu HinA HinB He). subst B. lia. }
  assert (Hsort : sort_by_createdAt (filter is_primary (matching request table))
                  = [A; B]
                  /\ exists m0 rest, matching request table = m0 :: rest
                       /\ filter is_primary (m0 :: rest) = m0 :: rest).
  { apply Permutation_sym, Permutation_length_2_inv in Hperm.
    destruct (sort_two A B Hlt) as [S1 S2].
    destruct Hperm as [Hm|Hm]; rewrite Hm.
    - split; [simpl; now rewrite HpA, HpB|].
      exists A, [B]. split; auto. simpl. now rewrite HpA, HpB.
    - split; [simpl; now rewrite HpA, HpB|].
      exists B, [A]. split; auto. simpl. now rewrite HpA, HpB. }
  destruct Hsort as [Hsort [m0 [rest [Hm Hf]]]].
  assert (Hg : forall c, In c table -> c <> B ->
               demote_if now (id A) [id B] c = c).
  { intros c Hc Hcb. unfold demote_if. cbn. rewrite orb_false_r.
    destruct (Z.eqb_spec (id c) (id B)) as [He|]; auto.
    exfalso. apply Hcb. eapply unique_ids_eq; eauto. }
  assert (HgB : demote_if now (id A) [id B] B = B').
  { unfold demote_if. cbn. now rewrite Z.eqb_refl. }
  assert (HA1 : In A t1).
  { unfold t1, demote_in. apply in_map_iff. exists A. split; auto.
    apply Hg; auto. intros ->. lia. }
  assert (HB1 : In B' t1).
  { unfold t1, demote_in. apply in_map_iff. exists B. split; auto. }
  split; [exact Hsort|]. split.
  - pose proof (outcome_matched now request table m0 rest Hv Hm) as Ho.
    rewrite Hf, <- Hm in Ho. rewrite Hm in Hsort. rewrite Hf in Hsort.
    rewrite <- Hm in Hsort.
    unfold matched_outcome, working_primary, merge_primaries, merge_rows in Ho.
    assert (Hmg : merging (matching request table) = true).
    { unfold merging. rewrite <- (sort_by_createdAt_length _), Hsort.
      reflexivity. }
    rewrite Hmg, Hsort in Ho. cbn [map] in Ho. fold t1 in Ho.
    cbv zeta in Ho.
    assert (Hlinked : linked t1 (id A) = [A; B']).
    { unfold linked, t1. rewrite demote_in_lookup.
      rewrite (lookup_unique _ _ Hu HinA). cbn [option_map].
      rewrite (Hg A HinA) by (intros ->; lia). rewrite HpA. cbn [negb].
      f_equal. unfold demote_in.
      assert (Hflt : forall l : list Contact,
                (forall c, In c l -> In c table) ->
                filter (fun c => linked_to (id A) c && is_secondary c)
                       (map (demote_if now (id A) [id B]) l)
                = map (demote_if now (id A) [id B])
                      (filter (fun x => id x =? id B) l)).
      { induction l as [|x l IHl]; intros Hl; [reflexivity|].
        cbn [map filter]. rewrite IHl by (intros; apply Hl; now right).
        destruct (Z.eqb_spec (id x) (id B)) as [He|Hd].
        - assert (x = B) by (eapply unique_ids_eq; eauto; apply Hl; now left).
          subst x. rewrite HgB. unfold B', linked_to, is_secondary. cbn.
          rewrite Z.eqb_refl. cbn [andb]. now rewrite HgB.
        - rewrite Hg; [|apply Hl; now left|congruence].
          unfold unlinked in Hun. rewrite forallb_forall in Hun.
          specialize (Hun x (Hl x (or_introl eq_refl))).
          apply negb_true_iff in Hun. now rewrite Hun. }
      rewrite Hflt by auto. rewrite (filter_id_unique table B Hu HinB).
      cbn [map]. now rewrite HgB. }
    rewrite Hlinked in Ho.
    assert (Hem : existing_emails [A; B'] = nodup string_dec [eA; eB]).
    { unfold existing_emails. cbn [flat_map]. unfold B' at 1. cbn [email demote].
      now rewrite HeA, HeB, !if_truthy_nonempty. }
    assert (Hph : existing_phones [A; B'] = nodup string_dec [pA; pB]).
    { unfold existing_phones. cbn [flat_map]. unfold B' at 1.
      cbn [phoneNumber demote]. now rewrite HphA, HphB, !if_truthy_nonempty. }
    assert (Hnov : novel request [A; B'] = false).
    { unfold novel, request, both. cbn [request_email request_phoneNumber].
      rewrite Hem, Hph.
      rewrite !truthy_and_not_in_present; auto;
        apply nodup_In; simpl; auto. }
    rewrite Hnov in Ho. eexists. split; [exact Ho|].
    unfold respond. cbn [primaryContactId secondaryContactIds emails phoneNumbers].
    rewrite Hem, Hph. repeat split.
    + cbn [filter]. unfold is_secondary at 1. unfold is_primary in HpA.
      destruct (linkPrecedence A); [|discriminate]. reflexivity.
    + rewrite nodup_In. simpl. intuition.
    + rewrite nodup_In. simpl. intuition.
    + apply NoDup_nodup.
    + rewrite nodup_In. simpl. intuition.
    + rewrite nodup_In. simpl. intuition.
    + apply NoDup_nodup.
  - repeat split; auto.
    intros HB. unfold t1, demote_in in HB. apply in_map_iff in HB.
    destruct HB as [c [Hc Hin]].
    assert (id c = id B) by (rewrite <- Hc; symmetry; apply demote_if_id).
    assert (c = B) by (eapply unique_ids_eq; eauto). subst c.
    rewrite HgB in Hc. unfold B' in Hc. rewrite <- Hc in HpB. discriminate.
    intros c Hc Hcb. unfold t1, demote_in. apply in_map_iff.
    exists c. split; auto.
Qed.

(** ** The consolidation step on a table with unique ids *)

Lemma insert_by_createdAt_perm (x : Contact) (l : list Contact) :
  Permutation (insert_by_createdAt x l) (x :: l).
Proof.
  induction l as [|y l IH]; simpl; auto.
  destruct (createdAt x <=? createdAt y); auto.
  rewrite IH. apply perm_swap.
Qed.

Lemma sort_by_createdAt_perm (l : list Contact) :
  Permutation (sort_by_createdAt l) l.
Proof.
  induction l as [|x l IH]; simpl; auto.
  rewrite insert_by_createdAt_perm. now constructor.
Qed.

Lemma lookup_app (a b : list Contact) (i : Z) :
  lookup (a ++ b) i
  = match lookup a i with Some c => Some c | None => lookup b i end.
Proof.
  unfold lookup. induction a as [|x a IH]; simpl; auto.
  now destruct (id x =? i).
Qed.

Lemma lookup_absent (table : list Contact) (i : Z) :
  ~ In i (ids table) -> lookup table i = None.
Proof.
  intros Hn. destruct (lookup table i) as [c|] eqn:Hl; auto.
  exfalso. apply Hn. eapply lookup_in_ids; eauto.
Qed.

Lemma lookup_present (table : list Contact) (i : Z) :
  In i (ids table) -> exists c, lookup table i = Some c.
Proof.
  intros Hin. destruct (lookup table i) as [c|] eqn:Hl; eauto.
  exfalso. unfold ids in Hin. apply in_map_iff in Hin as [c [Hc Hin]].
  unfold lookup in Hl. eapply find_none in Hl; eauto. simpl in Hl.
  rewrite Hc, Z.eqb_refl in Hl. discriminate.
Qed.

Lemma merging_matching (request : IdentifyRequest) (table : list Contact) :
  merging (filter is_primary (matching request table)) = true ->
  valid request = true
  /\ exists m0 rest, matching request table = m0 :: rest.
Proof.
  intros Hg. split.
  - destruct (valid request) eqn:Hv; auto.
    rewrite (matching_invalid _ _ Hv) in Hg. discriminate.
  - destruct (matching request table) as [|m0 rest]; [discriminate|eauto].
Qed.

Section Consolidation.

Variables (now : Z) (request : IdentifyRequest) (table : list Contact).
Variables (oldest : Contact) (others : list Contact).

Let pcs := filter is_primary (matching request table).
Let t1 := demote_in now (id oldest) (map id others) table.

Hypothesis Hu : unique_ids table = true.
Hypothesis Hsort : sort_by_createdAt pcs = oldest :: others.

Lemma sorted_in_table (c : Contact) :
  In c (oldest :: others) ->
  In c table /\ is_primary c = true /\ matches request c = true.
Proof.
  intros Hin. rewrite <- Hsort in Hin.
  apply (Permutation_in _ (sort_by_createdAt_perm pcs)) in Hin.
  unfold pcs in Hin.
  apply filter_In in Hin as [Hin Hp]. apply matching_In in Hin as [Hin Hm].
  auto.
Qed.

Lemma oldest_not_target : ~ In (id oldest) (map id others).
Proof.
  assert (Hnd : NoDup (map id (oldest :: others))).
  { rewrite <- Hsort.
    apply (Permutation_NoDup
             (Permutation_map id (Permutation_sym (sort_by_createdAt_perm pcs)))).
    unfold pcs. apply NoDup_map_filter, matching_NoDup.
    now apply distinct_NoDup. }
  now inversion Hnd.
Qed.

Lemma oldest_kept : demote_if now (id oldest) (map id others) oldest = oldest.
Proof.
  unfold demote_if.
  destruct (existsb (Z.eqb (id oldest)) (map id others)) eqn:E; auto.
  apply existsb_Zeqb_In in E. now apply oldest_not_target in E.
Qed.

Lemma others_demoted (d : Contact) :
  In d others ->
  demote_if now (id oldest) (map id others) d = demote now (id oldest) d.
Proof.
  intros Hin. unfold demote_if.
  destruct (existsb (Z.eqb (id d)) (map id others)) eqn:E; auto.
  exfalso. apply not_true_iff_false in E. apply E.
  apply existsb_Zeqb_In. now apply in_map.
Qed.

Lemma lookup_oldest : lookup t1 (id oldest) = Some oldest.
Proof.
  unfold t1. rewrite demote_in_lookup.
  rewrite (lookup_unique _ _ Hu); [|apply sorted_in_table; now left].
  cbn. now rewrite oldest_kept.
Qed.

Lemma lookup_demoted (d : Contact) :
  In d others -> lookup t1 (id d) = Some (demote now (id oldest) d).
Proof.
  intros Hin. unfold t1. rewrite demote_in_lookup.
  rewrite (lookup_unique _ _ Hu); [|apply sorted_in_table; now right].
  cbn. now rewrite others_demoted.
Qed.

Lemma merging_sorted : merging pcs = true -> merge_rows now pcs table = t1.
Proof. intros Hg. unfold merge_rows. now rewrite Hg, Hsort. Qed.

Lemma outcome_merge :
  merging pcs = true ->
  outcome now request table
  = let graph := linked t1 (id oldest) in
    if novel request graph then
      let n := new_row t1 request (Some (id oldest)) secondary now in
      (Ok (respond oldest (graph ++ [n])), t1 ++ [n], [t1; t1 ++ [n]])
    else (Ok (respond oldest graph), t1, [t1]).
Proof.
  intros Hg.
  destruct (merging_matching _ _ Hg) as [Hv [m0 [rest Hm]]].
  rewrite (outcome_matched _ _ _ _ _ Hv Hm).
  unfold matched_outcome, working_primary, merge_primaries.
  rewrite <- Hm. fold pcs.
  rewrite (merging_sorted Hg), Hg, Hsort. cbv zeta.
  now destruct (novel request (linked t1 (id oldest))).
Qed.

End Consolidation.

(** ** Links after a merge *)

Lemma well_linked_primary (table : list Contact) (c : Contact) :
  well_linked table = true -> In c table -> is_primary c = true ->
  linkedId c = None.
Proof.
  unfold well_linked, is_primary. rewrite forallb_forall.
  intros Hw Hin Hp. specialize (Hw c Hin).
  destruct (linkPrecedence c); [|discriminate].
  now destruct (linkedId c).
Qed.

Lemma well_linked_target (table : list Contact) (c : Contact) (j : Z) :
  well_linked table = true -> In c table -> linkedId c = Some j ->
  exists p, lookup table j = Some p /\ is_primary p = true.
Proof.
  unfold well_linked. rewrite forallb_forall.
  intros Hw Hin Hj. specialize (Hw c Hin). rewrite Hj in Hw.
  destruct (linkPrecedence c); [discriminate|].
  destruct (lookup table j) as [p|]; [eauto|discriminate].
Qed.

Lemma rows_of_outcome (now : Z) (request : IdentifyRequest)
  (table : list Contact) :
  rows (snd (run_identify now request table))
  = snd (fst (outcome now request table)).
Proof. reflexivity. Qed.

(** C1, as the code has it: let the table have unique ids and the
    two-level shape, and let a call merge, [oldest] being the earliest
    matched primary (the first the query returned, among those created at
    the earliest instant) and [others] the rest.  Afterwards [oldest] is
    still a primary without [linkedId]; every row of [others] is a
    secondary linked directly to it; and a row whose [linkedId] points to a
    row that has a [linkedId] itself can only be a row of the old table
    whose [linkedId] is the id of one of the demoted [others].  Rows linked
    to a demoted primary are not re-pointed: each of them is in the final
    table exactly as it was, its [linkedId] still the id of the demoted
    row, which is now a secondary linked to [oldest]; so it is two links
    away from [oldest], and not linked to it. *)
Theorem merge_links_demoted_to_survivor (now : Z) (request : IdentifyRequest)
  (table : list Contact) (oldest : Contact) (others : list Contact) :
  unique_ids table = true ->
  well_linked table = true ->
  merging (filter is_primary (matching request table)) = true ->
  sort_by_createdAt (filter is_primary (matching request table))
  = oldest :: others ->
  let t' := rows (snd (run_identify now request table)) in
  lookup t' (id oldest) = Some oldest
  /\ is_primary oldest = true
  /\ linkedId oldest = None
  /\ (forall d, In d others ->
              lookup t' (id d) = Some (demote now (id oldest) d))
  /\ (forall c j q,
        In c t' -> linkedId c = Some j -> lookup t' j = Some q ->
        linkedId q <> None ->
        In c table /\ In j (map id others))
  /\ (forall c j,
        In c table -> linkedId c = Some j -> In j (map id others) ->
        lookup t' (id c) = Some c
        /\ j <> id oldest
        /\ exists d,
             In d others /\ id d = j
             /\ lookup t' j = Some (demote now (id oldest) d)
             /\ linkedId (demote now (id oldest) d) = Some (id oldest)).
Proof.
  intros Hu Hw Hg Hsort t'.
  set (t1 := demote_in now (id oldest) (map id others) table).
  assert (Ho : In oldest table /\ is_primary oldest = true).
  { destruct (sorted_in_table request table oldest others Hsort oldest)
      as [H1 [H2 _]]; auto. now left. }
  destruct Ho as [Hot Hop].
  assert (Hol : linkedId oldest = None)
    by (eapply well_linked_primary; eauto).
  assert (Ht' : exists created,
             t' = t1 ++ created
             /\ forall n, In n created -> linkedId n = Some (id oldest)).
  { unfold t'. rewrite rows_of_outcome.
    rewrite (outcome_merge now request table oldest others Hsort Hg).
    cbv zeta. fold t1. destruct (novel request (linked t1 (id oldest))).
    - eexists. split; [reflexivity|]. intros n [<-|[]]. reflexivity.
    - exists []. cbn. rewrite app_nil_r. split; [reflexivity|]. intros n []. }
  destruct Ht' as [created [Ht' Hcr]].
  assert (Hlo : lookup t' (id oldest) = Some oldest).
  { rewrite Ht', lookup_app. unfold t1.
    now rewrite (lookup_oldest now request table oldest others Hu Hsort). }
  assert (Hde : forall d, In d others ->
                lookup t' (id d) = Some (demote now (id oldest) d)).
  { intros d Hd. rewrite Ht', lookup_app. unfold t1.
    now rewrite (lookup_demoted now request table oldest others Hu Hsort d
                   Hd). }
  split; [exact Hlo|]. split; [exact Hop|]. split; [exact Hol|].
  split; [exact Hde|]. split.
  2:{ intros c j Hc Hj Hin. apply in_map_iff in Hin as [d [Hdj Hd]].
      split; [|split].
      - rewrite Ht', lookup_app. unfold t1. rewrite demote_in_lookup.
        rewrite (lookup_unique _ _ Hu Hc). cbn [option_map]. f_equal.
        unfold demote_if.
        destruct (existsb (Z.eqb (id c)) (map id others)) eqn:Ec; auto.
        exfalso. apply existsb_Zeqb_In in Ec.
        apply in_map_iff in Ec as [d' [Hid Hd']].
        destruct (sorted_in_table request table oldest others Hsort d')
          as [H1 [H2 _]]; [now right|].
        assert (d' = c) by (eapply unique_ids_eq; eauto). subst d'.
        pose proof (well_linked_primary _ _ Hw Hc H2). congruence.
      - intros ->.
        apply (oldest_not_target request table oldest others Hu Hsort).
        rewrite <- Hdj. now apply in_map.
      - exists d. repeat split; auto. rewrite <- Hdj. now apply Hde. }
  - intros c j q Hc Hj Hq Hnn.
    assert (Hcontra : j = id oldest -> False).
    { intros ->. rewrite Hlo in Hq. injection Hq as <-. now apply Hnn. }
    rewrite Ht' in Hc. apply in_app_or in Hc as [Hc|Hc].
    + unfold t1, demote_in in Hc. apply in_map_iff in Hc as [c0 [Hc0 Hin0]].
      unfold demote_if in Hc0.
      destruct (existsb (Z.eqb (id c0)) (map id others)) eqn:Ec.
      * exfalso. apply Hcontra. subst c. cbn in Hj. congruence.
      * subst c0. split; [exact Hin0|].
        destruct (well_linked_target _ _ _ Hw Hin0 Hj) as [p0 [Hp0 Hpp]].
        rewrite Ht', lookup_app in Hq. unfold t1 in Hq.
        rewrite demote_in_lookup, Hp0 in Hq. cbn in Hq. injection Hq as <-.
        apply lookup_some in Hp0 as [Hp0in Hp0id].
        unfold demote_if in Hnn. rewrite Hp0id in Hnn.
        destruct (existsb (Z.eqb j) (map id others)) eqn:Ej.
        -- now apply existsb_Zeqb_In.
        -- exfalso. apply Hnn. eapply well_linked_primary; eauto.
    + exfalso. apply Hcontra. specialize (Hcr c Hc). congruence.
Qed.

(** ** Repeating a call *)

Lemma matches_new_row (request : IdentifyRequest) (table : list Contact)
  (link : option Z) (precedence : LinkPrecedence) (now : Z) :
  valid request = true ->
  matches request (new_row table request link precedence now) = true.
Proof.
  unfold valid, matches, conditions, new_row, col_eq_str, truthy.
  destruct request as [[e|] [p|]]; cbn;
    rewrite ?String.eqb_refl; try discriminate.
  - destruct (String.eqb e EmptyString), (String.eqb p EmptyString); cbn;
      rewrite ?String.eqb_refl; auto.
  - destruct (String.eqb e EmptyString); cbn; rewrite ?String.eqb_refl; auto.
  - destruct (String.eqb p EmptyString); cbn; rewrite ?String.eqb_refl; auto.
Qed.

Lemma if_truthy_In (v : string) (s : option string) :
  s = Some v -> v <> EmptyString -> In v (if_truthy s).
Proof. intros -> H. rewrite if_truthy_nonempty; simpl; auto. Qed.

Lemma novel_covered (request : IdentifyRequest) (graph : list Contact)
  (n : Contact) :
  In n graph ->
  email n = request_email request ->
  phoneNumber n = request_phoneNumber request ->
  novel request graph = false.
Proof.
  intros Hin He Hp. apply not_true_iff_false. intros H.
  apply novel_spec in H as [[v [Hv [Hne Hn]]]|[v [Hv [Hne Hn]]]]; apply Hn.
  - unfold existing_emails. apply nodup_In, in_flat_map. exists n.
    split; auto. apply if_truthy_In; congruence.
  - unfold existing_phones. apply nodup_In, in_flat_map. exists n.
    split; auto. apply if_truthy_In; congruence.
Qed.

Lemma linked_app (table : list Contact) (p n : Contact) :
  lookup table (id p) = Some p ->
  is_primary p = true ->
  linked_to (id p) n && is_secondary n = true ->
  linked (table ++ [n]) (id p) = linked table (id p) ++ [n].
Proof.
  intros Hl Hp Hn. unfold linked. rewrite lookup_app, Hl, Hp. cbn [negb].
  rewrite filter_app. cbn [filter]. now rewrite Hn.
Qed.

Lemma find_app_found (f : Contact -> bool) (a b : list Contact) (c : Contact) :
  find f a = Some c -> find f (a ++ b) = Some c.
Proof.
  induction a as [|x a IH]; simpl; [discriminate|].
  destruct (f x); auto.
Qed.

Lemma resolve_app (table extra : list Contact) (fuel : nat) :
  forall (cid : option Z) (p : Contact),
  resolve fuel table cid = Ok (Some p) ->
  resolve fuel (table ++ extra) cid = Ok (Some p).
Proof.
  induction fuel as [|fuel IH]; intros cid p H; [discriminate|].
  simpl in *. destruct (find (id_eq cid) table) as [c|] eqn:Hf;
    [|discriminate].
  rewrite (find_app_found _ _ extra _ Hf).
  destruct (is_primary c); auto.
Qed.

Lemma resolve_result (table : list Contact) (fuel : nat) :
  forall (cid : option Z) (p : Contact),
  resolve fuel table cid = Ok (Some p) ->
  lookup table (id p) = Some p /\ is_primary p = true.
Proof.
  induction fuel as [|fuel IH]; intros cid p H; [discriminate|].
  simpl in H. destruct (find (id_eq cid) table) as [c|] eqn:Hf;
    [|discriminate].
  destruct (is_primary c) eqn:Hp; [|eauto].
  injection H as <-. split; auto.
  destruct cid as [i|]; [|apply find_some in Hf as [_ Hf]; discriminate].
  unfold lookup. pose proof Hf as Hf'. apply find_some in Hf' as [_ He].
  simpl in He. apply Z.eqb_eq in He. now rewrite He.
Qed.

Lemma resolve_at_primary (table extra : list Contact) (fuel : nat)
  (cid : option Z) (p : Contact) :
  resolve fuel table cid = Ok (Some p) ->
  resolve fuel (table ++ extra) (Some (id p)) = Ok (Some p).
Proof.
  intros H. destruct (resolve_result _ _ _ _ H) as [Hl Hp].
  destruct fuel as [|fuel]; [discriminate|].
  simpl. unfold lookup in Hl. rewrite (find_app_found _ _ extra _ Hl).
  now rewrite Hp.
Qed.

Lemma merge_primaries_not_merging (now : Z) (pcs : list Contact) :
  merging pcs = false -> merge_primaries now pcs = pcs.
Proof. unfold merge_primaries. now intros ->. Qed.

Lemma is_secondary_not_primary (c : Contact) :
  is_secondary c = negb (is_primary c).
Proof. unfold is_secondary, is_primary. now destruct (linkPrecedence c). Qed.

(** Once the matched rows hold at most one primary, serving the request
    on the table, extended by the secondary the novelty check asks for,
    changes nothing and answers from the extended graph. *)
Lemma settled_outcome (now now' : Z) (request : IdentifyRequest)
  (t1 : list Contact) (m0 : Contact) (rest : list Contact) (p : Contact) :
  valid request = true ->
  matching request t1 = m0 :: rest ->
  merging (filter is_primary (m0 :: rest)) = false ->
  working_primary now' t1 m0 (filter is_primary (m0 :: rest)) = Ok (Some p) ->
  lookup t1 (id p) = Some p ->
  is_primary p = true ->
  let graph := linked t1 (id p) in
  let created :=
    if novel request graph
    then [new_row t1 request (Some (id p)) secondary now] else [] in
  outcome now' request (t1 ++ created)
  = (Ok (respond p (graph ++ created)), t1 ++ created, []).
Proof.
  intros Hv Hm Hg Hw Hl Hp graph created. subst created.
  destruct (novel request graph) eqn:Hn.
  - set (n := new_row t1 request (Some (id p)) secondary now).
    destruct (matching request (t1 ++ [n])) as [|m1 rest1] eqn:Hm'.
    { exfalso. apply (in_nil (a := n)). rewrite <- Hm'. apply matching_In.
      split; [apply in_or_app; right; now left|].
      unfold n. now apply matches_new_row. }
    assert (Hf' : filter is_primary (m1 :: rest1)
                  = filter is_primary (m0 :: rest)).
    { rewrite <- Hm', <- Hm. unfold matching. now apply or_rows_filter_snoc. }
    rewrite (outcome_matched _ _ _ _ _ Hv Hm'). rewrite Hf'.
    unfold matched_outcome.
    rewrite (merge_rows_not_merging _ _ _ Hg), Hg.
    assert (Hw' : working_primary now' (t1 ++ [n]) m1
                    (filter is_primary (m0 :: rest)) = Ok (Some p)).
    { unfold working_primary in *.
      rewrite (merge_primaries_not_merging _ _ Hg) in *.
      destruct (filter is_primary (m0 :: rest)); auto.
      unfold matching in Hm'.
      apply or_rows_head_snoc in Hm' as [->|[rest' Hm']].
      - change (linkedId n) with (Some (id p)).
        eapply resolve_at_primary; eauto.
      - unfold matching in Hm. rewrite Hm in Hm'. injection Hm' as <- _.
        now apply resolve_app. }
    rewrite Hw'. cbv zeta.
    rewrite (linked_app t1 p n Hl Hp)
      by (unfold n, new_row, linked_to, is_secondary; cbn;
          now rewrite Z.eqb_refl).
    fold graph.
    rewrite (novel_covered request (graph ++ [n]) n); auto.
    apply in_or_app. right. now left.
  - rewrite !app_nil_r.
    rewrite (outcome_matched _ _ _ _ _ Hv Hm). unfold matched_outcome.
    rewrite (merge_rows_not_merging _ _ _ Hg), Hg, Hw. cbv zeta.
    fold graph. now rewrite Hn.
Qed.

Lemma filter_swap (f h : Contact -> bool) (l : list Contact) :
  filter f (filter h l) = filter h (filter f l).
Proof.
  induction l as [|x l IH]; simpl; auto.
  destruct (h x) eqn:Hh, (f x) eqn:Hf; simpl; rewrite ?Hh, ?Hf, IH; auto.
Qed.

(** After the demotions the only matched primary is the oldest one. *)
Lemma demoted_matching_primaries (now : Z) (request : IdentifyRequest)
  (table : list Contact) (oldest : Contact) (others : list Contact) :
  unique_ids table = true ->
  sort_by_createdAt (filter is_primary (matching request table))
  = oldest :: others ->
  filter is_primary
    (map (demote_if now (id oldest) (map id others)) (matching request table))
  = [oldest].
Proof.
  intros Hu Hsort.
  destruct (sorted_in_table request table oldest others Hsort oldest)
    as [Hot [Hop Hom]]; [now left|].
  rewrite filter_of_map.
  rewrite (filter_ext_in _ (fun c => id c =? id oldest)).
  - rewrite (filter_id_unique (matching request table) oldest).
    + cbn [map].
      now rewrite (oldest_kept now request table oldest others Hu Hsort).
    + apply distinct_NoDup, matching_NoDup. now apply distinct_NoDup.
    + now apply matching_In.
  - intros c Hc. apply matching_In in Hc as [Hct Hcm].
    destruct (Z.eqb_spec (id c) (id oldest)) as [He|Hne].
    + assert (c = oldest) by (eapply unique_ids_eq; eauto). subst c.
      now rewrite (oldest_kept now request table oldest others Hu Hsort).
    + unfold demote_if.
      destruct (existsb (Z.eqb (id c)) (map id others)) eqn:Ec; auto.
      destruct (is_primary c) eqn:Hp; auto. exfalso.
      assert (Hin : In c (oldest :: others)).
      { rewrite <- Hsort.
        apply (Permutation_in _ (Permutation_sym (sort_by_createdAt_perm _))).
        apply filter_In. split; auto. apply matching_In. auto. }
      destruct Hin as [->|Hin]; [now apply Hne|].
      apply not_true_iff_false in Ec. apply Ec, existsb_Zeqb_In.
      now apply in_map.
Qed.

Lemma nodup_if_truthy (s : option string) :
  nodup string_dec (if_truthy s ++ []) = if_truthy s.
Proof.
  rewrite app_nil_r. unfold if_truthy. destruct s as [v|]; auto.
  now destruct (truthy (Some v)).
Qed.

Lemma nothing_linked_to_next_id (table : list Contact) (f : Contact -> bool) :
  links_resolve table = true ->
  filter (fun c => linked_to (next_id table) c && f c) table = [].
Proof.
  unfold links_resolve. rewrite forallb_forall. intros Hl.
  assert (H : forall l, (forall c, In c l -> In c table) ->
            filter (fun c => linked_to (next_id table) c && f c) l = []).
  { induction l as [|x l IH]; intros Hin; simpl; auto.
    rewrite IH by (intros; apply Hin; now right).
    specialize (Hl x (Hin x (or_introl eq_refl))).
    unfold linked_to. destruct (linkedId x) as [j|]; auto.
    destruct (Z.eqb_spec j (next_id table)) as [->|]; auto.
    apply existsb_Zeqb_In in Hl. now apply next_id_fresh in Hl. }
  apply H. auto.
Qed.

(** The call that follows the creation of a new primary. *)
Lemma outcome_after_new_primary (now now' : Z) (request : IdentifyRequest)
  (table : list Contact) :
  links_resolve table = true ->
  valid request = true ->
  matching request table = [] ->
  let n := new_row table request None primary now in
  outcome now' request (table ++ [n])
  = (Ok {| primaryContactId := next_id table;
           emails := if_truthy (request_email request);
           phoneNumbers := if_truthy (request_phoneNumber request);
           secondaryContactIds := [] |},
     table ++ [n], []).
Proof.
  intros Hl Hv Hm n.
  assert (Hm' : matching request (table ++ [n]) = [n]).
  { unfold matching. rewrite or_rows_unmatched, or_rows_single.
    - cbn [negb andb]. fold (matches request n).
      unfold n. now rewrite matches_new_row.
    - intros r Hr. fold (matches request r).
      destruct (matches request r) eqn:Hmr; auto.
      exfalso. apply (in_nil (a := r)). rewrite <- Hm.
      now apply matching_In. }
  rewrite (outcome_matched _ _ _ _ _ Hv Hm').
  unfold matched_outcome, working_primary.
  change (filter is_primary [n]) with [n].
  change (merging [n]) with false. cbv iota.
  rewrite merge_rows_not_merging, merge_primaries_not_merging by reflexivity.
  cbv zeta.
  assert (Hg : linked (table ++ [n]) (id n) = [n]).
  { unfold linked. rewrite lookup_app.
    rewrite (lookup_absent table (id n)) by apply next_id_fresh.
    unfold lookup. cbn [find id_eq id n new_row]. rewrite Z.eqb_refl.
    cbn [is_primary linkPrecedence negb]. f_equal.
    rewrite filter_app. rewrite (nothing_linked_to_next_id _ _ Hl).
    reflexivity. }
  rewrite Hg.
  rewrite (novel_covered request [n] n); auto; [|now left].
  unfold respond, existing_emails, existing_phones. cbn [flat_map].
  rewrite !nodup_if_truthy. reflexivity.
Qed.

Lemma working_primary_not_merging (now now' : Z) (table : list Contact)
  (m0 : Contact) (pcs : list Contact) :
  merging pcs = false ->
  working_primary now' table m0 pcs = working_primary now table m0 pcs.
Proof.
  intros Hg. unfold working_primary.
  now rewrite !merge_primaries_not_merging.
Qed.

Lemma working_primary_found (now : Z) (request : IdentifyRequest)
  (table : list Contact) (m0 : Contact) (rest : list Contact) (p : Contact) :
  unique_ids table = true ->
  matching request table = m0 :: rest ->
  merging (filter is_primary (m0 :: rest)) = false ->
  working_primary now table m0 (filter is_primary (m0 :: rest)) = Ok (Some p) ->
  lookup table (id p) = Some p /\ is_primary p = true.
Proof.
  intros Hu Hm Hg Hw. unfold working_primary in Hw.
  rewrite (merge_primaries_not_merging _ _ Hg) in Hw.
  destruct (filter is_primary (m0 :: rest)) as [|q l] eqn:Hf.
  - eapply resolve_result; eauto.
  - injection Hw as ->.
    assert (Hin : In p (filter is_primary (m0 :: rest)))
      by (rewrite Hf; now left).
    apply filter_In in Hin as [Hin Hp]. rewrite <- Hm in Hin.
    apply matching_In in Hin as [Hin _]. split; auto.
    now apply lookup_unique.
Qed.

Lemma repeated_outcome (now now' : Z) (request : IdentifyRequest)
  (table : list Contact) :
  unique_ids table = true ->
  links_resolve table = true ->
  outcome now' request (snd (fst (outcome now request table)))
  = (fst (fst (outcome now request table)),
     snd (fst (outcome now request table)), []).
Proof.
  intros Hu Hl.
  destruct (valid request) eqn:Hv.
  2:{ rewrite (outcome_invalid now _ _ Hv). cbn [fst snd].
      apply outcome_invalid, Hv. }
  destruct (matching request table) as [|m0 rest] eqn:Hm.
  { rewrite (outcome_no_match now _ _ Hv Hm). cbn [fst snd].
    now apply outcome_after_new_primary. }
  destruct (merging (filter is_primary (m0 :: rest))) eqn:Hg.
  - rewrite <- Hm in Hg.
    destruct (sort_by_createdAt (filter is_primary (matching request table)))
      as [|oldest others] eqn:Hsort.
    { apply sort_by_createdAt_nil in Hsort. rewrite Hsort in Hg.
      discriminate. }
    rewrite (outcome_merge now request table oldest others Hsort Hg).
    cbv zeta.
    set (t1 := demote_in now (id oldest) (map id others) table).
    destruct (sorted_in_table request table oldest others Hsort oldest)
      as [_ [Hop _]]; [now left|].
    assert (Hm1 : matching request t1
                  = demote_if now (id oldest) (map id others) m0
                    :: map (demote_if now (id oldest) (map id others)) rest).
    { unfold t1. now rewrite demote_in_matching, Hm. }
    assert (Hf1 : filter is_primary
                    (demote_if now (id oldest) (map id others) m0
                     :: map (demote_if now (id oldest) (map id others)) rest)
                  = [oldest]).
    { rewrite <- (demoted_matching_primaries now request table oldest others
                    Hu Hsort), Hm. reflexivity. }
    pose proof (settled_outcome now now' request t1 _ _ oldest Hv Hm1) as Hs.
    rewrite Hf1 in Hs.
    specialize (Hs eq_refl eq_refl
                  (lookup_oldest now request table oldest others Hu Hsort) Hop).
    cbv zeta in Hs. fold t1 in Hs.
    destruct (novel request (linked t1 (id oldest))); cbn [fst snd].
    + exact Hs.
    + now rewrite !app_nil_r in Hs.
  - rewrite (outcome_matched now _ _ _ _ Hv Hm). unfold matched_outcome.
    rewrite (merge_rows_not_merging _ _ _ Hg), Hg.
    destruct (working_primary now table m0 (filter is_primary (m0 :: rest)))
      as [[p|]|e] eqn:Hw.
    + destruct (working_primary_found _ _ _ _ _ _ Hu Hm Hg Hw) as [Hlp Hp].
      rewrite <- (working_primary_not_merging now now') in Hw by exact Hg.
      pose proof (settled_outcome now now' request table m0 rest p
                    Hv Hm Hg Hw Hlp Hp) as Hs.
      cbv zeta in *.
      destruct (novel request (linked table (id p))); cbn [fst snd].
      * exact Hs.
      * now rewrite !app_nil_r in Hs.
    + cbn [fst snd]. rewrite (outcome_matched now' _ _ _ _ Hv Hm).
      unfold matched_outcome.
      rewrite (merge_rows_not_merging _ _ _ Hg), Hg.
      now rewrite (working_primary_not_merging now now'), Hw.
    + cbn [fst snd]. rewrite (outcome_matched now' _ _ _ _ Hv Hm).
      unfold matched_outcome.
      rewrite (merge_rows_not_merging _ _ _ Hg), Hg.
      now rewrite (working_primary_not_merging now now'), Hw.
Qed.

(** C3: on a table with unique ids whose [linkedId]s all refer to rows of
    the table (every table that [identify] itself has built is one), a
    second call with the same request, whatever the clock, returns the
    same answer as the first, leaves the table the first call left, and
    commits nothing: no row is created and none is demoted. *)
Theorem identify_twice_same (now now' : Z) (request : IdentifyRequest)
  (table : list Contact) :
  unique_ids table = true ->
  links_resolve table = true ->
  let first := run_identify now request table in
  let second := run_identify now' request (rows (snd first)) in
  fst second = fst first
  /\ rows (snd second) = rows (snd first)
  /\ commits (log (snd second)) = [].
Proof.
  intros Hu Hl first second.
  pose proof (repeated_outcome now now' request table Hu Hl) as H.
  unfold outcome, observe in H. cbn [fst snd] in H.
  fold first in H. fold second in H.
  injection H as H1 H2 H3. auto.
Qed.

(** ** Tables built by [identify] *)

Lemma working_primary_in_table (now : Z) (request : IdentifyRequest)
  (table : list Contact) (m0 : Contact) (rest : list Contact) (p : Contact) :
  matching request table = m0 :: rest ->
  working_primary now table m0 (filter is_primary (m0 :: rest)) = Ok (Some p) ->
  In (id p) (ids table).
Proof.
  intros Hm Hw. unfold working_primary, merge_primaries in Hw.
  set (pcs := filter is_primary (m0 :: rest)) in *.
  assert (Hsub : forall c, In c pcs -> In (id c) (ids table)).
  { intros c Hc. unfold pcs in Hc. apply filter_In in Hc as [Hc _].
    rewrite <- Hm in Hc. apply matching_In in Hc as [Hc _].
    now apply in_map. }
  destruct (merging pcs).
  - destruct (sort_by_createdAt pcs) as [|o others] eqn:Hs.
    + apply resolve_result in Hw as [Hw _]. eapply lookup_in_ids; eauto.
    + injection Hw as <-. apply Hsub.
      apply (Permutation_in _ (sort_by_createdAt_perm pcs)).
      rewrite Hs. now left.
  - destruct pcs as [|q l] eqn:Hp.
    + apply resolve_result in Hw as [Hw _]. eapply lookup_in_ids; eauto.
    + injection Hw as <-. apply Hsub. now left.
Qed.

Lemma merge_rows_ids (now : Z) (pcs table : list Contact) :
  ids (merge_rows now pcs table) = ids table.
Proof.
  unfold merge_rows. destruct (merging pcs); auto.
  destruct (sort_by_createdAt pcs); auto. apply demote_in_ids.
Qed.

Lemma merge_rows_links (now : Z) (request : IdentifyRequest)
  (table : list Contact) (c : Contact) (j : Z) :
  In c (merge_rows now (filter is_primary (matching request table)) table) ->
  linkedId c = Some j ->
  In j (ids table)
  \/ exists c0, In c0 table /\ linkedId c0 = Some j.
Proof.
  unfold merge_rows.
  set (pcs := filter is_primary (matching request table)).
  destruct (merging pcs); [|eauto].
  destruct (sort_by_createdAt pcs) as [|o others] eqn:Hs; [eauto|].
  intros Hc Hj. unfold demote_in in Hc. apply in_map_iff in Hc as [c0 [<- Hc0]].
  unfold demote_if in Hj. destruct (existsb _ (map id others)); [|eauto].
  cbn in Hj. injection Hj as <-. left.
  assert (Ho : In o pcs).
  { apply (Permutation_in _ (sort_by_createdAt_perm pcs)). rewrite Hs.
    now left. }
  unfold pcs in Ho. apply filter_In in Ho as [Ho _].
  apply matching_In in Ho as [Ho _]. now apply in_map.
Qed.

(** The table a call leaves: the consolidated table, then nothing, or the
    new primary of a request that matched nothing, or one new secondary
    linked to a row of the table. *)
Lemma serve_shape (now : Z) (request : IdentifyRequest)
  (table : list Contact) :
  let t1 := merge_rows now (filter is_primary (matching request table)) table in
  exists created,
    serve table (now, request) = t1 ++ created
    /\ (created = []
        \/ (valid request = true /\ matching request table = [] /\ t1 = table
            /\ created = [new_row table request None primary now])
        \/ exists p, In (id p) (ids table)
             /\ created = [new_row t1 request (Some (id p)) secondary now]).
Proof.
  intros t1. unfold serve. cbn [fst snd]. rewrite rows_of_outcome.
  destruct (valid request) eqn:Hv.
  - destruct (matching request table) as [|m0 rest] eqn:Hm.
    + rewrite (outcome_no_match _ _ _ Hv Hm). eexists. split.
      * subst t1. cbn. reflexivity.
      * right. left. auto.
    + rewrite (outcome_matched _ _ _ _ _ Hv Hm). unfold matched_outcome.
      fold t1.
      destruct (working_primary now table m0 (filter is_primary (m0 :: rest)))
        as [[p|]|e] eqn:Hw.
      * cbv zeta. destruct (novel request (linked t1 (id p))).
        -- eexists. split; [reflexivity|]. right. right. exists p.
           split; [|reflexivity]. eapply working_primary_in_table; eauto.
        -- exists []. rewrite app_nil_r. auto.
      * exists []. rewrite app_nil_r. auto.
      * exists []. rewrite app_nil_r. auto.
  - rewrite (outcome_invalid _ _ _ Hv). exists []. subst t1.
    rewrite (matching_invalid _ _ Hv). cbn. rewrite app_nil_r. auto.
Qed.

(** A call keeps ids unique and every [linkedId] pointing at a row. *)
Lemma serve_keeps_table_sound (table : list Contact)
  (call : Z * IdentifyRequest) :
  unique_ids table = true -> links_resolve table = true ->
  unique_ids (serve table call) = true
  /\ links_resolve (serve table call) = true.
Proof.
  destruct call as [now request]. intros Hu Hl.
  set (pcs := filter is_primary (matching request table)).
  set (t1 := merge_rows now pcs table).
  assert (Hshape : exists created,
            serve table (now, request) = t1 ++ created
            /\ (created = []
                \/ exists n, created = [n] /\ id n = next_id t1
                     /\ (linkedId n = None
                         \/ exists j, linkedId n = Some j
                                      /\ In j (ids table)))).
  { destruct (serve_shape now request table)
      as [created [Hs [->|[[_ [_ [Ht ->]]]|[p [Hp ->]]]]]];
      fold pcs in Hs; fold t1 in Hs; eexists; (split; [exact Hs|]); auto.
    - right. eexists. split; [reflexivity|]. fold pcs in Ht. fold t1 in Ht.
      rewrite Ht. auto.
    - right. eexists. split; [reflexivity|]. split; [reflexivity|].
      right. exists (id p). split; [reflexivity|exact Hp]. }
  destruct Hshape as [created [-> Hcr]].
  assert (Hids : ids t1 = ids table) by apply merge_rows_ids.
  assert (Hl1 : forall c j, In c t1 -> linkedId c = Some j -> In j (ids table)).
  { intros c j Hc Hj.
    destruct (merge_rows_links now request table c j Hc Hj)
      as [H|[c0 [Hc0 Hj0]]]; auto.
    unfold links_resolve in Hl. rewrite forallb_forall in Hl.
    specialize (Hl c0 Hc0). rewrite Hj0 in Hl. now apply existsb_Zeqb_In. }
  destruct Hcr as [->|[n [-> [Hn Hln]]]].
  - rewrite app_nil_r. split.
    + unfold unique_ids. now rewrite Hids.
    + unfold links_resolve. apply forallb_forall. intros c Hc.
      destruct (linkedId c) as [j|] eqn:Hj; auto.
      apply existsb_Zeqb_In. rewrite Hids. eauto.
  - split.
    + unfold unique_ids, ids. rewrite map_app. apply distinct_NoDup.
      apply NoDup_app; [|repeat constructor; simpl; tauto|].
      * apply distinct_NoDup. fold (ids t1). now rewrite Hids.
      * intros x Hx [<-|[]]. rewrite Hn in Hx. now apply next_id_fresh in Hx.
    + unfold links_resolve. apply forallb_forall. intros c Hc.
      destruct (linkedId c) as [j|] eqn:Hj; auto.
      apply existsb_Zeqb_In. unfold ids. rewrite map_app. apply in_or_app.
      left. fold (ids t1). rewrite Hids.
      apply in_app_or in Hc as [Hc|[<-|[]]]; [eauto|].
      destruct Hln as [Hln|[j' [Hln Hin]]]; congruence.
Qed.

(** ** Primaries that share no field *)

Lemma primaries_apart_spec (table : list Contact) :
  primaries_apart table = true
  <-> (forall a b, In a table -> In b table ->
         is_primary a = true -> is_primary b = true -> id a <> id b ->
         shares a b = false).
Proof.
  unfold primaries_apart. rewrite forallb_forall. split.
  - intros H a b Ha Hb Hpa Hpb Hne. specialize (H a Ha).
    rewrite forallb_forall in H. specialize (H b Hb).
    rewrite Hpa, Hpb in H. apply Z.eqb_neq in Hne. rewrite Hne in H.
    cbn in H. now apply negb_true_iff in H.
  - intros H a Ha. apply forallb_forall. intros b Hb.
    destruct (is_primary a) eqn:Hpa, (is_primary b) eqn:Hpb; auto.
    destruct (Z.eqb_spec (id a) (id b)) as [He|Hne]; auto. cbn.
    now rewrite (H a b Ha Hb Hpa Hpb Hne).
Qed.

Lemma col_eq_str_refl (s : option string) :
  truthy s = true -> col_eq_str s s = true.
Proof. destruct s as [v|]; [intros _; apply String.eqb_refl|discriminate]. Qed.

Lemma col_eq_str_eq (a b : option string) : col_eq_str a b = true -> a = b.
Proof.
  destruct a as [x|], b as [y|]; simpl; try discriminate.
  intros H. apply String.eqb_eq in H. now subst.
Qed.

Lemma matches_email (request : IdentifyRequest) (c : Contact) :
  truthy (request_email request) = true ->
  email c = request_email request -> matches request c = true.
Proof.
  intros Ht He. unfold matches, conditions. rewrite Ht. cbn.
  rewrite He, col_eq_str_refl; auto.
Qed.

Lemma matches_phoneNumber (request : IdentifyRequest) (c : Contact) :
  truthy (request_phoneNumber request) = true ->
  phoneNumber c = request_phoneNumber request -> matches request c = true.
Proof.
  intros Ht He. unfold matches, conditions. rewrite Ht.
  rewrite existsb_app. cbn. rewrite He, col_eq_str_refl; auto.
  now rewrite !orb_true_r.
Qed.

(** A row that shares a field with the row created for a request is
    matched by that request. *)
Lemma shares_new_row (request : IdentifyRequest) (table : list Contact)
  (link : option Z) (precedence : LinkPrecedence) (now : Z) (c : Contact) :
  shares c (new_row table request link precedence now) = true
  \/ shares (new_row table request link precedence now) c = true ->
  matches request c = true.
Proof.
  unfold shares, new_row. cbn [email phoneNumber].
  intros [H|H]; apply orb_prop in H as [H|H];
    apply andb_prop in H as [Ht He]; apply col_eq_str_eq in He.
  - apply matches_email; congruence.
  - apply matches_phoneNumber; congruence.
  - apply matches_email; congruence.
  - apply matches_phoneNumber; congruence.
Qed.

Lemma merge_rows_primary (now : Z) (pcs table : list Contact) (c : Contact) :
  In c (merge_rows now pcs table) -> is_primary c = true -> In c table.
Proof.
  unfold merge_rows. destruct (merging pcs); auto.
  destruct (sort_by_createdAt pcs) as [|o others]; auto.
  unfold demote_in. intros Hc Hp. apply in_map_iff in Hc as [c0 [<- Hc0]].
  unfold demote_if in *. destruct (existsb _ (map id others)); auto.
  discriminate.
Qed.

Lemma serve_keeps_primaries_apart (table : list Contact)
  (call : Z * IdentifyRequest) :
  primaries_apart table = true -> primaries_apart (serve table call) = true.
Proof.
  destruct call as [now request]. rewrite !primaries_apart_spec. intros H.
  destruct (serve_shape now request table)
    as [created [-> [->|[[Hv [Hm [Ht ->]]]|[p [Hp ->]]]]]].
  - rewrite app_nil_r. intros a b Ha Hb Hpa Hpb.
    apply H; eauto using merge_rows_primary.
  - rewrite Ht. intros a b Ha Hb Hpa Hpb Hne.
    assert (Hno : forall c, In c table -> matches request c = false).
    { intros c Hc. destruct (matches request c) eqn:E; auto.
      assert (Hin : In c (matching request table))
        by (apply matching_In; auto).
      rewrite Hm in Hin. destruct Hin. }
    apply in_app_or in Ha as [Ha|[<-|[]]], Hb as [Hb|[<-|[]]].
    + now apply H.
    + destruct (shares a _) eqn:E; auto.
      pose proof (shares_new_row request table None primary now a
                    (or_introl E)) as Ha'.
      rewrite (Hno a Ha) in Ha'. discriminate.
    + destruct (shares _ b) eqn:E; auto.
      pose proof (shares_new_row request table None primary now b
                    (or_intror E)) as Hb'.
      rewrite (Hno b Hb) in Hb'. discriminate.
    + now contradiction Hne.
  - intros a b Ha Hb Hpa Hpb.
    apply in_app_or in Ha as [Ha|[<-|[]]]; [|discriminate].
    apply in_app_or in Hb as [Hb|[<-|[]]]; [|discriminate].
    apply H; eauto using merge_rows_primary.
Qed.

Lemma novel_both_covered (request : IdentifyRequest) (graph : list Contact)
  (x y : Contact) :
  In x graph -> In y graph ->
  email x = request_email request ->
  phoneNumber y = request_phoneNumber request ->
  novel request graph = false.
Proof.
  intros Hx Hy He Hp. apply not_true_iff_false. intros H.
  apply novel_spec in H as [[v [Hv [Hne Hn]]]|[v [Hv [Hne Hn]]]]; apply Hn.
  - unfold existing_emails. apply nodup_In, in_flat_map. exists x.
    split; auto. apply if_truthy_In; congruence.
  - unfold existing_phones. apply nodup_In, in_flat_map. exists y.
    split; auto. apply if_truthy_In; congruence.
Qed.

(** Where no two primaries share a field, the rows merged by a call cover
    the request between them, so a call that merges creates nothing. *)
Lemma merge_covers_request (now : Z) (request : IdentifyRequest)
  (table : list Contact) (oldest : Contact) (others : list Contact) :
  unique_ids table = true ->
  primaries_apart table = true ->
  merging (filter is_primary (matching request table)) = true ->
  sort_by_createdAt (filter is_primary (matching request table))
  = oldest :: others ->
  novel request
    (linked (demote_in now (id oldest) (map id others) table) (id oldest))
  = false.
Proof.
  intros Hu Ha Hg Hsort.
  set (t1 := demote_in now (id oldest) (map id others) table).
  destruct others as [|d others'].
  { unfold merging in Hg. rewrite <- sort_by_createdAt_length, Hsort in Hg.
    discriminate. }
  set (others := d :: others') in *.
  destruct (sorted_in_table request table oldest others Hsort oldest)
    as [Hot [Hop Hom]]; [now left|].
  destruct (sorted_in_table request table oldest others Hsort d)
    as [Hdt [Hdp Hdm]]; [right; now left|].
  assert (Hne : id oldest <> id d).
  { intros He.
    apply (oldest_not_target request table oldest others Hu Hsort).
    rewrite He. now left. }
  pose proof (proj1 (primaries_apart_spec table) Ha) as Hap.
  pose proof (Hap oldest d Hot Hdt Hop Hdp Hne) as Hs.
  set (d' := demote now (id oldest) d).
  assert (Hgo : In oldest (linked t1 (id oldest))).
  { unfold linked, t1.
    rewrite (lookup_oldest now request table oldest others Hu Hsort), Hop.
    now left. }
  assert (Hgd : In d' (linked t1 (id oldest))).
  { unfold linked, t1.
    rewrite (lookup_oldest now request table oldest others Hu Hsort), Hop.
    right. apply filter_In. split.
    - unfold demote_in. apply in_map_iff. exists d. split; auto.
      apply (others_demoted now oldest others d). now left.
    - unfold d', linked_to, is_secondary. cbn. now rewrite Z.eqb_refl. }
  unfold shares in Hs. apply orb_false_elim in Hs as [Hse Hsp].
  destruct (matches_on_field _ _ Hom) as [[Hte Hoe]|[Htp Hop']],
           (matches_on_field _ _ Hdm) as [[Hte' Hde]|[Htp' Hdp']].
  - exfalso. rewrite Hoe, Hde, Hte, col_eq_str_refl in Hse; auto.
    discriminate.
  - apply (novel_both_covered request _ oldest d'); auto.
  - apply (novel_both_covered request _ d' oldest); auto.
  - exfalso. rewrite Hop', Hdp', Htp, col_eq_str_refl in Hsp; auto.
    discriminate.
Qed.

(** ** One commit per call *)

Lemma commits_at_most_once (now : Z) (request : IdentifyRequest)
  (table : list Contact) :
  unique_ids table = true ->
  primaries_apart table = true ->
  (length (snd (outcome now request table)) <= 1)%nat.
Proof.
  intros Hu Ha.
  destruct (merging (filter is_primary (matching request table))) eqn:Hg.
  - destruct (sort_by_createdAt (filter is_primary (matching request table)))
      as [|oldest others] eqn:Hsort.
    { apply sort_by_createdAt_nil in Hsort. rewrite Hsort in Hg.
      discriminate. }
    rewrite (outcome_merge now request table oldest others Hsort Hg).
    cbv zeta.
    rewrite (merge_covers_request now request table oldest others
               Hu Ha Hg Hsort).
    cbn. auto.
  - destruct (outcome_shape now request table) as [created [Hl [_ [Hc _]]]].
    rewrite Hc, Hg. destruct created as [|c created]; cbn; auto.
Qed.

(** Every table reached from the empty one by calls of [identify], one
    after the other, has unique ids, no dangling [linkedId], and no two
    primaries sharing a field. *)
Lemma built_tables_sound (calls : list (Z * IdentifyRequest)) :
  unique_ids (fold_left serve calls []) = true
  /\ links_resolve (fold_left serve calls []) = true
  /\ primaries_apart (fold_left serve calls []) = true.
Proof.
  assert (H : forall table, unique_ids table = true ->
              links_resolve table = true ->
              primaries_apart table = true ->
              unique_ids (fold_left serve calls table) = true
              /\ links_resolve (fold_left serve calls table) = true
              /\ primaries_apart (fold_left serve calls table) = true).
  { induction calls as [|call calls IH]; intros table Hu Hl Ha; simpl; auto.
    destruct (serve_keeps_table_sound table call Hu Hl).
    apply IH; auto. now apply serve_keeps_primaries_apart. }
  now apply H.
Qed.


(** ** Commits *)

(** C7, as the code has it: the side effects of a call are zero or one row
    created plus the demotions of the consolidation step, which happen only
    when more than one matched row is primary.  The demotions are committed
    together by one commit; the created row, when there is one, is
    committed by a later commit of its own; nothing else is committed, and
    the table the call leaves is the last table committed, or the table it
    started from when nothing was.  On a table with unique ids in which no
    two primaries share an email or a phone number, a call that demotes
    creates nothing, so the call commits at most once. *)
Theorem identify_commits (now : Z) (request : IdentifyRequest)
  (table : list Contact) :
  let pcs := filter is_primary (matching request table) in
  let t1 := merge_rows now pcs table in
  exists created : list Contact,
    (length created <= 1)%nat
    /\ snd (fst (outcome now request table)) = t1 ++ created
    /\ snd (outcome now request table)
       = (if merging pcs then [t1] else [])
         ++ match created with [] => [] | _ :: _ => [t1 ++ created] end
    /\ (merging pcs = false -> t1 = table)
    /\ (merging pcs = true ->
        exists oldest others,
          sort_by_createdAt pcs = oldest :: others
          /\ t1 = demote_in now (id oldest) (map id others) table)
    /\ last (snd (outcome now request table)) table
       = snd (fst (outcome now request table))
    /\ (unique_ids table = true -> primaries_apart table = true ->
        (length (snd (outcome now request table)) <= 1)%nat).
Proof.
  intros pcs t1.
  destruct (outcome_shape now request table) as [created [Hl [Hr [Hc _]]]].
  fold pcs t1 in Hr, Hc.
  exists created. split; [assumption|]. split; [assumption|].
  split; [assumption|]. split; [apply merge_rows_not_merging|]. split.
  - intros Hg. subst t1. unfold merge_rows. rewrite Hg.
    destruct (sort_by_createdAt pcs) as [|o others] eqn:Hs.
    + apply sort_by_createdAt_nil in Hs. rewrite Hs in Hg. discriminate.
    + now exists o, others.
  - split.
    + rewrite Hc, Hr. destruct created as [|c created].
      * rewrite !app_nil_r. destruct (merging pcs) eqn:Hg; [reflexivity|].
        cbn. symmetry. now apply merge_rows_not_merging.
      * now rewrite last_last.
    + intros Hu Ha. apply commits_at_most_once; assumption.
Qed.


(** * Further properties of the helpers and of [identify] *)

(** ** [find_primary_contact] *)

(** X1: [find_primary_contact], run with room for [fuel] nested calls and
    started at [contact_id], returns the row [p] exactly when [contact_id]
    is an id from which following [linkedId] through fewer than [fuel]
    secondaries arrives at the primary [p]; it returns [None] exactly when
    the links end, after fewer than [fuel] secondaries, at a NULL
    [linkedId] or at an id that no row has; and it raises RecursionError,
    and nothing else, exactly when at least [fuel] secondaries follow one
    another. *)
Theorem find_primary_contact_iff_ultimate_primary (fuel : nat) (s : Session)
  (contact_id : option Z) :
  (forall p,
     fst (find_primary_contact fuel contact_id s) = Ok (Some p)
     <-> exists i n,
           contact_id = Some i /\ (n < fuel)%nat
           /\ ultimate_primary (rows s) i n p)
  /\ (fst (find_primary_contact fuel contact_id s) = Ok None
      <-> exists n, (n < fuel)%nat /\ dead_end (rows s) contact_id n)
  /\ (forall e,
        fst (find_primary_contact fuel contact_id s) = Raise e
        <-> e = RecursionError
            /\ secondaries_ahead (rows s) contact_id fuel).
Proof.
  destruct (find_primary_contact_run fuel contact_id s) as [k ->].
  cbn [fst]. split; [|split].
  - intros p. split; [apply resolve_ultimate|].
    intros [i [n [-> [Hlt Hu]]]]. now apply (ultimate_primary_found _ _ n).
  - split; [apply resolve_dead_end|].
    intros [n [Hlt Hd]]. now apply (dead_end_found _ _ n).
  - intros e. split; [apply resolve_raise|].
    intros [-> Ha]. now apply secondaries_ahead_resolve.
Qed.

Lemma find_primary_contact_selects (fuel : nat) :
  forall (contact_id : option Z) (s : Session),
  exists n,
    (n <= fuel)%nat
    /\ snd (find_primary_contact fuel contact_id s)
       = mkSession (rows s) (log s ++ repeat Select n).
Proof.
  induction fuel as [|fuel IH]; intros contact_id s.
  - exists O. split; auto. simpl. rewrite app_nil_r. now destruct s.
  - simpl. unfold bind, query_first.
    destruct (find (id_eq contact_id) (rows s)) as [c|] eqn:Hf.
    + destruct (is_primary c).
      * exists 1%nat. split; [lia|reflexivity].
      * destruct (IH (linkedId c) (emit Select s)) as [n [Hle Hn]].
        exists (S n). split; [lia|]. rewrite Hn. simpl.
        now rewrite <- app_assoc.
    + exists 1%nat. split; [lia|reflexivity].
Qed.

(** X2: the two helpers only read.  Whatever the arguments, they leave the
    rows as they are and add nothing but SELECTs to the statement log: at
    most one per unit of recursion for [find_primary_contact], at most two
    for [get_all_linked_contacts]; neither commits, and
    [get_all_linked_contacts] always returns a list. *)
Theorem helpers_only_read (fuel : nat) (contact_id : option Z)
  (primary_id : Z) (s : Session) :
  (exists n,
     (n <= fuel)%nat
     /\ snd (find_primary_contact fuel contact_id s)
        = mkSession (rows s) (log s ++ repeat Select n))
  /\ (exists n,
        (n <= 2)%nat
        /\ snd (get_all_linked_contacts primary_id s)
           = mkSession (rows s) (log s ++ repeat Select n))
  /\ commits (log (snd (find_primary_contact fuel contact_id s)))
     = commits (log s)
  /\ commits (log (snd (get_all_linked_contacts primary_id s)))
     = commits (log s)
  /\ (exists l, fst (get_all_linked_contacts primary_id s) = Ok l).
Proof.
  destruct (find_primary_contact_selects fuel contact_id s) as [n [Hn Hs]].
  assert (Hg : exists m,
             (m <= 2)%nat
             /\ get_all_linked_contacts primary_id s
                = (Ok (linked (rows s) primary_id),
                   mkSession (rows s) (log s ++ repeat Select m))).
  { unfold get_all_linked_contacts, linked, lookup, bind, query_first.
    destruct (find (id_eq (Some primary_id)) (rows s)) as [c|].
    - destruct (negb (is_primary c)).
      + exists 1%nat. split; [lia|reflexivity].
      + exists 2%nat. split; [lia|]. unfold query_all, ret, emit.
        cbn [rows log repeat]. now rewrite <- app_assoc.
    - exists 1%nat. split; [lia|reflexivity]. }
  destruct Hg as [m [Hm Hg]].
  split; [exists n; split; assumption|].
  split; [exists m; split; [assumption|now rewrite Hg]|].
  split; [|split].
  - rewrite Hs. cbn [log]. now rewrite commits_app, commits_selects, app_nil_r.
  - rewrite Hg. cbn [snd log].
    now rewrite commits_app, commits_selects, app_nil_r.
  - rewrite Hg. eexists. reflexivity.
Qed.

(** ** [get_all_linked_contacts] *)

(** X3: [get_all_linked_contacts] returns the empty list when the id is the
    id of no row or of a row that is not primary; otherwise it returns the
    primary first and then exactly the rows of the table that are secondary
    and carry that id as [linkedId], in table order.  A row linked to one of
    those secondaries is not returned. *)
Theorem get_all_linked_contacts_direct_links (primary_id : Z) (s : Session) :
  exists l,
    fst (get_all_linked_contacts primary_id s) = Ok l
    /\ (lookup (rows s) primary_id = None -> l = [])
    /\ (forall p, lookup (rows s) primary_id = Some p ->
                 is_primary p = false -> l = [])
    /\ (forall p, lookup (rows s) primary_id = Some p ->
                 is_primary p = true ->
                 exists tail,
                   l = p :: tail
                   /\ tail = filter (fun c => linked_to primary_id c
                                              && is_secondary c) (rows s)
                   /\ forall c, In c tail
                                <-> In c (rows s)
                                    /\ is_primary c = false
                                    /\ linkedId c = Some primary_id).
Proof.
  destruct (get_all_linked_contacts_run primary_id s) as [n ->]. cbn [fst].
  exists (linked (rows s) primary_id). split; [reflexivity|].
  unfold linked. split; [now intros ->|]. split.
  - intros p -> ->. reflexivity.
  - intros p -> ->. cbn [negb]. eexists. split; [reflexivity|].
    split; [reflexivity|]. intros c. rewrite filter_In, andb_true_iff.
    rewrite is_secondary_not_primary, negb_true_iff. unfold linked_to.
    split.
    + intros [Hin [Hl Hp]]. repeat split; auto.
      destruct (linkedId c) as [j|]; [|discriminate].
      apply Z.eqb_eq in Hl. now subst.
    + intros [Hin [Hp Hl]]. rewrite Hl, Z.eqb_refl. auto.
Qed.

(** ** Lookups that fail inside [identify] *)

(** X4: when every matched row is secondary and the links from the first
    row the query returned end, after a number of secondaries that the
    recursion limit allows, at a NULL [linkedId] or at an id that no row
    has, [identify] fails with AttributeError (the attribute access on
    [None] at line 145, an unhandled error and not the 400 answer); the
    table is left as it was and nothing is committed. *)
Theorem identify_dead_end_raises_attribute_error (now : Z)
  (request : IdentifyRequest) (table : list Contact)
  (m0 : Contact) (rest : list Contact) (n : nat) :
  valid request = true ->
  matching request table = m0 :: rest ->
  filter is_primary (m0 :: rest) = [] ->
  dead_end table (linkedId m0) n ->
  (n < recursion_depth)%nat ->
  outcome now request table = (Raise AttributeError, table, []).
Proof.
  intros Hv Hm Hs Hd Hlt. rewrite (outcome_all_secondary _ _ _ _ _ Hv Hm Hs).
  now rewrite (dead_end_found _ _ _ _ Hd Hlt).
Qed.

(** X5: when every matched row is secondary and, from the first row the
    query returned, at least as many secondaries follow one another as the
    recursion limit allows nested calls, [identify] fails with
    RecursionError, the table is left as it was and nothing is committed.
    This is so whatever the limit when the first row's [linkedId] leads
    into a set of ids each of which is the id of a secondary linked to
    another id of the set (a loop of links). *)
Theorem identify_link_loop_raises_recursion_error (now : Z)
  (request : IdentifyRequest) (table : list Contact)
  (m0 : Contact) (rest : list Contact) :
  valid request = true ->
  matching request table = m0 :: rest ->
  filter is_primary (m0 :: rest) = [] ->
  (secondaries_ahead table (linkedId m0) recursion_depth ->
   outcome now request table = (Raise RecursionError, table, []))
  /\ (forall (i : Z) (inside : Z -> Prop),
        linkedId m0 = Some i ->
        inside i ->
        (forall k, inside k ->
           exists c j, lookup table k = Some c /\ is_primary c = false
                       /\ linkedId c = Some j /\ inside j) ->
        outcome now request table = (Raise RecursionError, table, [])).
Proof.
  intros Hv Hm Hs.
  assert (H : secondaries_ahead table (linkedId m0) recursion_depth ->
              outcome now request table = (Raise RecursionError, table, [])).
  { intros Ha. rewrite (outcome_all_secondary _ _ _ _ _ Hv Hm Hs).
    now rewrite (secondaries_ahead_resolve _ _ _ Ha). }
  split; [exact H|].
  intros i inside Hi Hin Hclosed. apply H. rewrite Hi.
  now apply (loop_secondaries_ahead table inside Hclosed).
Qed.

(** ** What the answer holds *)

Lemma in_if_truthy (x : string) (s : option string) :
  In x (if_truthy s) <-> s = Some x /\ x <> EmptyString.
Proof.
  unfold if_truthy, truthy. destruct s as [v|]; [|simpl; split; [easy|]].
  - destruct (String.eqb_spec v EmptyString) as [->|Hne]; simpl.
    + split; [easy|]. intros [[= ->] H]. now apply H.
    + split.
      * intros [->|[]]. auto.
      * intros [[= ->] _]. now left.
  - intros [[=] _].
Qed.

Lemma in_existing_emails (x : string) (l : list Contact) :
  In x (existing_emails l)
  <-> exists c, In c l /\ email c = Some x /\ x <> EmptyString.
Proof.
  unfold existing_emails. rewrite nodup_In, in_flat_map.
  split; intros [c [Hc H]]; exists c; split; auto; now apply in_if_truthy.
Qed.

Lemma in_existing_phones (x : string) (l : list Contact) :
  In x (existing_phones l)
  <-> exists c, In c l /\ phoneNumber c = Some x /\ x <> EmptyString.
Proof.
  unfold existing_phones. rewrite nodup_In, in_flat_map.
  split; intros [c [Hc H]]; exists c; split; auto; now apply in_if_truthy.
Qed.

Lemma not_novel_email (request : IdentifyRequest) (graph : list Contact)
  (x : string) :
  novel request graph = false ->
  request_email request = Some x -> x <> EmptyString ->
  In x (existing_emails graph).
Proof.
  intros Hn He Hx. unfold novel in Hn. apply orb_false_elim in Hn as [Hn _].
  rewrite He in Hn. unfold truthy_and_not_in, truthy in Hn.
  destruct (String.eqb_spec x EmptyString); [contradiction|]. cbn in Hn.
  apply negb_false_iff in Hn. now apply existsb_eqb_In.
Qed.

Lemma not_novel_phone (request : IdentifyRequest) (graph : list Contact)
  (x : string) :
  novel request graph = false ->
  request_phoneNumber request = Some x -> x <> EmptyString ->
  In x (existing_phones graph).
Proof.
  intros Hn He Hx. unfold novel in Hn. apply orb_false_elim in Hn as [_ Hn].
  rewrite He in Hn. unfold truthy_and_not_in, truthy in Hn.
  destruct (String.eqb_spec x EmptyString); [contradiction|]. cbn in Hn.
  apply negb_false_iff in Hn. now apply existsb_eqb_In.
Qed.

(** The two ways a call answers: with the new primary of a request that
    matched nothing, or with the graph of the working primary, extended by
    the secondary the novelty check asked for. *)
Lemma answer_cases (now : Z) (request : IdentifyRequest)
  (table : list Contact) (response : ContactResponse) :
  fst (run_identify now request table) = Ok response ->
  (valid request = true /\ matching request table = []
   /\ response = {| primaryContactId := next_id table;
                    emails := if_truthy (request_email request);
                    phoneNumbers := if_truthy (request_phoneNumber request);
                    secondaryContactIds := [] |}
   /\ rows (snd (run_identify now request table))
      = table ++ [new_row table request None primary now])
  \/ exists m0 rest p,
       valid request = true /\ matching request table = m0 :: rest
       /\ working_primary now table m0 (filter is_primary (m0 :: rest))
          = Ok (Some p)
       /\ let t1 := merge_rows now (filter is_primary (m0 :: rest)) table in
          let graph := linked t1 (id p) in
          let created :=
            if novel request graph
            then [new_row t1 request (Some (id p)) secondary now] else [] in
          response = respond p (graph ++ created)
          /\ rows (snd (run_identify now request table)) = t1 ++ created.
Proof.
  change (fst (run_identify now request table))
    with (fst (fst (outcome now request table))).
  rewrite rows_of_outcome.
  destruct (valid request) eqn:Hv.
  2:{ rewrite (outcome_invalid _ _ _ Hv). discriminate. }
  destruct (matching request table) as [|m0 rest] eqn:Hm.
  - rewrite (outcome_no_match _ _ _ Hv Hm). cbn [fst snd].
    intros [= <-]. left. auto.
  - rewrite (outcome_matched _ _ _ _ _ Hv Hm). unfold matched_outcome.
    destruct (working_primary now table m0 (filter is_primary (m0 :: rest)))
      as [[p|]|e] eqn:Hw; try discriminate.
    cbv zeta. intros H. right. exists m0, rest, p.
    split; [reflexivity|]. split; [reflexivity|]. split; [exact Hw|].
    destruct (novel request _); cbn [fst snd] in *; injection H as <-;
      rewrite ?app_nil_r; auto.
Qed.

(** X6: whenever [identify] answers, the answer holds the request: a
    non-empty email of the request is among [emails] and a non-empty
    phoneNumber among [phoneNumbers], whatever the table. *)
Theorem answer_holds_request (now : Z) (request : IdentifyRequest)
  (table : list Contact) (response : ContactResponse) :
  fst (run_identify now request table) = Ok response ->
  (forall v, request_email request = Some v -> v <> EmptyString ->
             In v (emails response))
  /\ (forall v, request_phoneNumber request = Some v -> v <> EmptyString ->
                In v (phoneNumbers response)).
Proof.
  intros H.
  destruct (answer_cases _ _ _ _ H)
    as [[_ [_ [-> _]]]|[m0 [rest [p [_ [_ [_ Hr]]]]]]].
  - cbn. split; intros v Hv Hne; now apply in_if_truthy.
  - cbv zeta in Hr. destruct Hr as [-> _]. cbn [emails phoneNumbers respond].
    destruct (novel request _) eqn:Hn.
    + split; intros v Hv Hne.
      * apply in_existing_emails. eexists. split.
        -- apply in_or_app. right. now left.
        -- auto.
      * apply in_existing_phones. eexists. split.
        -- apply in_or_app. right. now left.
        -- auto.
    + rewrite app_nil_r. split; intros v Hv Hne.
      * eapply not_novel_email; eauto.
      * eapply not_novel_phone; eauto.
Qed.

(** X7: when a request matches rows and the working primary [p] is found
    (the oldest matched primary, or else the primary that the first row
    the query returned leads to), the answer names [p], its emails are the non-empty emails of the rows
    of [p]'s graph (read after the consolidation step) together with the
    request's non-empty email and nothing else, likewise for the phone
    numbers, and its secondary ids are those of the graph followed by the
    id of the new row when one is created. *)
Theorem answer_extends_graph (now : Z) (request : IdentifyRequest)
  (table : list Contact) (m0 : Contact) (rest : list Contact) (p : Contact) :
  valid request = true ->
  matching request table = m0 :: rest ->
  working_primary now table m0 (filter is_primary (m0 :: rest))
  = Ok (Some p) ->
  let t1 := merge_rows now (filter is_primary (m0 :: rest)) table in
  let graph := linked t1 (id p) in
  exists response,
    fst (run_identify now request table) = Ok response
    /\ primaryContactId response = id p
    /\ (forall x, In x (emails response)
                  <-> In x (existing_emails graph)
                      \/ (request_email request = Some x
                          /\ x <> EmptyString))
    /\ (forall x, In x (phoneNumbers response)
                  <-> In x (existing_phones graph)
                      \/ (request_phoneNumber request = Some x
                          /\ x <> EmptyString))
    /\ secondaryContactIds response
       = map id (filter is_secondary graph)
         ++ (if novel request graph then [next_id t1] else []).
Proof.
  intros Hv Hm Hw t1 graph.
  change (fst (run_identify now request table))
    with (fst (fst (outcome now request table))).
  rewrite (outcome_matched _ _ _ _ _ Hv Hm). unfold matched_outcome.
  rewrite Hw. cbv zeta. fold t1 graph.
  destruct (novel request graph) eqn:Hn; cbn [fst];
    (eexists; split; [reflexivity|]); split; try reflexivity.
  - cbn [emails phoneNumbers secondaryContactIds respond]. split; [|split].
    + intros x. rewrite !in_existing_emails. split.
      * intros [c [Hc [He Hx]]]. apply in_app_or in Hc as [Hc|[<-|[]]].
        -- left. eauto.
        -- right. auto.
      * intros [[c [Hc [He Hx]]]|[He Hx]].
        -- exists c. split; auto. apply in_or_app. now left.
        -- eexists. split; [apply in_or_app; right; now left|]. auto.
    + intros x. rewrite !in_existing_phones. split.
      * intros [c [Hc [He Hx]]]. apply in_app_or in Hc as [Hc|[<-|[]]].
        -- left. eauto.
        -- right. auto.
      * intros [[c [Hc [He Hx]]]|[He Hx]].
        -- exists c. split; auto. apply in_or_app. now left.
        -- eexists. split; [apply in_or_app; right; now left|]. auto.
    + rewrite filter_app, map_app. reflexivity.
  - cbn [emails phoneNumbers secondaryContactIds respond]. split; [|split].
    + intros x. split; [auto|].
      intros [H|[He Hx]]; auto. eapply not_novel_email; eauto.
    + intros x. split; [auto|].
      intros [H|[He Hx]]; auto. eapply not_novel_phone; eauto.
    + now rewrite app_nil_r.
Qed.

(** ** The answer and the table the call leaves *)

Lemma working_primary_row (now : Z) (request : IdentifyRequest)
  (table : list Contact) (m0 : Contact) (rest : list Contact) (p : Contact) :
  unique_ids table = true ->
  matching request table = m0 :: rest ->
  working_primary now table m0 (filter is_primary (m0 :: rest)) = Ok (Some p) ->
  lookup (merge_rows now (filter is_primary (m0 :: rest)) table) (id p)
  = Some p
  /\ is_primary p = true.
Proof.
  intros Hu Hm Hw.
  destruct (merging (filter is_primary (m0 :: rest))) eqn:Hg.
  - rewrite <- Hm in *.
    destruct (sort_by_createdAt (filter is_primary (matching request table)))
      as [|oldest others] eqn:Hsort.
    { apply sort_by_createdAt_nil in Hsort. rewrite Hsort in Hg.
      discriminate. }
    unfold working_primary, merge_primaries in Hw. rewrite Hg, Hsort in Hw.
    injection Hw as <-.
    rewrite (merging_sorted now request table oldest others Hsort Hg).
    split.
    + now apply (lookup_oldest now request table oldest others).
    + apply (sorted_in_table request table oldest others Hsort). now left.
  - rewrite (merge_rows_not_merging _ _ _ Hg).
    eapply working_primary_found; eauto.
Qed.

Lemma linked_with_created (t1 : list Contact) (p : Contact)
  (request : IdentifyRequest) (now : Z) (created : list Contact) :
  lookup t1 (id p) = Some p ->
  is_primary p = true ->
  created = [] \/ created = [new_row t1 request (Some (id p)) secondary now] ->
  linked (t1 ++ created) (id p) = linked t1 (id p) ++ created.
Proof.
  intros Hl Hp [->| ->].
  - now rewrite !app_nil_r.
  - apply linked_app; auto.
    unfold new_row, linked_to, is_secondary. cbn. now rewrite Z.eqb_refl.
Qed.

Lemma linked_new_primary (table : list Contact) (request : IdentifyRequest)
  (now : Z) :
  links_resolve table = true ->
  let n := new_row table request None primary now in
  lookup (table ++ [n]) (id n) = Some n
  /\ linked (table ++ [n]) (id n) = [n].
Proof.
  intros Hl n.
  assert (Hlk : lookup (table ++ [n]) (id n) = Some n).
  { rewrite lookup_app.
    rewrite (lookup_absent table (id n)) by apply next_id_fresh.
    unfold lookup. cbn [find id_eq id n new_row]. now rewrite Z.eqb_refl. }
  split; [exact Hlk|]. unfold linked. rewrite Hlk.
  cbn [is_primary linkPrecedence negb n new_row]. f_equal.
  rewrite filter_app. cbn [id]. rewrite (nothing_linked_to_next_id _ _ Hl).
  reflexivity.
Qed.

(** On a table with unique ids and no dangling [linkedId], the answer of a
    call is [respond] applied to a primary row of the table the call leaves
    and to that row's graph in that table. *)
Lemma answer_view (now : Z) (request : IdentifyRequest)
  (table : list Contact) (response : ContactResponse) :
  unique_ids table = true ->
  links_resolve table = true ->
  fst (run_identify now request table) = Ok response ->
  let final := rows (snd (run_identify now request table)) in
  exists p,
    lookup final (id p) = Some p
    /\ is_primary p = true
    /\ response = respond p (linked final (id p)).
Proof.
  intros Hu Hl H final. subst final.
  destruct (answer_cases _ _ _ _ H)
    as [[_ [_ [-> ->]]]|[m0 [rest [p [_ [Hm [Hw Hr]]]]]]].
  - destruct (linked_new_primary table request now Hl) as [Hlk Hg].
    eexists. split; [exact Hlk|]. split; [reflexivity|]. rewrite Hg.
    unfold respond, existing_emails, existing_phones. cbn [flat_map].
    now rewrite !nodup_if_truthy.
  - cbv zeta in Hr. destruct Hr as [-> ->].
    destruct (working_primary_row _ _ _ _ _ _ Hu Hm Hw) as [Hlk Hp].
    exists p. rewrite lookup_app, Hlk. split; [reflexivity|].
    split; [exact Hp|]. f_equal. symmetry.
    apply (linked_with_created _ _ request now); auto.
    destruct (novel request _); auto.
Qed.

Lemma filter_secondary_linked (i : Z) (p : Contact) (l : list Contact) :
  is_primary p = true ->
  filter is_secondary
    (p :: filter (fun c => linked_to i c && is_secondary c) l)
  = filter (fun c => linked_to i c && is_secondary c) l.
Proof.
  intros Hp. cbn [filter]. rewrite is_secondary_not_primary, Hp. cbn [negb].
  induction l as [|x l IH]; [reflexivity|]. cbn [filter].
  destruct (linked_to i x && is_secondary x) eqn:E; auto.
  cbn [filter]. apply andb_prop in E as [_ E]. rewrite E. now rewrite IH.
Qed.

(** X8: on a table with unique ids and no dangling [linkedId], an answer
    describes the table the call leaves: [primaryContactId] is the id of a
    row that is primary there, [secondaryContactIds] are, in table order,
    the ids of the rows that are secondary there and directly linked to it,
    and [emails] and [phoneNumbers] are the non-empty values of that
    primary and those rows.  Rows linked to one of those secondaries are
    not part of the answer. *)
Theorem answer_describes_final_table (now : Z) (request : IdentifyRequest)
  (table : list Contact) (response : ContactResponse) :
  unique_ids table = true ->
  links_resolve table = true ->
  fst (run_identify now request table) = Ok response ->
  let final := rows (snd (run_identify now request table)) in
  let direct :=
    filter (fun c => linked_to (primaryContactId response) c
                     && is_secondary c) final in
  exists p,
    lookup final (primaryContactId response) = Some p
    /\ is_primary p = true
    /\ secondaryContactIds response = map id direct
    /\ emails response = existing_emails (p :: direct)
    /\ phoneNumbers response = existing_phones (p :: direct)
    /\ (forall c, In c final ->
                 linkedId c <> Some (primaryContactId response) ->
                 ~ In (id c) (secondaryContactIds response)).
Proof.
  intros Hu Hl H final direct.
  assert (Huf : unique_ids final = true).
  { apply (serve_keeps_table_sound table (now, request) Hu Hl). }
  destruct (answer_view _ _ _ _ Hu Hl H) as [p [Hlk [Hp ->]]].
  fold final in Hlk. subst direct. cbn [primaryContactId respond].
  exists p. split; [exact Hlk|]. split; [exact Hp|].
  unfold linked. fold final. rewrite Hlk, Hp. cbn [negb].
  unfold respond. cbn [secondaryContactIds emails phoneNumbers].
  rewrite filter_secondary_linked by exact Hp.
  repeat (split; [reflexivity|]).
  intros c Hc Hne Hin. apply in_map_iff in Hin as [d [Hd Hin]].
  apply filter_In in Hin as [Hin Hs]. apply andb_prop in Hs as [Hs _].
  assert (d = c) by (eapply unique_ids_eq; eauto). subst d.
  unfold linked_to in Hs. destruct (linkedId c) as [j|]; [|discriminate].
  apply Z.eqb_eq in Hs. now subst.
Qed.

(** X9: an answer is well formed.  [emails] and [phoneNumbers] hold no
    value twice and never the empty string; and on a table with unique ids
    and no dangling [linkedId], [secondaryContactIds] holds no id twice and
    never the id given as [primaryContactId]. *)
Theorem answer_well_formed (now : Z) (request : IdentifyRequest)
  (table : list Contact) (response : ContactResponse) :
  fst (run_identify now request table) = Ok response ->
  NoDup (emails response)
  /\ ~ In EmptyString (emails response)
  /\ NoDup (phoneNumbers response)
  /\ ~ In EmptyString (phoneNumbers response)
  /\ (unique_ids table = true -> links_resolve table = true ->
      NoDup (secondaryContactIds response)
      /\ ~ In (primaryContactId response) (secondaryContactIds response)).
Proof.
  intros H.
  assert (Hif : forall s, NoDup (if_truthy s) /\ ~ In EmptyString (if_truthy s)).
  { intros s. split.
    - unfold if_truthy. destruct s as [v|]; [|constructor].
      destruct (truthy (Some v)); repeat constructor. easy.
    - intros Hin. apply in_if_truthy in Hin as [_ Hne]. now apply Hne. }
  assert (Hvalues :
            NoDup (emails response) /\ ~ In EmptyString (emails response)
            /\ NoDup (phoneNumbers response)
            /\ ~ In EmptyString (phoneNumbers response)).
  { destruct (answer_cases _ _ _ _ H)
      as [[_ [_ [-> _]]]|[m0 [rest [p [_ [_ [_ Hr]]]]]]].
    - cbn. destruct (Hif (request_email request)),
                     (Hif (request_phoneNumber request)). auto.
    - cbv zeta in Hr. destruct Hr as [-> _]. cbn [emails phoneNumbers respond].
      repeat split.
      + apply NoDup_nodup.
      + intros Hin. apply in_existing_emails in Hin as [c [_ [_ Hne]]].
        now apply Hne.
      + apply NoDup_nodup.
      + intros Hin. apply in_existing_phones in Hin as [c [_ [_ Hne]]].
        now apply Hne. }
  destruct Hvalues as [H1 [H2 [H3 H4]]]. repeat (split; [assumption|]).
  intros Hu Hl.
  destruct (answer_view _ _ _ _ Hu Hl H) as [p [Hlk [Hp ->]]].
  set (final := rows (snd (run_identify now request table))) in *.
  assert (Huf : unique_ids final = true).
  { apply (serve_keeps_table_sound table (now, request) Hu Hl). }
  cbn [primaryContactId secondaryContactIds respond].
  unfold linked. rewrite Hlk, Hp. cbn [negb].
  rewrite filter_secondary_linked by exact Hp. split.
  - apply NoDup_map_filter. now apply distinct_NoDup.
  - intros Hin. apply in_map_iff in Hin as [c [Hc Hin]].
    apply filter_In in Hin as [Hin Hs]. apply andb_prop in Hs as [_ Hs].
    apply lookup_some in Hlk as [Hpin _].
    assert (c = p) by (eapply unique_ids_eq; eauto). subst c.
    rewrite is_secondary_not_primary, Hp in Hs. discriminate.
Qed.

(** ** What a call does to the rows it finds *)

Lemma demote_if_identity (now oid : Z) (targets : list Z) (c : Contact) :
  identity_of (demote_if now oid targets c) = identity_of c.
Proof. unfold demote_if. now destruct (existsb _ targets). Qed.

Lemma merge_rows_identity (now : Z) (pcs table : list Contact) :
  map identity_of (merge_rows now pcs table) = map identity_of table.
Proof.
  unfold merge_rows. destruct (merging pcs); auto.
  destruct (sort_by_createdAt pcs) as [|o others]; auto.
  unfold demote_in. rewrite map_map. apply map_ext.
  intros x. apply demote_if_identity.
Qed.

(** X10: a call never deletes or reorders rows and never changes the id,
    email, phoneNumber, createdAt or deletedAt of a row: the table it
    leaves starts with the rows it found, in the same order and with those
    columns unchanged, followed by at most one new row, which carries the
    request's email and phoneNumber, the next id, and the call's clock in
    createdAt and updatedAt. *)
Theorem rows_keep_identity (now : Z) (request : IdentifyRequest)
  (table : list Contact) :
  let final := serve table (now, request) in
  map identity_of (firstn (length table) final) = map identity_of table
  /\ (length table <= length final <= S (length table))%nat
  /\ Forall (fun n => id n = next_id table
                      /\ email n = request_email request
                      /\ phoneNumber n = request_phoneNumber request
                      /\ createdAt n = now /\ updatedAt n = now)
            (skipn (length table) final).
Proof.
  intros final. subst final. unfold serve. cbn [fst snd].
  rewrite rows_of_outcome.
  destruct (outcome_shape now request table) as [created [Hl [-> [_ Hf]]]].
  set (t1 := merge_rows now (filter is_primary (matching request table)) table)
    in *.
  assert (Hlen : length t1 = length table) by apply merge_rows_length.
  rewrite <- Hlen at 1 3 4.
  rewrite firstn_app, Nat.sub_diag, firstn_all, firstn_O, app_nil_r.
  rewrite skipn_app, Nat.sub_diag, skipn_all, skipn_O. cbn [app].
  split; [apply merge_rows_identity|]. split.
  - rewrite length_app. lia.
  - replace (next_id table) with (next_id t1); [exact Hf|].
    unfold next_id. f_equal.
    pose proof (merge_rows_ids now (filter is_primary (matching request table))
                  table) as Hids.
    fold t1 in Hids. unfold ids in Hids.
    assert (Hfold : forall l : list Contact,
              fold_right (fun c m => Z.max (id c) m) 0 l
              = fold_right Z.max 0 (map id l)).
    { induction l as [|x l IH]; simpl; auto. now rewrite IH. }
    now rewrite !Hfold, Hids.
Qed.

(** X11: demotion goes one way and touches nothing else.  On a table with
    unique ids, the row a call leaves at a position is the row it found
    there, or that row was a matched primary and is now its demotion: a
    secondary with a [linkedId], [updatedAt] set to the call's clock and the
    other columns as before.  So a secondary is never rewritten and never
    becomes primary, and a row that is primary after the call is as it was
    before. *)
Theorem demotion_is_one_way (now : Z) (request : IdentifyRequest)
  (table : list Contact) (k : nat) (c : Contact) :
  unique_ids table = true ->
  nth_error table k = Some c ->
  exists c',
    nth_error (serve table (now, request)) k = Some c'
    /\ (c' = c
        \/ (is_primary c = true /\ matches request c = true
            /\ merging (filter is_primary (matching request table)) = true
            /\ exists oldest_id, c' = demote now oldest_id c))
    /\ (is_primary c = false -> c' = c)
    /\ (is_primary c' = true -> c' = c).
Proof.
  intros Hu Hk.
  assert (Hcases : exists c',
            nth_error (serve table (now, request)) k = Some c'
            /\ (c' = c
                \/ (is_primary c = true /\ matches request c = true
                    /\ merging (filter is_primary (matching request table))
                       = true
                    /\ exists oldest_id, c' = demote now oldest_id c))).
  { destruct (serve_shape now request table) as [created [-> _]].
    set (pcs := filter is_primary (matching request table)).
    assert (Hlt : (k < length (merge_rows now pcs table))%nat).
    { rewrite merge_rows_length. apply nth_error_Some. congruence. }
    rewrite nth_error_app1 by exact Hlt.
    unfold merge_rows. destruct (merging pcs) eqn:Hg; [|eauto].
    destruct (sort_by_createdAt pcs) as [|oldest others] eqn:Hsort; [eauto|].
    unfold demote_in. rewrite nth_error_map, Hk. cbn [option_map].
    eexists. split; [reflexivity|]. unfold demote_if.
    destruct (existsb (Z.eqb (id c)) (map id others)) eqn:E; [|now left].
    right. apply existsb_Zeqb_In, in_map_iff in E as [d [Hd Hin]].
    destruct (sorted_in_table request table oldest others Hsort d)
      as [Hdt [Hdp Hdm]]; [now right|].
    assert (d = c).
    { eapply unique_ids_eq; eauto. eapply nth_error_In; eauto. }
    subst d. eauto. }
  destruct Hcases as [c' [Hn Hc]]. exists c'. split; [exact Hn|].
  split; [exact Hc|]. split.
  - intros Hp. destruct Hc as [Hc|[Hp' _]]; [exact Hc|congruence].
  - intros Hp. destruct Hc as [Hc|[_ [_ [_ [oid ->]]]]]; [exact Hc|].
    discriminate.
Qed.

(** ** Which primary survives a merge *)

Lemma sort_head_first_least (l : list Contact) (h : Contact)
  (t : list Contact) :
  sort_by_createdAt l = h :: t ->
  exists before after,
    l = before ++ h :: after
    /\ (forall d, In d before -> createdAt h < createdAt d)
    /\ (forall d, In d after -> createdAt h <= createdAt d).
Proof.
  revert h t. induction l as [|x l IH]; intros h t Hs; [discriminate|].
  simpl in Hs. destruct (sort_by_createdAt l) as [|h' t'] eqn:Hl.
  - apply sort_by_createdAt_nil in Hl. subst l. injection Hs as <- <-.
    exists [], []. repeat split; intros d [].
  - destruct (IH h' t' eq_refl) as [before [after [-> [Hb Ha]]]].
    simpl in Hs. destruct (Z.leb_spec (createdAt x) (createdAt h')).
    + injection Hs as <- <-. exists [], (before ++ h' :: after).
      repeat split; [intros d []|]. intros d Hd.
      apply in_app_or in Hd as [Hd|[<-|Hd]].
      * specialize (Hb d Hd). lia.
      * assumption.
      * specialize (Ha d Hd). lia.
    + injection Hs as <- <-. exists (x :: before), after.
      repeat split; auto. intros d [<-|Hd]; auto.
Qed.

(** X12: when a call merges, whatever the number of matched primaries, the
    one that stays primary and is answered as [primaryContactId] has the
    least [createdAt] among them, and among those with that [createdAt] it
    is the first in the order in which the query returned them (rows with
    the email of the request before rows that only have its phone number,
    each group in rowid order).  The sorted list is a rearrangement of the
    matched primaries, and every other one is demoted: where ids are
    unique, the table the call leaves holds the survivor as it was and,
    under the id of each other matched primary, that row rewritten into a
    secondary linked to the survivor. *)
Theorem survivor_is_first_oldest (now : Z) (request : IdentifyRequest)
  (table : list Contact) (oldest : Contact) (others : list Contact) :
  merging (filter is_primary (matching request table)) = true ->
  sort_by_createdAt (filter is_primary (matching request table))
  = oldest :: others ->
  (exists before after,
     filter is_primary (matching request table) = before ++ oldest :: after
     /\ (forall d, In d before -> createdAt oldest < createdAt d)
     /\ (forall d, In d after -> createdAt oldest <= createdAt d))
  /\ Permutation (oldest :: others)
                 (filter is_primary (matching request table))
  /\ (forall d, In d others -> createdAt oldest <= createdAt d)
  /\ (exists response,
        fst (run_identify now request table) = Ok response
        /\ primaryContactId response = id oldest)
  /\ (unique_ids table = true ->
      let final := rows (snd (run_identify now request table)) in
      lookup final (id oldest) = Some oldest
      /\ is_primary oldest = true
      /\ forall d, In d others ->
           is_primary d = true
           /\ lookup final (id d) = Some (demote now (id oldest) d)
           /\ linkPrecedence (demote now (id oldest) d) = secondary
           /\ linkedId (demote now (id oldest) d) = Some (id oldest)
           /\ updatedAt (demote now (id oldest) d) = now).
Proof.
  intros Hg Hsort.
  destruct (sort_head_first_least _ _ _ Hsort) as [before [after [Hl [Hb Ha]]]].
  assert (Hperm : Permutation (oldest :: others)
                    (filter is_primary (matching request table))).
  { rewrite <- Hsort. apply sort_by_createdAt_perm. }
  split; [eauto|]. split; [exact Hperm|]. split.
  - intros d Hd.
    assert (Hin : In d (filter is_primary (matching request table))).
    { apply (Permutation_in _ Hperm). now right. }
    rewrite Hl in Hin. apply in_app_or in Hin as [Hin|[<-|Hin]].
    + specialize (Hb d Hin). lia.
    + lia.
    + now apply Ha.
  - split.
    + change (fst (run_identify now request table))
        with (fst (fst (outcome now request table))).
      rewrite (outcome_merge now request table oldest others Hsort Hg).
      cbv zeta. destruct (novel request _); eexists; split; reflexivity.
    + intros Hu final.
      set (t1 := demote_in now (id oldest) (map id others) table).
      assert (Hf : exists created, final = t1 ++ created).
      { unfold final. rewrite rows_of_outcome.
        rewrite (outcome_merge now request table oldest others Hsort Hg).
        cbv zeta. fold t1. destruct (novel request (linked t1 (id oldest))).
        - eexists. reflexivity.
        - exists []. cbn. now rewrite app_nil_r. }
      destruct Hf as [created ->]. split; [|split].
      * rewrite lookup_app. unfold t1.
        now rewrite (lookup_oldest now request table oldest others Hu Hsort).
      * apply (sorted_in_table request table oldest others Hsort).
        now left.
      * intros d Hd. split.
        { apply (sorted_in_table request table oldest others Hsort).
          now right. }
        split; [|repeat split].
        rewrite lookup_app. unfold t1.
        now rewrite (lookup_demoted now request table oldest others Hu Hsort
                       d Hd).
Qed.

(** ** Tables built by calls: when a valid request is answered *)

Lemma ultimate_primary_app (table extra : list Contact) (i : Z) (n : nat)
  (p : Contact) :
  ultimate_primary table i n p -> ultimate_primary (table ++ extra) i n p.
Proof.
  induction 1 as [i p Hl Hp | i j c n p Hl Hc Hj _ IH].
  - apply reached; auto. now rewrite lookup_app, Hl.
  - eapply hop; eauto. now rewrite lookup_app, Hl.
Qed.

Lemma ultimate_primary_demoted (now : Z) (request : IdentifyRequest)
  (table : list Contact) (oldest : Contact) (others : list Contact)
  (i : Z) (n : nat) (p : Contact) :
  unique_ids table = true ->
  sort_by_createdAt (filter is_primary (matching request table))
  = oldest :: others ->
  ultimate_primary table i n p ->
  exists n' p',
    ultimate_primary (demote_in now (id oldest) (map id others) table) i n' p'.
Proof.
  intros Hu Hsort.
  set (t1 := demote_in now (id oldest) (map id others) table).
  assert (Ho : ultimate_primary t1 (id oldest) O oldest).
  { apply reached.
    - apply (lookup_oldest now request table oldest others Hu Hsort).
    - apply (sorted_in_table request table oldest others Hsort). now left. }
  induction 1 as [i p Hl Hp | i j c n p Hl Hc Hj _ IH].
  - assert (Hl1 : lookup t1 i
                  = Some (demote_if now (id oldest) (map id others) p)).
    { unfold t1. now rewrite demote_in_lookup, Hl. }
    unfold demote_if in Hl1.
    destruct (existsb (Z.eqb (id p)) (map id others)).
    + exists 1%nat, oldest.
      exact (hop t1 i (id oldest) _ O oldest Hl1 eq_refl eq_refl Ho).
    + exists O, p. now apply reached.
  - assert (Hl1 : lookup t1 i
                  = Some (demote_if now (id oldest) (map id others) c)).
    { unfold t1. now rewrite demote_in_lookup, Hl. }
    unfold demote_if in Hl1.
    destruct (existsb (Z.eqb (id c)) (map id others)).
    + exists 1%nat, oldest.
      exact (hop t1 i (id oldest) _ O oldest Hl1 eq_refl eq_refl Ho).
    + destruct IH as [n' [p' IH]]. exists (S n'), p'.
      exact (hop t1 i j c n' p' Hl1 Hc Hj IH).
Qed.

Lemma serve_invalid (now : Z) (request : IdentifyRequest)
  (table : list Contact) :
  valid request = false -> serve table (now, request) = table.
Proof.
  intros Hv. unfold serve. cbn [fst snd]. rewrite rows_of_outcome.
  now rewrite (outcome_invalid _ _ _ Hv).
Qed.

(** The table a call on a valid request leaves, with the row the new
    secondary is linked to. *)
Lemma serve_cases (now : Z) (request : IdentifyRequest)
  (table : list Contact) :
  unique_ids table = true ->
  valid request = true ->
  let t1 := merge_rows now (filter is_primary (matching request table)) table in
  exists created,
    serve table (now, request) = t1 ++ created
    /\ (created = []
        \/ (matching request table = [] /\ t1 = table
            /\ created = [new_row table request None primary now])
        \/ exists p, lookup t1 (id p) = Some p /\ is_primary p = true
             /\ created = [new_row t1 request (Some (id p)) secondary now]).
Proof.
  intros Hu Hv t1. unfold serve. cbn [fst snd]. rewrite rows_of_outcome.
  destruct (matching request table) as [|m0 rest] eqn:Hm.
  - rewrite (outcome_no_match _ _ _ Hv Hm). eexists. split.
    + subst t1. cbn. reflexivity.
    + right. left. auto.
  - rewrite (outcome_matched _ _ _ _ _ Hv Hm). unfold matched_outcome.
    fold t1.
    destruct (working_primary now table m0 (filter is_primary (m0 :: rest)))
      as [[p|]|e] eqn:Hw.
    + destruct (working_primary_row _ _ _ _ _ _ Hu Hm Hw) as [Hlk Hp].
      fold t1 in Hlk. cbv zeta. destruct (novel request (linked t1 (id p))).
      * eexists. split; [reflexivity|]. right. right. exists p. auto.
      * exists []. rewrite app_nil_r. auto.
    + exists []. rewrite app_nil_r. auto.
    + exists []. rewrite app_nil_r. auto.
Qed.

Lemma merge_rows_keeps_chains (now : Z) (request : IdentifyRequest)
  (table : list Contact) :
  unique_ids table = true ->
  chains_end table ->
  chains_end (merge_rows now (filter is_primary (matching request table))
                table).
Proof.
  intros Hu Hc. unfold merge_rows.
  destruct (merging (filter is_primary (matching request table))); auto.
  destruct (sort_by_createdAt (filter is_primary (matching request table)))
    as [|oldest others] eqn:Hsort; auto.
  intros c Hin Hp. unfold demote_in in Hin.
  apply in_map_iff in Hin as [c0 [<- Hin0]]. unfold demote_if in *.
  destruct (existsb (Z.eqb (id c0)) (map id others)).
  - exists (id oldest), O, oldest. split; [reflexivity|]. apply reached.
    + apply (lookup_oldest now request table oldest others Hu Hsort).
    + apply (sorted_in_table request table oldest others Hsort). now left.
  - destruct (Hc c0 Hin0 Hp) as [i [n [p [Hi Hup]]]].
    destruct (ultimate_primary_demoted now request table oldest others
                i n p Hu Hsort Hup) as [n' [p' Hup']].
    exists i, n', p'. auto.
Qed.

Lemma serve_keeps_chains (table : list Contact) (call : Z * IdentifyRequest) :
  unique_ids table = true ->
  chains_end table ->
  chains_end (serve table call).
Proof.
  destruct call as [now request]. intros Hu Hc.
  destruct (valid request) eqn:Hv; [|now rewrite serve_invalid].
  pose proof (merge_rows_keeps_chains now request table Hu Hc) as Hc1.
  destruct (serve_cases now request table Hu Hv)
    as [created [-> [->|[[_ [_ ->]]|[p [Hlk [Hp ->]]]]]]].
  - now rewrite app_nil_r.
  - intros c Hin Hcp. apply in_app_or in Hin as [Hin|[<-|[]]];
      [|discriminate].
    destruct (Hc1 c Hin Hcp) as [i [n [q [Hi Hup]]]].
    exists i, n, q. split; auto. now apply ultimate_primary_app.
  - intros c Hin Hcp. apply in_app_or in Hin as [Hin|[<-|[]]].
    + destruct (Hc1 c Hin Hcp) as [i [n [q [Hi Hup]]]].
      exists i, n, q. split; auto. now apply ultimate_primary_app.
    + exists (id p), O, p. split; [reflexivity|].
      apply ultimate_primary_app. now apply reached.
Qed.

Lemma built_keeps (calls : list (Z * IdentifyRequest)) :
  unique_ids (built calls) = true /\ chains_end (built calls).
Proof.
  unfold built.
  assert (H : forall table, unique_ids table = true ->
              links_resolve table = true -> chains_end table ->
              unique_ids (fold_left serve calls table) = true
              /\ chains_end (fold_left serve calls table)).
  { induction calls as [|call calls IH]; intros table Hu Hl Hc; simpl; auto.
    destruct (serve_keeps_table_sound table call Hu Hl).
    apply IH; auto. now apply serve_keeps_chains. }
  apply H; try reflexivity. intros c [].
Qed.

(** Where every secondary leads to a primary, a valid request is
    answered unless the chain from the first row of the query is too long
    for the recursion limit. *)
Lemma chains_end_cases (now : Z) (request : IdentifyRequest)
  (table : list Contact) :
  chains_end table ->
  valid request = true ->
  (exists response, fst (run_identify now request table) = Ok response)
  \/ (fst (run_identify now request table) = Raise RecursionError
      /\ exists m0 rest i n p,
           matching request table = m0 :: rest
           /\ filter is_primary (m0 :: rest) = []
           /\ linkedId m0 = Some i
           /\ ultimate_primary table i n p
           /\ (recursion_depth <= n)%nat).
Proof.
  intros Hc Hv.
  change (fst (run_identify now request table))
    with (fst (fst (outcome now request table))).
  destruct (matching request table) as [|m0 rest] eqn:Hm.
  { left. rewrite (outcome_no_match _ _ _ Hv Hm). eexists. reflexivity. }
  assert (Hok : forall p,
            working_primary now table m0 (filter is_primary (m0 :: rest))
            = Ok (Some p) ->
            exists response,
              fst (fst (outcome now request table)) = Ok response).
  { intros p Hw. rewrite (outcome_matched _ _ _ _ _ Hv Hm).
    unfold matched_outcome. rewrite Hw. cbv zeta.
    destruct (novel request _); eexists; reflexivity. }
  destruct (filter is_primary (m0 :: rest)) as [|q l] eqn:Hf.
  - assert (Hin : In m0 table).
    { apply (proj1 (matching_In request table m0)). rewrite Hm. now left. }
    assert (Hp : is_primary m0 = false).
    { destruct (is_primary m0) eqn:E; auto.
      assert (Hin' : In m0 (filter is_primary (m0 :: rest)))
        by (apply filter_In; split; [now left|exact E]).
      rewrite Hf in Hin'. destruct Hin'. }
    destruct (Hc m0 Hin Hp) as [i [n [p [Hi Hup]]]].
    destruct (Nat.lt_ge_cases n recursion_depth) as [Hlt|Hge].
    + left. apply (Hok p). unfold working_primary. cbn. rewrite Hi.
      now apply (ultimate_primary_found _ _ _ _ _ Hup).
    + right. rewrite (outcome_all_secondary _ _ _ _ _ Hv Hm Hf), Hi.
      rewrite (secondaries_ahead_resolve table (Some i) recursion_depth).
      * split; [reflexivity|]. exists m0, rest, i, n, p. auto.
      * apply (secondaries_ahead_le _ _ n); auto.
        now apply ultimate_primary_ahead in Hup.
  - left. unfold working_primary, merge_primaries in Hok.
    destruct (merging (q :: l)) eqn:Hg.
    + destruct (sort_by_createdAt (q :: l)) as [|o others] eqn:Hs;
        [|eapply Hok; reflexivity].
      apply sort_by_createdAt_nil in Hs. discriminate.
    + eapply Hok; reflexivity.
Qed.

(** X13: on a table built from the empty one by calls made one after the
    other, a request with a usable field never fails with AttributeError,
    because there every secondary leads, by its [linkedId]s, to a primary.
    It is answered, or it fails with RecursionError; the latter only when
    every matched row is secondary and the chain from the first one to its
    primary counts at least as many secondaries as the recursion limit
    allows nested calls, which takes a table with more rows than that. *)
Theorem built_tables_answer_within_depth (calls : list (Z * IdentifyRequest))
  (now : Z) (request : IdentifyRequest) :
  valid request = true ->
  ((exists response,
      fst (run_identify now request (built calls)) = Ok response)
   \/ (fst (run_identify now request (built calls)) = Raise RecursionError
       /\ exists m0 rest i n p,
            matching request (built calls) = m0 :: rest
            /\ filter is_primary (m0 :: rest) = []
            /\ linkedId m0 = Some i
            /\ ultimate_primary (built calls) i n p
            /\ (recursion_depth <= n)%nat))
  /\ ((length (built calls) <= recursion_depth)%nat ->
      exists response,
        fst (run_identify now request (built calls)) = Ok response).
Proof.
  intros Hv.
  pose proof (chains_end_cases now request (built calls)
                (proj2 (built_keeps calls)) Hv) as H.
  split; [exact H|]. intros Hle.
  destruct H as [H|[_ [m0 [rest [i [n [p [_ [_ [_ [Hup Hge]]]]]]]]]]]; auto.
  apply ultimate_primary_short in Hup. lia.
Qed.

(** X14: on a table built by calls, every secondary leads, by following
    [linkedId] through secondaries, to a primary; ids are unique; every
    [linkedId] is the id of a row; and no two primaries carry the same
    non-empty email or the same non-empty phone number. *)
Theorem built_tables_links (calls : list (Z * IdentifyRequest)) :
  unique_ids (built calls) = true
  /\ links_resolve (built calls) = true
  /\ primaries_apart (built calls) = true
  /\ (forall c, In c (built calls) -> is_primary c = false ->
      exists i n p,
        linkedId c = Some i /\ ultimate_primary (built calls) i n p).
Proof.
  destruct (built_tables_sound calls) as [Hu [Hl Ha]].
  destruct (built_keeps calls) as [_ Hc].
  unfold built in *. auto.
Qed.

(** ** Tables built by calls: the rows *)

Lemma max_of_seq (n s : nat) :
  fold_right Z.max 0 (map Z.of_nat (seq s n))
  = match n with O => 0 | S _ => Z.of_nat (s + n - 1) end.
Proof.
  revert s. induction n as [|n IH]; intros s; [reflexivity|].
  cbn [seq map fold_right]. rewrite IH. destruct n; lia.
Qed.

Lemma next_id_consecutive (table : list Contact) :
  consecutive_ids table -> next_id table = Z.of_nat (S (length table)).
Proof.
  unfold consecutive_ids, next_id, ids. intros H.
  assert (Hfold : forall l : list Contact,
            fold_right (fun c m => Z.max (id c) m) 0 l
            = fold_right Z.max 0 (map id l)).
  { induction l as [|x l IH]; simpl; auto. now rewrite IH. }
  rewrite Hfold, H, max_of_seq. destruct (length table); lia.
Qed.

Lemma consecutive_ids_snoc (table : list Contact) (n : Contact) :
  consecutive_ids table -> id n = next_id table ->
  consecutive_ids (table ++ [n]).
Proof.
  intros H Hn. pose proof (next_id_consecutive _ H) as Hnext.
  unfold consecutive_ids, ids in *.
  rewrite map_app, length_app, H. cbn [length map].
  rewrite Nat.add_1_r, seq_S, map_app. cbn [map].
  now rewrite Hn, Hnext.
Qed.

Lemma new_row_shape (table : list Contact) (request : IdentifyRequest)
  (link : option Z) (precedence : LinkPrecedence) (now : Z) :
  valid request = true ->
  (precedence = primary <-> link = None) ->
  row_shape (new_row table request link precedence now).
Proof.
  intros Hv Hl. unfold row_shape, new_row, is_primary.
  cbn [email phoneNumber linkedId deletedAt linkPrecedence].
  split; [|split; [exact Hv|reflexivity]].
  rewrite <- Hl. destruct precedence; split; auto; discriminate.
Qed.

Lemma merge_rows_shape (now : Z) (pcs table : list Contact) :
  Forall row_shape table -> Forall row_shape (merge_rows now pcs table).
Proof.
  intros H. unfold merge_rows. destruct (merging pcs); auto.
  destruct (sort_by_createdAt pcs) as [|o others]; auto.
  unfold demote_in. apply Forall_map. revert H. apply Forall_impl.
  intros c [H1 [H2 H3]]. unfold demote_if.
  destruct (existsb (Z.eqb (id c)) (map id others));
    [|exact (conj H1 (conj H2 H3))].
  unfold row_shape, demote, is_primary.
  cbn [email phoneNumber linkedId deletedAt linkPrecedence].
  split; [split; discriminate|]. split; assumption.
Qed.

Lemma serve_keeps_rows (table : list Contact) (call : Z * IdentifyRequest) :
  consecutive_ids table -> Forall row_shape table ->
  consecutive_ids (serve table call) /\ Forall row_shape (serve table call).
Proof.
  destruct call as [now request]. intros Hc Hs.
  destruct (valid request) eqn:Hv; [|now rewrite serve_invalid].
  set (t1 := merge_rows now (filter is_primary (matching request table)) table).
  assert (Hc1 : consecutive_ids t1).
  { unfold consecutive_ids. unfold t1 at 1.
    rewrite merge_rows_ids. unfold t1. now rewrite merge_rows_length. }
  assert (Hs1 : Forall row_shape t1) by now apply merge_rows_shape.
  destruct (serve_shape now request table)
    as [created [-> [->|[[_ [_ [Ht ->]]]|[p [_ ->]]]]]]; fold t1.
  - now rewrite app_nil_r.
  - fold t1 in Ht. split.
    + apply consecutive_ids_snoc; auto. now rewrite Ht.
    + apply Forall_app. split; auto. constructor; [|constructor].
      apply new_row_shape; auto. easy.
  - split.
    + apply consecutive_ids_snoc; auto.
    + apply Forall_app. split; auto. constructor; [|constructor].
      apply new_row_shape; auto. split; discriminate.
Qed.

(** X15: on a table built by calls made one after the other, the ids are
    1, 2, ... in table order (so the next id is the number of rows plus
    one), a row is primary exactly when its [linkedId] is NULL, every row
    has a non-empty email or a non-empty phoneNumber, and [deletedAt] is
    never set. *)
Theorem built_tables_rows (calls : list (Z * IdentifyRequest)) :
  ids (built calls) = map Z.of_nat (seq 1 (length (built calls)))
  /\ next_id (built calls) = Z.of_nat (S (length (built calls)))
  /\ (forall c, In c (built calls) ->
        (is_primary c = true <-> linkedId c = None)
        /\ truthy (email c) || truthy (phoneNumber c) = true
        /\ deletedAt c = None).
Proof.
  assert (H : forall table, consecutive_ids table -> Forall row_shape table ->
              consecutive_ids (fold_left serve calls table)
              /\ Forall row_shape (fold_left serve calls table)).
  { induction calls as [|call calls IH]; intros table Hc Hs; simpl; auto.
    destruct (serve_keeps_rows table call Hc Hs). now apply IH. }
  destruct (H [] eq_refl (Forall_nil _)) as [Hc Hs].
  fold (built calls) in Hc, Hs.
  split; [exact Hc|]. split; [now apply next_id_consecutive|].
  intros c Hin. rewrite Forall_forall in Hs. exact (Hs c Hin).
Qed.

(** ** The number of primaries *)

Lemma filter_split_length (P T : Contact -> bool) (l : list Contact) :
  length (filter P l)
  = (length (filter (fun c => P c && negb (T c)) l)
     + length (filter (fun c => P c && T c) l))%nat.
Proof.
  induction l as [|x l IH]; [reflexivity|]. cbn [filter].
  destruct (P x), (T x); cbn [andb negb length]; lia.
Qed.

Lemma unique_ids_NoDup_rows (table : list Contact) :
  unique_ids table = true -> NoDup table.
Proof.
  unfold unique_ids. rewrite distinct_NoDup. apply NoDup_map_inv.
Qed.

Lemma demoted_count (now : Z) (request : IdentifyRequest)
  (table : list Contact) (oldest : Contact) (others : list Contact) :
  unique_ids table = true ->
  sort_by_createdAt (filter is_primary (matching request table))
  = oldest :: others ->
  (length (filter is_primary
             (demote_in now (id oldest) (map id others) table))
   + length others)%nat
  = length (filter is_primary table).
Proof.
  intros Hu Hsort.
  set (T := fun c : Contact => existsb (Z.eqb (id c)) (map id others)).
  unfold demote_in. rewrite filter_of_map, length_map.
  rewrite (filter_ext _ (fun c => is_primary c && negb (T c))).
  2:{ intros c. unfold demote_if, T.
      destruct (existsb (Z.eqb (id c)) (map id others));
        [cbn; now rewrite andb_false_r|now rewrite andb_true_r]. }
  rewrite (filter_split_length is_primary T table). f_equal.
  apply Permutation_length. apply NoDup_Permutation.
  - assert (Hnd : NoDup (map id (oldest :: others))).
    { rewrite <- Hsort.
      apply (Permutation_NoDup
               (Permutation_map id
                  (Permutation_sym (sort_by_createdAt_perm _)))).
      apply NoDup_map_filter, matching_NoDup.
      now apply distinct_NoDup. }
    apply NoDup_map_inv in Hnd. now inversion Hnd.
  - apply NoDup_filter. now apply unique_ids_NoDup_rows.
  - intros c. rewrite filter_In, andb_true_iff. unfold T. split.
    + intros Hin.
      destruct (sorted_in_table request table oldest others Hsort c)
        as [Hct [Hcp _]]; [now right|].
      repeat split; auto. apply existsb_Zeqb_In. now apply in_map.
    + intros [Hct [Hcp Hc]].
      apply existsb_Zeqb_In, in_map_iff in Hc as [d [Hd Hin]].
      destruct (sorted_in_table request table oldest others Hsort d)
        as [Hdt _]; [now right|].
      assert (d = c) by (eapply unique_ids_eq; eauto). now subst.
Qed.

(** X16: how a call changes the number of primaries of a table with unique
    ids: a valid request that matches nothing adds one; otherwise a call
    that finds [k] primaries among the matched rows leaves one of them, so
    it takes away [k - 1] when [k] is two or more and changes nothing when
    [k] is at most one. *)
Theorem primaries_count (now : Z) (request : IdentifyRequest)
  (table : list Contact) :
  unique_ids table = true ->
  let before := length (filter is_primary table) in
  let after := length (filter is_primary (serve table (now, request))) in
  let k := length (filter is_primary (matching request table)) in
  (valid request = true -> matching request table = [] -> after = S before)
  /\ (valid request = false \/ matching request table <> [] ->
      (after + (k - 1))%nat = before).
Proof.
  intros Hu before after k. subst before after k.
  set (pcs := filter is_primary (matching request table)).
  assert (Ht1 : (length (filter is_primary (merge_rows now pcs table))
                 + (length pcs - 1))%nat
                = length (filter is_primary table)).
  { unfold merge_rows. destruct (merging pcs) eqn:Hg.
    - destruct (sort_by_createdAt pcs) as [|oldest others] eqn:Hsort.
      { apply sort_by_createdAt_nil in Hsort. rewrite Hsort in Hg.
        discriminate. }
      rewrite <- (demoted_count now request table oldest others Hu Hsort).
      rewrite <- (sort_by_createdAt_length pcs), Hsort. cbn [length]. lia.
    - unfold merging in Hg. apply Nat.ltb_ge in Hg. lia. }
  unfold serve. cbn [fst snd]. rewrite rows_of_outcome.
  destruct (valid request) eqn:Hv.
  - destruct (matching request table) as [|m0 rest] eqn:Hm.
    + rewrite (outcome_no_match _ _ _ Hv Hm). cbn [fst snd]. split.
      * intros _ _. rewrite filter_app, length_app. cbn. lia.
      * intros [Hf|Hne]; [discriminate|now contradiction Hne].
    + split; [discriminate|]. intros _.
      rewrite (outcome_matched _ _ _ _ _ Hv Hm). unfold matched_outcome.
      fold pcs.
      assert (Hsec : forall p,
                length (filter is_primary
                          (merge_rows now pcs table
                           ++ [new_row (merge_rows now pcs table) request
                                 (Some (id p)) secondary now]))
                = length (filter is_primary (merge_rows now pcs table))).
      { intros p. rewrite filter_app, length_app. cbn. lia. }
      destruct (working_primary now table m0 pcs) as [[p|]|e];
        [cbv zeta; destruct (novel request _)| |]; cbn [fst snd];
        rewrite ?Hsec; exact Ht1.
  - rewrite (outcome_invalid _ _ _ Hv). cbn [fst snd]. split; [discriminate|].
    intros _. unfold pcs. rewrite (matching_invalid _ _ Hv). cbn. lia.
Qed.


(** ** The clock *)

Section Shown.

Variable B : Type.
Variable f : Contact -> B.
Hypothesis f_shown : forall x y, shown x = shown y -> f x = f y.

Lemma map_shown (a b : list Contact) :
  map shown a = map shown b -> map f a = map f b.
Proof.
  revert b. induction a as [|x a IH]; intros [|y b] H; try discriminate; auto.
  cbn [map] in *.
  assert (Hxy : shown x = shown y) by congruence.
  assert (Hab : map shown a = map shown b) by congruence.
  f_equal; [now apply f_shown|now apply IH].
Qed.

End Shown.

Lemma find_shown (q : Contact -> bool) (a b : list Contact) :
  (forall x y, shown x = shown y -> q x = q y) ->
  map shown a = map shown b ->
  option_map shown (find q a) = option_map shown (find q b).
Proof.
  intros Hq. revert b.
  induction a as [|x a IH]; intros [|y b] H; try discriminate; auto.
  cbn [map find] in *.
  assert (Hxy : shown x = shown y) by congruence.
  assert (Hab : map shown a = map shown b) by congruence.
  rewrite (Hq x y Hxy).
  destruct (q y); cbn [option_map]; [now rewrite Hxy|auto].
Qed.

Lemma filter_shown (q : Contact -> bool) (a b : list Contact) :
  (forall x y, shown x = shown y -> q x = q y) ->
  map shown a = map shown b ->
  map shown (filter q a) = map shown (filter q b).
Proof.
  intros Hq. revert b.
  induction a as [|x a IH]; intros [|y b] H; try discriminate; auto.
  cbn [map filter] in *.
  assert (Hxy : shown x = shown y) by congruence.
  assert (Hab : map shown a = map shown b) by congruence.
  rewrite (Hq x y Hxy).
  destruct (q y); cbn [map]; [rewrite Hxy; f_equal|]; auto.
Qed.

Lemma shown_fields (x y : Contact) :
  shown x = shown y ->
  id x = id y /\ email x = email y /\ phoneNumber x = phoneNumber y
  /\ linkedId x = linkedId y /\ linkPrecedence x = linkPrecedence y.
Proof. unfold shown. intros [= -> -> -> -> ->]. auto. Qed.

Lemma linked_shown (a b : list Contact) (i : Z) :
  map shown a = map shown b ->
  map shown (linked a i) = map shown (linked b i).
Proof.
  intros H. unfold linked, lookup.
  assert (Hf : option_map shown (find (id_eq (Some i)) a)
               = option_map shown (find (id_eq (Some i)) b)).
  { apply find_shown; auto. intros x y Hxy.
    apply shown_fields in Hxy as [Hi _]. cbn. now rewrite Hi. }
  assert (Hs : map shown (filter (fun c => linked_to i c && is_secondary c) a)
               = map shown (filter (fun c => linked_to i c && is_secondary c)
                               b)).
  { apply filter_shown; auto. intros x y Hxy.
    apply shown_fields in Hxy as [_ [_ [_ [Hl Hp]]]].
    unfold linked_to, is_secondary. now rewrite Hl, Hp. }
  destruct (find (id_eq (Some i)) a) as [pa|],
           (find (id_eq (Some i)) b) as [pb|]; try discriminate; auto.
  cbn [option_map] in Hf.
  assert (Hpab : shown pa = shown pb) by congruence. clear Hf.
  rename Hpab into Hf.
  pose proof (shown_fields _ _ Hf) as [_ [_ [_ [_ Hp]]]].
  unfold is_primary. rewrite Hp.
  destruct (linkPrecedence pb); cbn [negb map]; auto. now rewrite Hf, Hs.
Qed.

Lemma flat_map_concat (B : Type) (f : Contact -> list B) (l : list Contact) :
  flat_map f l = concat (map f l).
Proof. induction l as [|x l IH]; simpl; auto. now rewrite IH. Qed.

Lemma existing_shown (a b : list Contact) :
  map shown a = map shown b ->
  existing_emails a = existing_emails b
  /\ existing_phones a = existing_phones b
  /\ map id (filter is_secondary a) = map id (filter is_secondary b).
Proof.
  intros H. unfold existing_emails, existing_phones.
  rewrite !flat_map_concat. split; [|split].
  - f_equal. f_equal. apply map_shown; auto. intros x y Hxy.
    apply shown_fields in Hxy as [_ [He _]]. now rewrite He.
  - f_equal. f_equal. apply map_shown; auto. intros x y Hxy.
    apply shown_fields in Hxy as [_ [_ [Hp _]]]. now rewrite Hp.
  - assert (Hf : map shown (filter is_secondary a)
                 = map shown (filter is_secondary b)).
    { apply filter_shown; auto. intros x y Hxy.
      apply shown_fields in Hxy as [_ [_ [_ [_ Hp]]]].
      unfold is_secondary. now rewrite Hp. }
    apply map_shown; auto. intros x y Hxy.
    now apply shown_fields in Hxy as [Hi _].
Qed.

Lemma respond_shown (p : Contact) (a b : list Contact) :
  map shown a = map shown b -> respond p a = respond p b.
Proof.
  intros H. destruct (existing_shown a b H) as [He [Hp Hs]].
  unfold respond. now rewrite He, Hp, Hs.
Qed.

Lemma novel_shown (request : IdentifyRequest) (a b : list Contact) :
  map shown a = map shown b -> novel request a = novel request b.
Proof.
  intros H. destruct (existing_shown a b H) as [He [Hp _]].
  unfold novel. now rewrite He, Hp.
Qed.

Lemma merge_rows_shown (now now' : Z) (pcs table : list Contact) :
  map shown (merge_rows now pcs table) = map shown (merge_rows now' pcs table).
Proof.
  unfold merge_rows. destruct (merging pcs); auto.
  destruct (sort_by_createdAt pcs) as [|o others]; auto.
  unfold demote_in. rewrite !map_map. apply map_ext. intros x.
  unfold demote_if. now destruct (existsb _ (map id others)).
Qed.

Lemma next_id_merge_rows (now : Z) (pcs table : list Contact) :
  next_id (merge_rows now pcs table) = next_id table.
Proof.
  pose proof (merge_rows_ids now pcs table) as Hids. unfold ids in Hids.
  assert (Hfold : forall l : list Contact,
            fold_right (fun c m => Z.max (id c) m) 0 l
            = fold_right Z.max 0 (map id l)).
  { induction l as [|x l IH]; simpl; auto. now rewrite IH. }
  unfold next_id. now rewrite !Hfold, Hids.
Qed.

Lemma working_primary_clock (now now' : Z) (table : list Contact)
  (m0 : Contact) (pcs : list Contact) :
  working_primary now table m0 pcs = working_primary now' table m0 pcs.
Proof.
  unfold working_primary, merge_primaries. destruct (merging pcs); auto.
  now destruct (sort_by_createdAt pcs).
Qed.

(** X17: the clock never decides anything.  Two calls on the same table
    with the same request at different times give the same answer (or the
    same error), and the tables they leave agree in every column but the
    timestamps: the order of merging depends on the stored [createdAt]
    values only. *)
Theorem clock_only_stamps (now now' : Z) (request : IdentifyRequest)
  (table : list Contact) :
  fst (run_identify now request table) = fst (run_identify now' request table)
  /\ map shown (serve table (now, request))
     = map shown (serve table (now', request)).
Proof.
  unfold serve. cbn [fst snd]. rewrite !rows_of_outcome.
  change (fst (run_identify now request table))
    with (fst (fst (outcome now request table))).
  change (fst (run_identify now' request table))
    with (fst (fst (outcome now' request table))).
  destruct (valid request) eqn:Hv.
  2:{ rewrite !(outcome_invalid _ _ _ Hv). auto. }
  destruct (matching request table) as [|m0 rest] eqn:Hm.
  { rewrite !(outcome_no_match _ _ _ Hv Hm). cbn [fst snd].
    split; [reflexivity|]. now rewrite !map_app. }
  rewrite !(outcome_matched _ _ _ _ _ Hv Hm). unfold matched_outcome.
  set (pcs := filter is_primary (m0 :: rest)).
  rewrite (working_primary_clock now' now table m0 pcs).
  pose proof (merge_rows_shown now now' pcs table) as Ht.
  set (t1 := merge_rows now pcs table) in *.
  set (t1' := merge_rows now' pcs table) in *.
  destruct (working_primary now table m0 pcs) as [[p|]|e]; auto.
  cbv zeta.
  pose proof (linked_shown t1 t1' (id p) Ht) as Hg.
  rewrite (novel_shown request _ _ Hg).
  destruct (novel request (linked t1' (id p))); cbn [fst snd].
  - assert (Hn : shown (new_row t1 request (Some (id p)) secondary now)
                 = shown (new_row t1' request (Some (id p)) secondary now')).
    { unfold shown, new_row. cbn. unfold t1, t1'.
      now rewrite !next_id_merge_rows. }
    split.
    + f_equal. apply respond_shown. rewrite !map_app. cbn [map].
      now rewrite Hg, Hn.
    + rewrite !map_app. cbn [map]. now rewrite Ht, Hn.
  - split; [|exact Ht]. f_equal. now apply respond_shown.
Qed.

End Interpreter.

(** ** Worked examples

    The statements above at concrete tables and requests, run with the
    recursion limit of CPython as installed. *)

(** The rows of the query for [Identify(e, 9)] on [five_calls]: row 4, which
    has the email, comes before rows 3 and 5, which only have the phone
    number. *)
Lemma matching_email_first :
  map id (matching (both "e" "9") five_calls) = [4; 3; 5]
  /\ fold_left (serve default_recursion_limit)
       [(10, both "a" "1"); (20, both "b" "2"); (30, both "a" "9");
        (40, both "e" "2"); (50, both "b" "9")] []
     = five_calls.
Proof. split; reflexivity. Qed.

Lemma empty_string_treated_as_absent_witness :
  identify default_recursion_limit 10 (mkRequest (Some EmptyString) None)
    (open two_identities)
  = (Raise InvalidRequest, open two_identities)
  /\ (truthy (request_email (both "a" "7")) = true
      /\ email (row 1 "a" "1" None primary 10) = request_email (both "a" "7")
      \/ truthy (request_phoneNumber (both "a" "7")) = true
         /\ phoneNumber (row 1 "a" "1" None primary 10)
            = request_phoneNumber (both "a" "7")).
Proof.
  split.
  - exact (proj2 (proj1 (empty_string_treated_as_absent
                           default_recursion_limit) 10
                    (Some EmptyString) None (open two_identities)
                    eq_refl eq_refl)).
  - exact (proj2 (proj2 (proj2 (proj2
             (empty_string_treated_as_absent default_recursion_limit))))
             (both "a" "7") (row 1 "a" "1" None primary 10) eq_refl).
Defined.

Lemma identify_no_match_creates_primary_witness :
  run_identify default_recursion_limit 10 (both "a" "1") []
  = (Ok (mkResponse 1 ["a"%string] ["1"%string] []),
     {| rows := [mkContact 1 (Some "1"%string) (Some "a"%string) None primary
                           10 10 None];
        log := [Select;
                Commit [mkContact 1 (Some "1"%string) (Some "a"%string) None
                                  primary 10 10 None]] |}).
Proof.
  exact (proj1 (identify_no_match_creates_primary default_recursion_limit
                  10 (both "a" "1") [] eq_refl eq_refl)).
Defined.

Lemma novelty_check_decides_creation_witness :
  fst (outcome default_recursion_limit 30 (both "b" "3") two_identities)
  = (Ok (mkResponse 2 ["b"%string] ["2"%string; "3"%string] [3]),
     two_identities ++ [row 3 "b" "3" (Some 2) secondary 30])
  /\ fst (outcome default_recursion_limit 60 (both "e" "9") five_calls)
     = (Ok (mkResponse 2 ["e"%string; "b"%string] ["2"%string; "9"%string]
              [4; 5]),
        five_calls).
Proof.
  split.
  - exact (proj1 (proj1 (proj2 (novelty_check_decides_creation
             default_recursion_limit 30 (both "b" "3")
             two_identities (row 2 "b" "2" None primary 20) []
             (row 2 "b" "2" None primary 20) eq_refl eq_refl eq_refl))
             eq_refl)).
  - exact (proj1 (proj2 (proj2 (novelty_check_decides_creation
             default_recursion_limit 60 (both "e" "9") five_calls
             (row 4 "e" "2" (Some 2) secondary 40)
             [row 3 "a" "9" (Some 1) secondary 30;
              row 5 "b" "9" (Some 2) secondary 50]
             (row 2 "b" "2" None primary 20) eq_refl eq_refl eq_refl)))
             eq_refl).
Defined.

(** C4 as stated fails.  When two primaries are matched and the merged
    graph covers both fields, no row is created and yet the table changes
    (row 2 is demoted); and a request whose email is the empty string,
    which is not null and is not among the graph's emails, creates no
    row. *)
Lemma full_coverage_may_change_table :
  (matching (both "a" "2") two_identities <> []
   /\ novel (both "a" "2")
        (linked (merge_rows 30 (filter is_primary
                   (matching (both "a" "2") two_identities)) two_identities) 1)
      = false
   /\ length (rows (snd (run_identify default_recursion_limit 30
                           (both "a" "2") two_identities)))
      = length two_identities
   /\ rows (snd (run_identify default_recursion_limit 30 (both "a" "2")
                   two_identities))
      <> two_identities)
  /\ (let request := mkRequest (Some EmptyString) (Some "1"%string) in
      let table := [mkContact 1 (Some "1"%string) None None primary 10 10 None] in
      matching request table <> []
      /\ request_email request <> None
      /\ ~ In EmptyString (existing_emails (linked table 1))
      /\ rows (snd (run_identify default_recursion_limit 30 request table))
         = table).
Proof.
  repeat split; try discriminate; try reflexivity.
  cbn. tauto.
Qed.

Lemma identify_resolves_ultimate_primary_witness :
  exists response,
    fst (run_identify default_recursion_limit 40
           (mkRequest (Some "c"%string) None) deep_chain)
    = Ok response
    /\ primaryContactId response = 1.
Proof.
  refine (proj2 (proj1 (identify_resolves_ultimate_primary
           default_recursion_limit 40
           (mkRequest (Some "c"%string) None) deep_chain
           (row 3 "c" "3" (Some 2) secondary 30) []
           eq_refl eq_refl eq_refl)
           2 1%nat (row 1 "a" "1" None primary 10) eq_refl _ _)).
  - eapply hop; [reflexivity|reflexivity|reflexivity|].
    apply reached; reflexivity.
  - apply Nat.ltb_lt. reflexivity.
Defined.

(** C8 as stated fails on acyclic chains of two kinds.  A chain that ends
    at an id that no row has gives AttributeError.  And on a primary
    followed by 1001 secondaries, each linked to the row before it, the
    request that matches the last of them makes [find_primary_contact]
    call itself 1000 times before it would reach the primary: with the
    recursion limit of 1000, whatever part of it is left to these calls,
    the request fails with RecursionError, where a limit of 1001 left to
    them in full would have answered with primary 1. *)
Lemma identify_fails_on_acyclic_chains :
  (matching (mkRequest (Some "x"%string) None) orphan_table
   = [row 1 "x" "9" (Some 7) secondary 10]
   /\ lookup orphan_table 7 = None
   /\ outcome default_recursion_limit 20 (mkRequest (Some "x"%string) None)
        orphan_table
      = (Raise AttributeError, orphan_table, []))
  /\ (let table := long_chain 1000 in
      let request := mkRequest (Some "z"%string) None in
      length table = 1002%nat
      /\ matching request table = [row 1002 "z" "0" (Some 1001) secondary 1002]
      /\ (forall depth : nat,
            (depth <= default_recursion_limit)%nat ->
            fst (run_identify depth 20 request table) = Raise RecursionError)
      /\ fst (run_identify (S default_recursion_limit) 20 request table)
         = Ok (mkResponse 1 ["p"%string; "s"%string; "z"%string] ["0"%string]
                 [2; 1003])).
Proof.
  split; [repeat split|]. cbv zeta.
  assert (Hm : matching (mkRequest (Some "z"%string) None) (long_chain 1000)
               = [row 1002 "z" "0" (Some 1001) secondary 1002])
    by (vm_compute; reflexivity).
  split; [vm_compute; reflexivity|]. split; [exact Hm|].
  split; [|vm_compute; reflexivity].
  intros depth Hle.
  change (fst (run_identify depth 20 (mkRequest (Some "z"%string) None)
                 (long_chain 1000)))
    with (fst (fst (outcome depth 20 (mkRequest (Some "z"%string) None)
                      (long_chain 1000)))).
  rewrite (outcome_all_secondary depth 20 (mkRequest (Some "z"%string) None)
             (long_chain 1000) _ [] eq_refl Hm eq_refl).
  change (linkedId (row 1002 "z" "0" (Some 1001) secondary 1002))
    with (Some 1001).
  rewrite (secondaries_ahead_resolve (long_chain 1000) (Some 1001) depth);
    [reflexivity|].
  apply (secondaries_ahead_le _ _ default_recursion_limit); [|exact Hle].
  apply (resolve_raise _ _ _ RecursionError).
  vm_compute. reflexivity.
Qed.

Lemma no_merge_no_mutation_witness :
  fst (run_identify default_recursion_limit 50 (both "e" "9") crossed_families)
  = Ok (mkResponse 2 ["b"%string; "e"%string] ["2"%string; "9"%string] [4; 5])
  /\ rows (snd (run_identify default_recursion_limit 50 (both "e" "9")
                  crossed_families))
     = crossed_families ++ [row 5 "e" "9" (Some 2) secondary 50].
Proof.
  exact (proj2 (no_merge_no_mutation default_recursion_limit 50
                  (both "e" "9") crossed_families (le_S _ _ (le_n 0)))
               (row 4 "e" "2" (Some 2) secondary 40)
               [row 3 "a" "9" (Some 1) secondary 30]
               (row 2 "b" "2" None primary 20)
               eq_refl eq_refl eq_refl eq_refl).
Defined.

Lemma merge_keeps_oldest_primary_witness :
  exists response,
    outcome default_recursion_limit 30 (both "a" "2") two_identities
    = (Ok response,
       demote_in 30 1 [2] two_identities,
       [demote_in 30 1 [2] two_identities])
    /\ primaryContactId response = 1
    /\ secondaryContactIds response = [2]
    /\ (forall x, In x (emails response) <-> x = "a"%string \/ x = "b"%string)
    /\ NoDup (emails response)
    /\ (forall x, In x (phoneNumbers response)
                  <-> x = "1"%string \/ x = "2"%string)
    /\ NoDup (phoneNumbers response).
Proof.
  refine (proj1 (proj2 (merge_keeps_oldest_primary default_recursion_limit
           30 two_identities
           (row 1 "a" "1" None primary 10) (row 2 "b" "2" None primary 20)
           "a" "1" "b" "2" eq_refl (Permutation_refl _) eq_refl eq_refl eq_refl
           eq_refl eq_refl eq_refl eq_refl _ _ _ _ eq_refl)));
    discriminate.
Defined.

Lemma merge_links_demoted_to_survivor_witness :
  lookup (serve default_recursion_limit three_calls (40, both "a" "2")) 3
  = Some (row 3 "b" "3" (Some 2) secondary 30)
  /\ 2 <> 1
  /\ exists d,
       In d [row 2 "b" "2" None primary 20] /\ id d = 2
       /\ lookup (serve default_recursion_limit three_calls
                    (40, both "a" "2")) 2
          = Some (demote 40 1 d)
       /\ linkedId (demote 40 1 d) = Some 1.
Proof.
  refine (proj2 (proj2 (proj2 (proj2 (proj2
           (merge_links_demoted_to_survivor default_recursion_limit 40
              (both "a" "2") three_calls
              (row 1 "a" "1" None primary 10) [row 2 "b" "2" None primary 20]
              eq_refl eq_refl eq_refl eq_refl)))))
           (row 3 "b" "3" (Some 2) secondary 30) 2 _ eq_refl _).
  - right. right. now left.
  - now left.
Defined.

(** C1 as stated fails.  After the three calls [Identify(a,1)],
    [Identify(b,2)], [Identify(b,3)] the table is two-level; the call
    [Identify(a,2)] then merges the two identities, and in the table it
    leaves row 3 is still linked to row 2, which is now linked to row 1. *)
Lemma merge_leaves_two_hop_link :
  fold_left (serve default_recursion_limit)
    [(10, both "a" "1"); (20, both "b" "2"); (30, both "b" "3")] []
  = three_calls
  /\ one_hop three_calls = true
  /\ merging (filter is_primary (matching (both "a" "2") three_calls)) = true
  /\ one_hop (serve default_recursion_limit three_calls (40, both "a" "2"))
     = false
  /\ lookup (serve default_recursion_limit three_calls (40, both "a" "2")) 3
     = Some (row 3 "b" "3" (Some 2) secondary 30)
  /\ lookup (serve default_recursion_limit three_calls (40, both "a" "2")) 2
     = Some (mkContact 2 (Some "2"%string) (Some "b"%string) (Some 1)
                       secondary 20 40 None).
Proof. repeat split. Qed.

Lemma identify_twice_same_witness :
  fst (run_identify default_recursion_limit 50 (both "a" "2")
         (rows (snd (run_identify default_recursion_limit 40 (both "a" "2")
                       three_calls))))
  = fst (run_identify default_recursion_limit 40 (both "a" "2") three_calls).
Proof.
  exact (proj1 (identify_twice_same default_recursion_limit 40 50
                  (both "a" "2") three_calls eq_refl eq_refl)).
Defined.

(** The second hypothesis of the repetition theorem is needed: a row whose
    [linkedId] is an id not yet given out, which no call ever writes,
    joins the graph of the primary that takes that id. *)
Lemma dangling_link_joins_new_primary :
  let table := [row 1 "x" "9" (Some 2) secondary 10] in
  links_resolve table = false
  /\ fst (run_identify default_recursion_limit 20 (both "a" "1") table)
     = Ok (mkResponse 2 ["a"%string] ["1"%string] [])
  /\ fst (run_identify default_recursion_limit 30 (both "a" "1")
            (rows (snd (run_identify default_recursion_limit 20
                          (both "a" "1") table))))
     = Ok (mkResponse 2 ["a"%string; "x"%string] ["1"%string; "9"%string] [1]).
Proof. repeat split. Qed.

Lemma identify_commits_witness :
  (length (snd (outcome default_recursion_limit 40 (both "a" "2") three_calls))
   <= 1)%nat.
Proof.
  destruct (identify_commits default_recursion_limit 40 (both "a" "2")
              three_calls)
    as [created [_ [_ [_ [_ [_ [_ H]]]]]]].
  exact (H eq_refl eq_refl).
Defined.

(** C7 as stated fails: on two primaries with the same email, a request
    with that email and a new phone number is served with two commits; the
    first makes the demotion of row 2 durable before row 3 exists. *)
Lemma demotion_committed_before_creation :
  snd (outcome default_recursion_limit 30 (both "a" "3") shared_email_table)
  = [ [row 1 "a" "1" None primary 10;
       mkContact 2 (Some "2"%string) (Some "a"%string) (Some 1) secondary
                 20 30 None];
      [row 1 "a" "1" None primary 10;
       mkContact 2 (Some "2"%string) (Some "a"%string) (Some 1) secondary
                 20 30 None;
       row 3 "a" "3" (Some 1) secondary 30] ].
Proof. reflexivity. Qed.

Lemma get_all_linked_contacts_direct_links_witness :
  exists l,
    fst (get_all_linked_contacts 1
           (open (serve default_recursion_limit three_calls
                    (40, both "a" "2")))) = Ok l
    /\ map id l = [1; 2].
Proof.
  destruct (get_all_linked_contacts_direct_links 1
              (open (serve default_recursion_limit three_calls
                       (40, both "a" "2"))))
    as [l [Hl [_ [_ H]]]].
  exists l. split; [exact Hl|].
  destruct (H (row 1 "a" "1" None primary 10) eq_refl eq_refl)
    as [tail [-> [-> _]]].
  reflexivity.
Defined.

Lemma identify_dead_end_raises_attribute_error_witness :
  outcome default_recursion_limit 20 (mkRequest (Some "x"%string) None)
    orphan_table
  = (Raise AttributeError, orphan_table, []).
Proof.
  apply (identify_dead_end_raises_attribute_error default_recursion_limit 20
           (mkRequest (Some "x"%string) None) orphan_table
           (row 1 "x" "9" (Some 7) secondary 10) [] 0
           eq_refl eq_refl eq_refl).
  - apply dead_missing. reflexivity.
  - apply Nat.ltb_lt. reflexivity.
Defined.

Lemma identify_link_loop_raises_recursion_error_witness :
  outcome default_recursion_limit 30 (mkRequest (Some "x"%string) None)
    looping_table
  = (Raise RecursionError, looping_table, []).
Proof.
  apply (proj2 (identify_link_loop_raises_recursion_error
                  default_recursion_limit 30
                  (mkRequest (Some "x"%string) None) looping_table
                  (row 1 "x" "1" (Some 2) secondary 10) []
                  eq_refl eq_refl eq_refl)
           2 (fun k => k = 1 \/ k = 2) eq_refl).
  - now right.
  - intros k [Hk|Hk]; subst k.
    + exists (row 1 "x" "1" (Some 2) secondary 10), 2.
      repeat split. now right.
    + exists (row 2 "y" "2" (Some 1) secondary 20), 1.
      repeat split. now left.
Defined.

Lemma answer_holds_request_witness :
  In "a"%string (emails merged_answer).
Proof.
  exact (proj1 (answer_holds_request default_recursion_limit 40
                  (both "a" "2") three_calls
                  merged_answer eq_refl) "a"%string eq_refl
               ltac:(discriminate)).
Defined.

Lemma answer_extends_graph_witness :
  exists response,
    fst (run_identify default_recursion_limit 50 (both "e" "9")
           crossed_families) = Ok response
    /\ primaryContactId response = 2
    /\ secondaryContactIds response = [4; 5].
Proof.
  destruct (answer_extends_graph default_recursion_limit 50 (both "e" "9")
              crossed_families
              (row 4 "e" "2" (Some 2) secondary 40)
              [row 3 "a" "9" (Some 1) secondary 30]
              (row 2 "b" "2" None primary 20) eq_refl eq_refl eq_refl)
    as [response [H1 [H2 [_ [_ H3]]]]].
  exists response. split; [exact H1|]. split; [exact H2|exact H3].
Defined.

Lemma answer_describes_final_table_witness :
  exists p,
    lookup (serve default_recursion_limit three_calls (40, both "a" "2")) 1
    = Some p
    /\ is_primary p = true
    /\ [2] = map id (filter (fun c => linked_to 1 c && is_secondary c)
                       (serve default_recursion_limit three_calls
                          (40, both "a" "2"))).
Proof.
  destruct (answer_describes_final_table default_recursion_limit 40
              (both "a" "2") three_calls
              merged_answer eq_refl eq_refl eq_refl) as [p [H1 [H2 [H3 _]]]].
  exists p. split; [exact H1|]. split; [exact H2|exact H3].
Defined.

Lemma answer_well_formed_witness :
  NoDup (secondaryContactIds merged_answer)
  /\ ~ In (primaryContactId merged_answer)
          (secondaryContactIds merged_answer).
Proof.
  exact (proj2 (proj2 (proj2 (proj2
           (answer_well_formed default_recursion_limit 40 (both "a" "2")
              three_calls merged_answer eq_refl))))
           eq_refl eq_refl).
Defined.

Lemma demotion_is_one_way_witness :
  exists c',
    nth_error (serve default_recursion_limit three_calls (40, both "a" "2")) 1
    = Some c'
    /\ (c' = row 2 "b" "2" None primary 20
        \/ (is_primary (row 2 "b" "2" None primary 20) = true
            /\ matches (both "a" "2") (row 2 "b" "2" None primary 20) = true
            /\ merging (filter is_primary
                          (matching (both "a" "2") three_calls)) = true
            /\ exists oldest_id,
                 c' = demote 40 oldest_id (row 2 "b" "2" None primary 20))).
Proof.
  destruct (demotion_is_one_way default_recursion_limit 40 (both "a" "2")
              three_calls 1
              (row 2 "b" "2" None primary 20) eq_refl eq_refl)
    as [c' [H1 [H2 _]]].
  exists c'. split; [exact H1|exact H2].
Defined.

Lemma survivor_is_first_oldest_witness :
  exists response,
    fst (run_identify default_recursion_limit 40 (both "b" "1") tied_pair)
    = Ok response
    /\ primaryContactId response = 2.
Proof.
  exact (proj1 (proj2 (proj2 (proj2
           (survivor_is_first_oldest default_recursion_limit 40
              (both "b" "1") tied_pair (row 2 "b" "2" None primary 10)
              [row 1 "a" "1" None primary 10]
              eq_refl eq_refl))))).
Defined.

Lemma built_tables_answer_within_depth_witness :
  exists response,
    fst (run_identify default_recursion_limit 50 (both "b" "3")
           (built default_recursion_limit
              [(10, both "a" "1"); (20, both "b" "2"); (30, both "b" "3");
               (40, both "a" "2")]))
    = Ok response.
Proof.
  apply (proj2 (built_tables_answer_within_depth default_recursion_limit
           [(10, both "a" "1"); (20, both "b" "2"); (30, both "b" "3");
            (40, both "a" "2")] 50 (both "b" "3") eq_refl)).
  apply Nat.leb_le. reflexivity.
Defined.

(** Calls made one after the other do build chains: after a merge the
    rows linked to the demoted primary are two links away from the
    survivor, and a request that only matches such a row needs two nested
    calls of [find_primary_contact]; with room for one it fails. *)
Lemma built_chain_needs_depth :
  let calls := [(10, both "a" "1"); (20, both "b" "2"); (30, both "b" "3");
                (40, both "a" "2")] in
  let request := mkRequest None (Some "3"%string) in
  map shown (built 1 calls)
  = [(1, Some "a"%string, Some "1"%string, None, primary);
     (2, Some "b"%string, Some "2"%string, Some 1, secondary);
     (3, Some "b"%string, Some "3"%string, Some 2, secondary)]
  /\ built 2 calls = built 1 calls
  /\ fst (run_identify 1 50 request (built 1 calls)) = Raise RecursionError
  /\ fst (run_identify 2 50 request (built 2 calls))
     = Ok (mkResponse 1 ["a"%string; "b"%string]
             ["1"%string; "2"%string; "3"%string] [2; 4]).
Proof. repeat split. Qed.

Lemma primaries_count_witness :
  (length (filter is_primary (serve default_recursion_limit tied_primaries
                                (40%Z, mkRequest (Some "a"%string) None)))
   + (length (filter is_primary
                (matching (mkRequest (Some "a"%string) None) tied_primaries))
      - 1))%nat
  = length (filter is_primary tied_primaries).
Proof.
  apply (proj2 (primaries_count default_recursion_limit 40
                  (mkRequest (Some "a"%string) None)
                  tied_primaries eq_refl)).
  right. discriminate.
Defined.

(** After the merge of [three_calls] by [Identify(a, 2)], row 3, which
    [Identify(b, 3)] created, hangs off the demoted row 2 and is not in the
    graph of row 1; the same request made again finds its phone number
    missing from that graph and inserts a second row with the same email
    and phone number. *)
Lemma repeat_after_merge_inserts_again :
  map shown (serve default_recursion_limit
               (serve default_recursion_limit three_calls (40, both "a" "2"))
               (50, both "b" "3"))
  = [(1, Some "a"%string, Some "1"%string, None, primary);
     (2, Some "b"%string, Some "2"%string, Some 1, secondary);
     (3, Some "b"%string, Some "3"%string, Some 2, secondary);
     (4, Some "b"%string, Some "3"%string, Some 1, secondary)].
Proof. reflexivity. Qed.
